(** * cloudfox, [aws/secrets.go]: the secrets enumeration module

    A shallow embedding of [SecretsModule.PrintSecrets] and of the goroutines
    it starts ([Receiver], one [executeChecks] per region), as an interleaving
    of small steps over one shared state, and the properties of the
    enumeration core proved over every schedule.

    Granularity.  A step is one access to shared state: a channel rendezvous,
    a [sync.WaitGroup] operation, one call of the remote service, and, for a
    counter statement [m.CommandCounter.X++], first the load and then the
    store, because the counters are plain [int] fields that the goroutines
    update without synchronisation. *)

From Stdlib Require Import ZArith String Ascii List Lia DecimalString.
From stdpp Require Import base option list strings.

Open Scope Z_scope.

(** ** Go's [int]: 64 bits, two's complement, wrapping on overflow *)

Definition int_min : Z := - 2 ^ 63.
Definition int_max : Z := 2 ^ 63 - 1.
Definition wrap (z : Z) : Z := (z + 2 ^ 63) mod 2 ^ 64 - 2 ^ 63.
Definition incr (z : Z) : Z := wrap (z + 1).
Definition decr (z : Z) : Z := wrap (z - 1).

(** ** Strings and formatting *)

Definition nl : string := String (ascii_of_nat 10) EmptyString.

(** [strconv.Itoa] *)
Definition Itoa (z : Z) : string := NilZero.string_of_int (Z.to_int z).

(** [fmt.Sprintln(s)] with one operand *)
Definition Sprintln (s : string) : string := s +:+ nl.

Module aws.
(** [aws.ToString]: the pointed-to string, or the empty string for [nil]. *)
Definition ToString (p : option string) : string :=
  match p with Some s => s | None => EmptyString end.
End aws.

(** ** Data model *)

Module console.
(** Modelled from the spec: the declaration of [console.CommandCounter] is
    not in the file.  The fields are those the file updates with [++] and
    [--], integers as in the spec's section 3 (pending, executing, complete,
    errored), and [Total], which [executeChecks] increments as well. *)
Record CommandCounter := mkCounter {
  Total : Z; Pending : Z; Complete : Z; Error : Z; Executing : Z }.
End console.

Module utils.
(** Modelled from the spec: the declaration of [utils.OutputData2] is not in
    the file.  The fields are those [PrintSecrets] writes, handed to the
    output stage of the spec's section 6. *)
Record OutputData2 := mkOutput {
  Verbosity : Z; Directory : string; CallingModule : string;
  Headers : list string; Body : list (list string); FilePath : string }.
End utils.

Module sts.
(** [sts.GetCallerIdentityOutput], the fields this module reads. *)
Record GetCallerIdentityOutput := mkCaller {
  Account : option string; UserId : option string }.
End sts.

Record Secret := mkSecret {
  AWSService : string; Region : string; Name : string; Description : string }.

Record SecretsModule := mkModule {
  Caller : sts.GetCallerIdentityOutput;
  AWSRegions : list string;
  AWSProfile : string;
  Secrets : list Secret;
  CommandCounter : console.CommandCounter;
  output : utils.OutputData2 }.

(** The two listing operations.  Their code in [secrets.go] is the same loop
    up to the client called and the service tag written into the item. *)
Inductive kind := SecretsManager | SSM.

Definition kind_name (k : kind) : string :=
  match k with SecretsManager => "SecretsManager" | SSM => "SSM" end.

(** What the loops read of [types.SecretListEntry] and
    [types.ParameterMetadata]: two [*string] fields. *)
Record entry := mkEntry { eName : option string; eDescription : option string }.

(** The outcome of one listing call: [err != nil], or a page and its
    [NextToken]. *)
Inductive response :=
| Failure (err : string)
| Page (records : list entry) (NextToken : option string).

(** What lies outside the file: the two remote clients, the colour helpers
    of package [aws], [filepath.Join], and the outcome of the two file-system
    calls of [writeLoot] ([None] for a nil error).  A listing operation
    answers a request, region and [NextToken], with a failure or a page: the
    paginated-list contract of the spec's section 4.1. *)
Record Env := mkEnv {
  ListSecrets : string -> option string -> response;
  DescribeParameters : string -> option string -> response;
  cyan : string -> string;
  green : string -> string;
  Join : list string -> string;
  MkdirAll : string -> option string;
  WriteFile : string -> string -> option string }.

(** The listing call of a source, for region [r] with [NextToken = tok]. *)
Definition fetchPage (E : Env) (k : kind) (r : string) (tok : option string) : response :=
  match k with
  | SecretsManager => ListSecrets E r tok
  | SSM => DescribeParameters E r tok
  end.

(** The item sent for one record (lines 212-223 and 258-269). *)
Definition item (k : kind) (r : string) (e : entry) : Secret :=
  {| AWSService := kind_name k;
     Region := r;
     Name := aws.ToString (eName e);
     Description := match eDescription e with
                    | Some d => aws.ToString (Some d)
                    | None => EmptyString
                    end |}.

(** ** Counter fields and their updates *)

Inductive field := FTotal | FPending | FComplete | FError | FExecuting.

#[global] Instance field_eq_dec : EqDecision field.
Proof. solve_decision. Defined.

Definition get (f : field) (c : console.CommandCounter) : Z :=
  match f with
  | FTotal => console.Total c
  | FPending => console.Pending c
  | FComplete => console.Complete c
  | FError => console.Error c
  | FExecuting => console.Executing c
  end.

Definition set (f : field) (v : Z) (c : console.CommandCounter) : console.CommandCounter :=
  match f with
  | FTotal => console.mkCounter v (console.Pending c) (console.Complete c) (console.Error c) (console.Executing c)
  | FPending => console.mkCounter (console.Total c) v (console.Complete c) (console.Error c) (console.Executing c)
  | FComplete => console.mkCounter (console.Total c) (console.Pending c) v (console.Error c) (console.Executing c)
  | FError => console.mkCounter (console.Total c) (console.Pending c) (console.Complete c) v (console.Executing c)
  | FExecuting => console.mkCounter (console.Total c) (console.Pending c) (console.Complete c) (console.Error c) v
  end.

(** ** One [executeChecks] goroutine

    The counter statements of a worker, each a load followed by a store. *)
Inductive site :=
| STotal            (* line 140: m.CommandCounter.Total++ *)
| SPending          (* line 141: m.CommandCounter.Pending-- *)
| SExecutingInc     (* line 142: m.CommandCounter.Executing++ *)
| SError (k : kind) (* lines 207 and 253: m.CommandCounter.Error++ *)
| SExecutingDec     (* line 145: m.CommandCounter.Executing-- *)
| SComplete.        (* line 146: m.CommandCounter.Complete++ *)

Definition site_field (u : site) : field :=
  match u with
  | STotal => FTotal
  | SPending => FPending
  | SExecutingInc | SExecutingDec => FExecuting
  | SError _ => FError
  | SComplete => FComplete
  end.

Definition site_op (u : site) : Z -> Z :=
  match u with
  | SPending | SExecutingDec => decr
  | STotal | SExecutingInc | SError _ | SComplete => incr
  end.

(** Where a worker stands. *)
Inductive wpc :=
| WUpdate (u : site) (loaded : option Z)
    (* at a counter statement; [loaded] holds the value read, once read *)
| WCall (k : kind) (tok : option string)
    (* about to call the listing operation with [NextToken = tok] *)
| WLog (k : kind) (err : string)
    (* the call failed: about to run m.modLog.Error(err.Error()) *)
| WSend (k : kind) (e : entry) (rest : list entry) (next : option string)
    (* in the range loop over a page: about to send the item of [e] *)
| WDone   (* the deferred wg.Done() *)
| WExit.  (* returned *)

Record worker := mkWorker { region : string; pc : wpc }.

(** The two loops start with [var PaginationControl *string], which is
    [nil] (lines 194 and 239). *)
Definition getSecretsManagerSecretsPerRegion : wpc := WCall SecretsManager None.
Definition getSSMParametersPerRegion : wpc := WCall SSM None.

(** After the loop of a source: the next source (line 144), or the rest of
    [executeChecks] (line 145). *)
Definition after_loop (k : kind) : wpc :=
  match k with
  | SecretsManager => getSSMParametersPerRegion
  | SSM => WUpdate SExecutingDec None
  end.

(** After a record of a page: the next record; after the last one, the test
    of [NextToken] (lines 228-233 and 274-279). *)
Definition after_page (k : kind) (recs : list entry) (next : option string) : wpc :=
  match recs with
  | e :: rest => WSend k e rest next
  | [] => match next with
          | Some t => WCall k (Some t)
          | None => after_loop k
          end
  end.

Definition site_next (u : site) : wpc :=
  match u with
  | STotal => WUpdate SPending None
  | SPending => WUpdate SExecutingInc None
  | SExecutingInc => getSecretsManagerSecretsPerRegion
  | SError k => after_loop k          (* break *)
  | SExecutingDec => WUpdate SComplete None
  | SComplete => WDone
  end.

(** What one step of a worker does to the world. *)
Inductive action :=
| ALoad (f : field)
| AStore (f : field) (v : Z)
| ACall (k : kind) (r : string) (tok : option string)
| ALog (err : string)
| ASend (x : Secret)
| AWgDone.

(** [executeChecks(r, wg, dataReceiver)] starts at line 140. *)
Definition executeChecks (r : string) : worker := mkWorker r (WUpdate STotal None).

(** One step of a worker, given the counters it would read. *)
Definition worker_step (E : Env) (c : console.CommandCounter) (w : worker)
  : option (action * worker) :=
  let r := region w in
  match pc w with
  | WUpdate u None =>
      Some (ALoad (site_field u), mkWorker r (WUpdate u (Some (get (site_field u) c))))
  | WUpdate u (Some v) =>
      Some (AStore (site_field u) (site_op u v), mkWorker r (site_next u))
  | WCall k tok =>
      match fetchPage E k r tok with
      | Failure err => Some (ACall k r tok, mkWorker r (WLog k err))
      | Page recs next => Some (ACall k r tok, mkWorker r (after_page k recs next))
      end
  | WLog k err => Some (ALog err, mkWorker r (WUpdate (SError k) None))
  | WSend k e rest next => Some (ASend (item k r e), mkWorker r (after_page k rest next))
  | WDone => Some (AWgDone, mkWorker r WExit)
  | WExit => None
  end.

(** The effect of an action on the counters. *)
Definition act_counter (a : action) (c : console.CommandCounter) : console.CommandCounter :=
  match a with
  | AStore f v => set f v c
  | _ => c
  end.

(** A worker run on its own for [n] steps: every send is taken at once and
    nobody else touches the counters. *)
Fixpoint worker_run (E : Env) (n : nat) (c : console.CommandCounter) (w : worker)
  : list action * console.CommandCounter * worker :=
  match n with
  | O => ([], c, w)
  | S n' =>
      match worker_step E c w with
      | None => ([], c, w)
      | Some (a, w') =>
          let '(acts, c', w'') := worker_run E n' (act_counter a c) w' in
          (a :: acts, c', w'')
      end
  end.

(** The listing calls of a trace, the items it sends, and the values it
    stores into a counter field. *)
Definition calls_of (acts : list action) : list (kind * string * option string) :=
  omap (fun a => match a with ACall k r tok => Some (k, r, tok) | _ => None end) acts.

Definition sends_of (acts : list action) : list Secret :=
  omap (fun a => match a with ASend x => Some x | _ => None end) acts.

Definition stores_of (f : field) (acts : list action) : list Z :=
  omap (fun a => match a with
                 | AStore g v => if decide (g = f) then Some v else None
                 | _ => None
                 end) acts.

(** ** The shared state and the other goroutines *)

(** [PrintSecrets], the main goroutine. *)
Inductive mpc :=
| MStart                                   (* lines 47-73 *)
| MAdd (r : string) (rest : list string)   (* line 76: wg.Add(1) *)
| MPending (loaded : option Z) (r : string) (rest : list string)
                                           (* line 77: m.CommandCounter.Pending++ *)
| MGo (r : string) (rest : list string)    (* line 78: go m.executeChecks(...) *)
| MWait                                    (* line 81: wg.Wait() *)
| MSpinStop                                (* line 83: spinnerDone <- true *)
| MSpinAck                                 (* line 84: <-spinnerDone *)
| MRecvStop                                (* line 86: receiverDone <- true *)
| MRecvAck                                 (* line 87: <-receiverDone *)
| MOutput                                  (* lines 91-121 *)
| MEnd.

(** [Receiver]: in its select, holding an item it has received and not yet
    appended, about to acknowledge the stop, or returned. *)
Inductive rstate := RSelect | RAppend (data : Secret) | RAck | RClosed.

(** Modelled from the spec: [console.SpinUntil] is not in the file.  Spec 4.4:
    it renders the counters on a cadence, reading them only, until it receives
    a stop signal, which it acknowledges synchronously before terminating. *)
Inductive sstate := SSpin | SAck | SClosed.

(** What the run does to the outside, in order. *)
Inductive event :=
| EPrint (s : string)
| ELog (s : string)
| EOutputSelector (verbosity : Z) (format : string) (headers : list string)
    (body : list (list string)) (path : string) (fileName : string) (callingModule : string)
| EMkdirAll (path : string)
| EWriteFile (path : string) (content : string).

Record state := mkState {
  M : SecretsModule;
  main : mpc;
  wg : nat;
  receiver : rstate;
  spinner : sstate;
  workers : list worker;
  events : list event }.

Definition with_M (m : SecretsModule) (s : state) : state :=
  mkState m (main s) (wg s) (receiver s) (spinner s) (workers s) (events s).
Definition with_main (p : mpc) (s : state) : state :=
  mkState (M s) p (wg s) (receiver s) (spinner s) (workers s) (events s).
Definition with_wg (n : nat) (s : state) : state :=
  mkState (M s) (main s) n (receiver s) (spinner s) (workers s) (events s).
Definition with_receiver (r : rstate) (s : state) : state :=
  mkState (M s) (main s) (wg s) r (spinner s) (workers s) (events s).
Definition with_spinner (r : sstate) (s : state) : state :=
  mkState (M s) (main s) (wg s) (receiver s) r (workers s) (events s).
Definition with_workers (ws : list worker) (s : state) : state :=
  mkState (M s) (main s) (wg s) (receiver s) (spinner s) ws (events s).
Definition emit (es : list event) (s : state) : state :=
  mkState (M s) (main s) (wg s) (receiver s) (spinner s) (workers s) (events s ++ es).

Definition with_Secrets (l : list Secret) (m : SecretsModule) : SecretsModule :=
  mkModule (Caller m) (AWSRegions m) (AWSProfile m) l (CommandCounter m) (output m).
Definition with_Counter (c : console.CommandCounter) (m : SecretsModule) : SecretsModule :=
  mkModule (Caller m) (AWSRegions m) (AWSProfile m) (Secrets m) c (output m).
Definition with_Profile (p : string) (m : SecretsModule) : SecretsModule :=
  mkModule (Caller m) (AWSRegions m) p (Secrets m) (CommandCounter m) (output m).
Definition with_output (o : utils.OutputData2) (m : SecretsModule) : SecretsModule :=
  mkModule (Caller m) (AWSRegions m) (AWSProfile m) (Secrets m) (CommandCounter m) o.

(** The arguments of [PrintSecrets]. *)
Record Args := mkArgs { outputFormat : string; outputDirectory : string; verbosity : Z }.

(** ** The sequential parts of [PrintSecrets] *)

(** Lines 167-172: the command lines [writeLoot] adds for one secret. *)
Definition loot_line (x : Secret) : string :=
  (if String.eqb (AWSService x) "SecretsManager"
   then "aws --profile $profile --region " +:+ Region x
        +:+ " secretsmanager get-secret-value --secret-id " +:+ Name x +:+ nl
   else EmptyString)
  +:+
  (if String.eqb (AWSService x) "SSM"
   then "aws --profile $profile --region " +:+ Region x
        +:+ " ssm get-parameter --with-decryption --name " +:+ Name x +:+ nl
   else EmptyString).

(** Lines 158-164. *)
Definition loot_header : string :=
  Sprintln "#############################################"
  +:+ Sprintln "# The profile you will use to perform these commands is most likely not the profile you used to run CloudFox"
  +:+ Sprintln "# Set the $profile environment variable to the profile you are going to use to pull the secrets/parameters."
  +:+ Sprintln "# E.g., export profile=dev-prod."
  +:+ Sprintln "#############################################"
  +:+ Sprintln EmptyString.

(** Lines 158-173: the text of the loot file. *)
Definition loot_out (l : list Secret) : string :=
  fold_left (fun out x => out +:+ loot_line x) l loot_header.

(** An error of a file-system call: logged and counted (lines 152-155 and
    175-178). *)
Definition on_error (err : option string) (es : list event) (m : SecretsModule)
  : list event * SecretsModule :=
  match err with
  | Some e =>
      (es ++ [ELog e],
       with_Counter (set FError (incr (console.Error (CommandCounter m))) (CommandCounter m)) m)
  | None => (es, m)
  end.

(** [writeLoot(outputDirectory, verbosity)]: the events it causes and the
    module it leaves. *)
Definition writeLoot (E : Env) (outputDirectory : string) (verbosity : Z)
  (m : SecretsModule) : list event * SecretsModule :=
  let tag := cyan E (utils.CallingModule (output m)) in
  let path := Join E [outputDirectory; "cloudfox-output"; "aws"; AWSProfile m; "loot"]%string in
  let '(es1, m1) := on_error (MkdirAll E path) [EMkdirAll path] m in
  let pullFile := Join E [path; "pull-secrets-commands.txt"]%string in
  let out := loot_out (Secrets m1) in
  let '(es2, m2) := on_error (WriteFile E pullFile out) (es1 ++ [EWriteFile pullFile out]) m1 in
  let es3 :=
    if 2 <? verbosity
    then [EPrint nl;
          EPrint ("[" +:+ tag +:+ "] "
                  +:+ green E "Use the commands below to retrieve the secrets that look interesting"
                  +:+ " " +:+ nl +:+ nl);
          EPrint out;
          EPrint ("[" +:+ tag +:+ "] " +:+ green E "End of loot file." +:+ " " +:+ nl +:+ nl)]
    else [] in
  (es2 ++ es3 ++ [EPrint ("[" +:+ tag +:+ "] Loot written to [" +:+ pullFile +:+ "]" +:+ nl)], m2).

(** Lines 48-59: the output fields, the profile, the two banner lines. *)
Definition prologue (E : Env) (a : Args) (m : SecretsModule) : list event * SecretsModule :=
  let o := utils.mkOutput (verbosity a) (outputDirectory a) "secrets"
             (utils.Headers (output m)) (utils.Body (output m)) (utils.FilePath (output m)) in
  let m1 := with_output o m in
  let m2 :=
    if String.eqb (AWSProfile m1) EmptyString
    then with_Profile (aws.ToString (sts.Account (Caller m1)) +:+ "-"
                       +:+ aws.ToString (sts.UserId (Caller m1))) m1
    else m1 in
  let tag := cyan E (utils.CallingModule (output m2)) in
  ([EPrint ("[" +:+ tag +:+ "] Enumerating secrets for account "
            +:+ aws.ToString (sts.Account (Caller m2)) +:+ "." +:+ nl);
    EPrint ("[" +:+ tag +:+ "] Supported Services: SecretsManager, SSM Parameters" +:+ nl)],
   m2).

(** Lines 99-110: one table row per secret. *)
Definition row (x : Secret) : list string :=
  [AWSService x; Region x; Name x; Description x].

(** The two closing messages (lines 117 and 120). *)
Definition found_message (E : Env) (m : SecretsModule) (n : nat) : string :=
  "[" +:+ cyan E (utils.CallingModule (output m)) +:+ "] "
  +:+ Itoa (Z.of_nat n) +:+ " secrets found." +:+ nl.

Definition none_message (E : Env) (m : SecretsModule) : string :=
  "[" +:+ cyan E (utils.CallingModule (output m))
  +:+ "] No secrets found, skipping the creation of an output file." +:+ nl.

(** Lines 91-121: the table, and the report. *)
Definition epilogue (E : Env) (a : Args) (m : SecretsModule) : list event * SecretsModule :=
  let o := output m in
  let headers := ["Service"; "Region"; "Name"; "Description"]%string in
  let body := utils.Body o ++ map row (Secrets m) in
  let o1 := utils.mkOutput (utils.Verbosity o) (utils.Directory o) (utils.CallingModule o)
              headers body (utils.FilePath o) in
  let m1 := with_output o1 m in
  match length body with
  | S _ =>
      let path := Join E [outputDirectory a; "cloudfox-output"; "aws"; AWSProfile m1]%string in
      let o2 := utils.mkOutput (utils.Verbosity o1) (utils.Directory o1) (utils.CallingModule o1)
                  headers body path in
      let m2 := with_output o2 m1 in
      let '(es, m3) := writeLoot E (outputDirectory a) (verbosity a) m2 in
      (EOutputSelector (utils.Verbosity o2) (outputFormat a) headers body path
         (utils.CallingModule o2) (utils.CallingModule o2)
       :: es ++ [EPrint (found_message E m3 (length body))],
       m3)
  | O => ([EPrint (none_message E m1)], m1)
  end.

(** ** Steps *)

(** The head of the range loop over [m.AWSRegions] (line 75). *)
Definition loop_head (rest : list string) : mpc :=
  match rest with
  | r :: rest' => MAdd r rest'
  | [] => MWait
  end.

Definition set_counter (f : field) (v : Z) (s : state) : state :=
  with_M (with_Counter (set f v (CommandCounter (M s))) (M s)) s.

(** One step of the main goroutine.  A rendezvous on a channel is a step of
    main that also moves the goroutine at the other end. *)
Definition PrintSecrets (E : Env) (a : Args) (s : state) : option state :=
  match main s with
  | MStart =>
      let '(es, m) := prologue E a (M s) in
      Some (with_main (loop_head (AWSRegions m)) (emit es (with_M m s)))
  | MAdd r rest => Some (with_main (MPending None r rest) (with_wg (S (wg s)) s))
  | MPending None r rest =>
      Some (with_main (MPending (Some (console.Pending (CommandCounter (M s)))) r rest) s)
  | MPending (Some v) r rest =>
      Some (with_main (MGo r rest) (set_counter FPending (incr v) s))
  | MGo r rest =>
      Some (with_main (loop_head rest) (with_workers (workers s ++ [executeChecks r]) s))
  | MWait =>
      match wg s with
      | O => Some (with_main MSpinStop s)
      | S _ => None
      end
  | MSpinStop =>
      match spinner s with
      | SSpin => Some (with_main MSpinAck (with_spinner SAck s))
      | _ => None
      end
  | MSpinAck =>
      match spinner s with
      | SAck => Some (with_main MRecvStop (with_spinner SClosed s))
      | _ => None
      end
  | MRecvStop =>
      match receiver s with
      | RSelect => Some (with_main MRecvAck (with_receiver RAck s))
      | _ => None
      end
  | MRecvAck =>
      match receiver s with
      | RAck => Some (with_main MOutput (with_receiver RClosed s))
      | _ => None
      end
  | MOutput =>
      let '(es, m) := epilogue E a (M s) in
      Some (with_main MEnd (emit es (with_M m s)))
  | MEnd => None
  end.

(** [Receiver] on its own: line 130, the append of the item it holds. *)
Definition Receiver (s : state) : option state :=
  match receiver s with
  | RAppend data =>
      Some (with_receiver RSelect (with_M (with_Secrets (Secrets (M s) ++ [data]) (M s)) s))
  | _ => None
  end.

(** The effect of a worker's action on the shared state; a send needs the
    receiver in its select, [wg.Done()] a positive counter. *)
Definition apply_action (a : action) (s : state) : option state :=
  match a with
  | ALoad _ | ACall _ _ _ => Some s
  | AStore f v => Some (set_counter f v s)
  | ALog err => Some (emit [ELog err] s)
  | ASend x =>
      match receiver s with
      | RSelect => Some (with_receiver (RAppend x) s)
      | _ => None
      end
  | AWgDone =>
      match wg s with
      | S n => Some (with_wg n s)
      | O => None
      end
  end.

Inductive tid := TMain | TReceiver | TWorker (i : nat).

(** One step of goroutine [t], when it can take one. *)
Definition step (E : Env) (a : Args) (t : tid) (s : state) : option state :=
  match t with
  | TMain => PrintSecrets E a s
  | TReceiver => Receiver s
  | TWorker i =>
      match workers s !! i with
      | Some w =>
          match worker_step E (CommandCounter (M s)) w with
          | Some (act, w') =>
              match apply_action act s with
              | Some s' => Some (with_workers (<[i := w']> (workers s')) s')
              | None => None
              end
          | None => None
          end
      | None => None
      end
  end.

(** A run under a schedule: the goroutines named take a step each, in order. *)
Fixpoint run (E : Env) (a : Args) (sched : list tid) (s : state) : option state :=
  match sched with
  | [] => Some s
  | t :: rest =>
      match step E a t s with
      | Some s' => run E a rest s'
      | None => None
      end
  end.

(** [PrintSecrets] is entered with the module as its caller built it; the
    spinner and the receiver are started by the first step and wait. *)
Definition init (m : SecretsModule) : state :=
  mkState m MStart 0 RSelect SSpin [] [].

(** Goroutine [t] has loaded a counter and not yet stored it. *)
Definition holding (t : tid) (s : state) : bool :=
  match t with
  | TMain => match main s with MPending (Some _) _ _ => true | _ => false end
  | TReceiver => false
  | TWorker i =>
      match workers s !! i with
      | Some (mkWorker _ (WUpdate _ (Some _))) => true
      | _ => false
      end
  end.

(** A step in which a counter statement is not interrupted: the store
    follows its load at once. *)
Definition atomic_step (E : Env) (a : Args) (t : tid) (s : state) : option state :=
  match step E a t s with
  | Some s1 => if holding t s1 then step E a t s1 else Some s1
  | None => None
  end.

Fixpoint atomic_run (E : Env) (a : Args) (sched : list tid) (s : state) : option state :=
  match sched with
  | [] => Some s
  | t :: rest =>
      match atomic_step E a t s with
      | Some s' => atomic_run E a rest s'
      | None => None
      end
  end.

(** ** What a source returns

    The pages of source [k] in region [r], followed from [NextToken = tok]
    for at most [fuel] calls: the chain stops at the first failure and at the
    first page without a [NextToken]. *)

(** The chain stops within [fuel] calls. *)
Fixpoint source_finite (E : Env) (fuel : nat) (k : kind) (r : string) (tok : option string) : bool :=
  match fuel with
  | O => false
  | S f =>
      match fetchPage E k r tok with
      | Failure _ => true
      | Page _ None => true
      | Page _ (Some t) => source_finite E f k r (Some t)
      end
  end.

(** The chain has exactly [n] pages: [n] calls succeed and the last one
    returns no [NextToken]. *)
Fixpoint ends_after (E : Env) (n : nat) (k : kind) (r : string) (tok : option string) : bool :=
  match n with
  | O => false
  | S n' =>
      match fetchPage E k r tok with
      | Failure _ => false
      | Page _ None => Nat.eqb n' 0
      | Page _ (Some t) => ends_after E n' k r (Some t)
      end
  end.

(** The records of the pages of the chain. *)
Fixpoint source_records (E : Env) (fuel : nat) (k : kind) (r : string) (tok : option string) : list entry :=
  match fuel with
  | O => []
  | S f =>
      match fetchPage E k r tok with
      | Failure _ => []
      | Page recs None => recs
      | Page recs (Some t) => recs ++ source_records E f k r (Some t)
      end
  end.

(** The tokens of the calls of the chain. *)
Fixpoint source_tokens (E : Env) (fuel : nat) (k : kind) (r : string) (tok : option string)
  : list (option string) :=
  match fuel with
  | O => []
  | S f =>
      tok :: match fetchPage E k r tok with
             | Page _ (Some t) => source_tokens E f k r (Some t)
             | _ => []
             end
  end.

(** The number of failed calls of the chain: none or one. *)
Fixpoint source_failures (E : Env) (fuel : nat) (k : kind) (r : string) (tok : option string) : nat :=
  match fuel with
  | O => O
  | S f =>
      match fetchPage E k r tok with
      | Failure _ => 1%nat
      | Page _ None => O
      | Page _ (Some t) => source_failures E f k r (Some t)
      end
  end.

(** The steps the system takes for the chain: a call each page, a send and
    an append each record, and call, log, load and store for a failure. *)
Fixpoint source_steps (E : Env) (fuel : nat) (k : kind) (r : string) (tok : option string) : nat :=
  match fuel with
  | O => O
  | S f =>
      match fetchPage E k r tok with
      | Failure _ => 4%nat
      | Page recs None => S (2 * length recs)
      | Page recs (Some t) => (S (2 * length recs) + source_steps E f k r (Some t))%nat
      end
  end.

Definition source_items (E : Env) (fuel : nat) (k : kind) (r : string) (tok : option string)
  : list Secret :=
  map (item k r) (source_records E fuel k r tok).

(** Both sources of a region, in the order [executeChecks] runs them. *)
Definition region_items (E : Env) (fuel : nat) (r : string) : list Secret :=
  source_items E fuel SecretsManager r None ++ source_items E fuel SSM r None.

Definition region_finite (E : Env) (fuel : nat) (r : string) : bool :=
  source_finite E fuel SecretsManager r None && source_finite E fuel SSM r None.

Definition region_failures (E : Env) (fuel : nat) (r : string) : nat :=
  (source_failures E fuel SecretsManager r None + source_failures E fuel SSM r None)%nat.

(** Every call of both sources of a region succeeds. *)
Definition region_ok (E : Env) (fuel : nat) (r : string) : bool :=
  region_finite E fuel r && Nat.eqb (region_failures E fuel r) 0.

Definition all_items (E : Env) (fuel : nat) (regions : list string) : list Secret :=
  concat (map (region_items E fuel) regions).

Definition all_finite (E : Env) (fuel : nat) (regions : list string) : bool :=
  forallb (region_finite E fuel) regions.

Definition all_ok (E : Env) (fuel : nat) (regions : list string) : bool :=
  forallb (region_ok E fuel) regions.

(** The raw records returned across every page of every source of every
    region. *)
Definition total_records (E : Env) (fuel : nat) (regions : list string) : nat :=
  sum_list_with (fun r => (length (source_records E fuel SecretsManager r None)
                           + length (source_records E fuel SSM r None))%nat) regions.

Definition total_failures (E : Env) (fuel : nat) (regions : list string) : nat :=
  sum_list_with (region_failures E fuel) regions.

(** The counters of a module as its caller builds it: Go's zero value. *)
Definition zero_counter : console.CommandCounter := console.mkCounter 0 0 0 0 0.

(** The run is over. *)
Definition finished (s : state) : Prop := main s = MEnd.

(** The receiver has taken the stop signal (line 86 has returned). *)
Definition stopped (s : state) : Prop :=
  main s = MRecvAck \/ main s = MOutput \/ main s = MEnd.

(** The counters after the loop of a source: [Error] once more for a
    failure, nothing else. *)
Definition after_failures (n : nat) (c : console.CommandCounter) : console.CommandCounter :=
  match n with
  | O => c
  | S _ => set FError (incr (console.Error c)) c
  end.


(** ** Concrete inputs

    The scenario of the spec's section 8: two regions; in ["us-east-1"] the
    first source returns one page of two records and the second fails on its
    first call; in ["us-west-2"] each source returns one page of one record. *)
Definition scenario_env : Env :=
  mkEnv
    (fun r tok =>
       if String.eqb r "us-east-1"
       then Page [mkEntry (Some "prod/db"%string) (Some "database password"%string);
                  mkEntry (Some "prod/api"%string) None] None
       else Page [mkEntry (Some "west/key"%string) None] None)
    (fun r tok =>
       if String.eqb r "us-east-1"
       then Failure "AccessDeniedException"
       else Page [mkEntry (Some "/west/param"%string) (Some "a parameter"%string)] None)
    (fun s => s) (fun s => s)
    (fun l => String.concat "/" l)
    (fun _ => None) (fun _ _ => None).

(** A source of three pages, chained by the tokens ["t1"] and ["t2"]; the
    other source has one empty page. *)
Definition paged_env : Env :=
  mkEnv
    (fun r tok =>
       match tok with
       | None => Page [mkEntry (Some "s1"%string) None; mkEntry (Some "s2"%string) None] (Some "t1"%string)
       | Some t =>
           if String.eqb t "t1"
           then Page [mkEntry (Some "s3"%string) (Some "third"%string)] (Some "t2"%string)
           else Page [mkEntry None None] None
       end)
    (fun r tok => Page [] None)
    (fun s => s) (fun s => s)
    (fun l => String.concat "/" l)
    (fun _ => None) (fun _ _ => None).

Definition scenario_args : Args := mkArgs "all" "out" 1.

Definition scenario_module (regions : list string) : SecretsModule :=
  mkModule (sts.mkCaller (Some "123456789012"%string) (Some "AIDAEXAMPLE"%string))
    regions EmptyString [] zero_counter
    (utils.mkOutput 0 EmptyString EmptyString [] [] EmptyString).

(** ** What a worker still has to do

    The chains a worker has not finished, as (source, token to start from),
    and the items of the page it is sending. *)
Definition later (k : kind) : list (kind * option string) :=
  match k with
  | SecretsManager => [(SSM, None)]
  | SSM => []
  end.

Definition chains (p : wpc) : list (kind * option string) :=
  match p with
  | WUpdate (STotal | SPending | SExecutingInc) _ => [(SecretsManager, None); (SSM, None)]
  | WCall k tok => (k, tok) :: later k
  | WSend k _ _ (Some t) => (k, Some t) :: later k
  | WSend k _ _ None | WLog k _ | WUpdate (SError k) _ => later k
  | WUpdate (SExecutingDec | SComplete) _ | WDone | WExit => []
  end.

Definition page_left (r : string) (p : wpc) : list Secret :=
  match p with
  | WSend k e rest _ => item k r e :: map (item k r) rest
  | _ => []
  end.

(** The items a worker has still to send. *)
Definition remaining (E : Env) (F : nat) (w : worker) : list Secret :=
  page_left (region w) (pc w)
  ++ concat (map (fun c => source_items E F c.1 (region w) c.2) (chains (pc w))).

(** Every chain ahead of a worker is finite. *)
Definition on_track (E : Env) (F : nat) (w : worker) : bool :=
  forallb (fun c => source_finite E F c.1 (region w) c.2) (chains (pc w)).

(** The [Error++] a worker has still to store. *)
Definition failures_left (E : Env) (F : nat) (w : worker) : nat :=
  (match pc w with WLog _ _ | WUpdate (SError _) _ => 1 | _ => 0 end
   + sum_list_with (fun c => source_failures E F c.1 (region w) c.2) (chains (pc w)))%nat.

(** The steps the system has still to take for a worker: its own, and one
    append of the receiver for every item. *)
Definition update_cost (loaded : option Z) : nat :=
  match loaded with None => 2 | Some _ => 1 end.

Definition own_cost (p : wpc) : nat :=
  match p with
  | WUpdate STotal l => update_cost l + 9
  | WUpdate SPending l => update_cost l + 7
  | WUpdate SExecutingInc l => update_cost l + 5
  | WCall _ _ => 5
  | WLog _ _ => 8
  | WUpdate (SError _) l => update_cost l + 5
  | WSend _ _ rest _ => 2 * S (length rest) + 5
  | WUpdate SExecutingDec l => update_cost l + 3
  | WUpdate SComplete l => update_cost l + 1
  | WDone => 1
  | WExit => 0
  end.

Definition cost (E : Env) (F : nat) (w : worker) : nat :=
  (own_cost (pc w)
   + sum_list_with (fun c => source_steps E F c.1 (region w) c.2) (chains (pc w)))%nat.

Definition exited (w : worker) : bool :=
  match pc w with WExit => true | _ => false end.

Definition live (w : worker) : nat := if exited w then 0 else 1.

(** ** Where the run stands *)

(** The regions whose worker is not started yet. *)
Definition to_launch (p : mpc) (m : SecretsModule) : list string :=
  match p with
  | MStart => AWSRegions m
  | MAdd r rest | MPending _ r rest | MGo r rest => r :: rest
  | _ => []
  end.

(** [wg.Add(1)] done for a worker that is not started yet. *)
Definition added (p : mpc) : nat :=
  match p with MPending _ _ _ | MGo _ _ => 1 | _ => 0 end.

(** [wg.Wait()] has returned. *)
Definition joined (p : mpc) : bool :=
  match p with
  | MSpinStop | MSpinAck | MRecvStop | MRecvAck | MOutput | MEnd => true
  | _ => false
  end.

(** The item the receiver holds. *)
Definition held (r : rstate) : list Secret :=
  match r with RAppend x => [x] | _ => [] end.

Definition receiver_ok (p : mpc) (r : rstate) : Prop :=
  match p with
  | MRecvAck => r = RAck
  | MOutput | MEnd => r = RClosed
  | _ => r = RSelect \/ exists x, r = RAppend x
  end.

Definition spinner_ok (p : mpc) (r : sstate) : Prop :=
  match p with
  | MSpinAck => r = SAck
  | MRecvStop | MRecvAck | MOutput | MEnd => r = SClosed
  | _ => r = SSpin
  end.

(** The invariant of every run from [init m0], for sources that are finite
    within [F] calls. *)
Record Inv (E : Env) (F : nat) (m0 : SecretsModule) (s : state) : Prop := mkInv {
  inv_regions : map region (workers s) ++ to_launch (main s) (M s) = AWSRegions m0;
  inv_wg : wg s = (sum_list_with live (workers s) + added (main s))%nat;
  inv_joined : joined (main s) = true -> sum_list_with live (workers s) = O;
  inv_receiver : receiver_ok (main s) (receiver s);
  inv_spinner : spinner_ok (main s) (spinner s);
  inv_track : forallb (on_track E F) (workers s) = true;
  inv_finite : all_finite E F (to_launch (main s) (M s)) = true;
  inv_items :
    Secrets (M s) ++ held (receiver s) ++ concat (map (remaining E F) (workers s))
    ++ all_items E F (to_launch (main s) (M s))
    ≡ₚ Secrets m0 ++ all_items E F (AWSRegions m0) }.

(** The steps left in the run. *)
Definition main_cost (p : mpc) : nat :=
  match p with
  | MStart => 7
  | MAdd _ _ | MPending _ _ _ | MGo _ _ | MWait => 6
  | MSpinStop => 5
  | MSpinAck => 4
  | MRecvStop => 3
  | MRecvAck => 2
  | MOutput => 1
  | MEnd => 0
  end.

Definition launch_cost (p : mpc) : nat :=
  match p with
  | MAdd _ _ => 4
  | MPending None _ _ => 3
  | MPending (Some _) _ _ => 2
  | MGo _ _ => 1
  | _ => 0
  end.

Definition region_cost (E : Env) (F : nat) (r : string) : nat :=
  (4 + cost E F (executeChecks r))%nat.

Definition measure (E : Env) (F : nat) (s : state) : nat :=
  (main_cost (main s) + launch_cost (main s)
   + sum_list_with (region_cost E F) (match main s with
                                       | MStart => AWSRegions (M s)
                                       | MAdd _ rest | MPending _ _ rest | MGo _ rest => rest
                                       | _ => []
                                       end)
   + match main s with
     | MAdd r _ | MPending _ r _ | MGo r _ => cost E F (executeChecks r)
     | _ => 0
     end
   + sum_list_with (cost E F) (workers s)
   + length (held (receiver s)))%nat.

(** ** The error tally *)

(** The [Error++] of failed calls stored so far. *)
Definition failures_done (E : Env) (F : nat) (m0 : SecretsModule) (s : state) : nat :=
  (total_failures E F (AWSRegions m0)
   - (sum_list_with (failures_left E F) (workers s)
      + total_failures E F (to_launch (main s) (M s))))%nat.

(** The value of [Error] a worker has loaded and not yet stored. *)
Definition loaded_error (w : worker) : option Z :=
  match pc w with
  | WUpdate (SError _) (Some v) => Some v
  | _ => None
  end.

(** What holds of [Error] in every run, however the updates interleave: it
    never exceeds the number of stored increments, and it is positive once
    one is stored. *)
Record EInv (E : Env) (F : nat) (m0 : SecretsModule) (s : state) : Prop := mkEInv {
  e_left : (sum_list_with (failures_left E F) (workers s)
            + total_failures E F (to_launch (main s) (M s))
            <= total_failures E F (AWSRegions m0))%nat;
  e_low : 0 <= console.Error (CommandCounter (M s));
  e_high : main s <> MEnd ->
           console.Error (CommandCounter (M s)) <= Z.of_nat (failures_done E F m0 s);
  e_one : (1 <= failures_done E F m0 s)%nat -> 1 <= console.Error (CommandCounter (M s));
  e_loaded : forall i w v,
      workers s !! i = Some w -> loaded_error w = Some v ->
      0 <= v <= Z.of_nat (failures_done E F m0 s) }.

(** ** The progress counters, when no counter statement is interrupted *)

(** What a worker contributes to each counter, by where it stands. *)
Definition total_of (w : worker) : nat :=
  match pc w with WUpdate STotal _ => 0 | _ => 1 end.

Definition pending_of (w : worker) : nat :=
  match pc w with WUpdate (STotal | SPending) _ => 1 | _ => 0 end.

Definition executing_of (w : worker) : nat :=
  match pc w with
  | WCall _ _ | WLog _ _ | WSend _ _ _ _ | WUpdate (SError _) _ | WUpdate SExecutingDec _ => 1
  | _ => 0
  end.

Definition complete_of (w : worker) : nat :=
  match pc w with WDone | WExit => 1 | _ => 0 end.

(** A worker between [Pending--] and [Executing++], or between
    [Executing--] and [Complete++]: counted by no counter. *)
Definition in_transit (w : worker) : nat :=
  match pc w with WUpdate (SExecutingInc | SComplete) _ => 1 | _ => 0 end.

(** [Pending++] done for a worker that is not started yet. *)
Definition going (p : mpc) : nat :=
  match p with MGo _ _ => 1 | _ => 0 end.

(** The partitions scheduled so far: those whose [Pending++] is done. *)
Definition scheduled (s : state) : nat := (length (workers s) + going (main s))%nat.

(** No goroutine is between the load and the store of a counter. *)
Definition quiet (s : state) : Prop :=
  (forall v r rest, main s <> MPending (Some v) r rest)
  /\ forall i w, workers s !! i = Some w -> forall u v, pc w <> WUpdate u (Some v).

Record CInv (s : state) : Prop := mkCInv {
  c_quiet : quiet s;
  c_total : console.Total (CommandCounter (M s)) = Z.of_nat (sum_list_with total_of (workers s));
  c_pending : console.Pending (CommandCounter (M s))
              = Z.of_nat (sum_list_with pending_of (workers s) + going (main s));
  c_executing : console.Executing (CommandCounter (M s))
                = Z.of_nat (sum_list_with executing_of (workers s));
  c_complete : console.Complete (CommandCounter (M s))
               = Z.of_nat (sum_list_with complete_of (workers s)) }.

(** The shape of every run from [init m0], whatever the sources return. *)
Record Shape (m0 : SecretsModule) (s : state) : Prop := mkShape {
  sh_start : main s = MStart -> s = init m0;
  sh_regions : map region (workers s) ++ to_launch (main s) (M s) = AWSRegions m0;
  sh_wg : wg s = (sum_list_with live (workers s) + added (main s))%nat;
  sh_joined : joined (main s) = true -> sum_list_with live (workers s) = O;
  sh_receiver : receiver_ok (main s) (receiver s);
  sh_spinner : spinner_ok (main s) (spinner s) }.

(** ** The sequential data of the run *)

(** The profile [PrintSecrets] works with (lines 54-56). *)
Definition profile_of (m : SecretsModule) : string :=
  if String.eqb (AWSProfile m) EmptyString
  then aws.ToString (sts.Account (Caller m)) +:+ "-" +:+ aws.ToString (sts.UserId (Caller m))
  else AWSProfile m.

(** Between the prologue and the epilogue nothing touches the profile and
    the output fields; the last step is the epilogue. *)
Record SInv (E : Env) (a : Args) (m0 : SecretsModule) (s : state) : Prop := mkSInv {
  s_start : main s = MStart -> M s = m0;
  s_profile : main s <> MStart -> AWSProfile (M s) = profile_of m0;
  s_output : main s <> MStart -> main s <> MEnd ->
             output (M s) = output (prologue E a m0).2;
  s_end : main s = MEnd ->
          exists m pre,
            AWSProfile m = profile_of m0
            /\ output m = output (prologue E a m0).2
            /\ Secrets m = Secrets (M s)
            /\ M s = (epilogue E a m).2
            /\ events s = pre ++ (epilogue E a m).1 }.

(** ** The raw records, tagged with their source and region *)

Definition region_records (E : Env) (F : nat) (r : string) : list (kind * string * entry) :=
  map (fun e => (SecretsManager, r, e)) (source_records E F SecretsManager r None)
  ++ map (fun e => (SSM, r, e)) (source_records E F SSM r None).

Definition all_records (E : Env) (F : nat) (regions : list string)
  : list (kind * string * entry) :=
  concat (map (region_records E F) regions).

(** The item built from a tagged record. *)
Definition item_of (x : kind * string * entry) : Secret := item x.1.1 x.1.2 x.2.

(** ** Schedules for concrete runs *)

Definition can_step (E : Env) (a : Args) (s : state) (t : tid) : bool :=
  match step E a t s with Some _ => true | None => false end.

(** The first goroutine that can take a step: the receiver, then the workers
    in the order they were started, then main. *)
Definition first_enabled (E : Env) (a : Args) (s : state) : option tid :=
  List.find (can_step E a s)
    (TReceiver :: map TWorker (seq 0 (length (workers s))) ++ [TMain]).

(** The schedule that always runs the first goroutine that can step. *)
Fixpoint eager (E : Env) (a : Args) (fuel : nat) (s : state) : list tid :=
  match fuel with
  | O => []
  | S f =>
      match first_enabled E a s with
      | Some t =>
          match step E a t s with
          | Some s' => t :: eager E a f s'
          | None => []
          end
      | None => []
      end
  end.

Definition two_regions : list string := ["us-east-1"; "us-west-2"]%string.

(** A schedule of the scenario in which the two workers run one after the
    other up to [Complete++], then both load [Complete] before either
    stores it. *)
Definition racing_schedule : list tid :=
  repeat TMain 9
  ++ repeat (TWorker 0) 7 ++ [TWorker 0; TReceiver; TWorker 0; TReceiver]
  ++ repeat (TWorker 0) 6
  ++ repeat (TWorker 1) 7 ++ [TWorker 1; TReceiver]
  ++ [TWorker 1; TWorker 1; TReceiver] ++ repeat (TWorker 1) 2
  ++ [TWorker 0; TWorker 1; TWorker 0; TWorker 1; TWorker 0; TWorker 1]
  ++ repeat TMain 6.

(** Two concrete runs: the paged sources up to the moment the receiver has
    taken the stop signal, and the scenario to its end. *)
Definition paged_schedule : list tid :=
  Eval vm_compute in eager paged_env scenario_args 59 (init (scenario_module two_regions)).

Definition paged_stopped : state :=
  Eval vm_compute in
    match run paged_env scenario_args paged_schedule (init (scenario_module two_regions)) with
    | Some s => s
    | None => init (scenario_module two_regions)
    end.

Definition scenario_schedule : list tid :=
  Eval vm_compute in eager scenario_env scenario_args 52 (init (scenario_module two_regions)).

Definition scenario_final : state :=
  Eval vm_compute in
    match run scenario_env scenario_args scenario_schedule (init (scenario_module two_regions)) with
    | Some s => s
    | None => init (scenario_module two_regions)
    end.

(** The same schedule for runs whose counter statements are not
    interrupted. *)
Fixpoint atomic_eager (E : Env) (a : Args) (fuel : nat) (s : state) : list tid :=
  match fuel with
  | O => []
  | S f =>
      match first_enabled E a s with
      | Some t =>
          match atomic_step E a t s with
          | Some s' => t :: atomic_eager E a f s'
          | None => []
          end
      | None => []
      end
  end.

Definition scenario_atomic_schedule : list tid :=
  Eval vm_compute in
    atomic_eager scenario_env scenario_args 52 (init (scenario_module two_regions)).

Definition scenario_atomic_final : state :=
  Eval vm_compute in
    match atomic_run scenario_env scenario_args scenario_atomic_schedule
            (init (scenario_module two_regions)) with
    | Some s => s
    | None => init (scenario_module two_regions)
    end.

(** The first worker started and between its [Pending--] and its
    [Executing++]. *)
Definition transit_schedule : list tid :=
  [TMain; TMain; TMain; TMain; TWorker 0; TWorker 0].

Definition transit_state : state :=
  Eval vm_compute in
    match atomic_run scenario_env scenario_args transit_schedule
            (init (scenario_module two_regions)) with
    | Some s => s
    | None => init (scenario_module two_regions)
    end.

(** ** The order of arrival, region by region *)

(** The items of region [r] in a list, in the order of the list. *)
Definition of_region (r : string) (l : list Secret) : list Secret :=
  filter (fun x => Region x = r) l.

(** What the receiver has taken so far: appended, or held. *)
Definition received (s : state) : list Secret := Secrets (M s) ++ held (receiver s).

(** Each worker's items arrive in the order it sends them: what the receiver
    has of a worker's region, followed by what the worker has still to send,
    is the sequence of the items of the region; nothing of a region has
    arrived before its worker is started. *)
Record OInv (E : Env) (F : nat) (s : state) : Prop := mkOInv {
  o_workers : forall i w,
      workers s !! i = Some w ->
      of_region (region w) (received s) ++ remaining E F w = region_items E F (region w);
  o_launch : forall r,
      r ∈ to_launch (main s) (M s) -> of_region r (received s) = [] }.

(** ** The log and the errors of the sources *)

(** The messages handed to [m.modLog.Error], in order. *)
Definition logs_of (es : list event) : list string :=
  omap (fun e => match e with ELog msg => Some msg | _ => None end) es.

(** The error of the chain of a source: that of its failed call, if one
    fails. *)
Fixpoint source_errors (E : Env) (fuel : nat) (k : kind) (r : string) (tok : option string)
  : list string :=
  match fuel with
  | O => []
  | S f =>
      match fetchPage E k r tok with
      | Failure err => [err]
      | Page _ None => []
      | Page _ (Some t) => source_errors E f k r (Some t)
      end
  end.

Definition region_errors (E : Env) (fuel : nat) (r : string) : list string :=
  source_errors E fuel SecretsManager r None ++ source_errors E fuel SSM r None.

Definition all_errors (E : Env) (fuel : nat) (regions : list string) : list string :=
  concat (map (region_errors E fuel) regions).

(** The errors a worker has still to log. *)
Definition errors_left (E : Env) (F : nat) (w : worker) : list string :=
  match pc w with WLog _ err => [err] | _ => [] end
  ++ concat (map (fun c => source_errors E F c.1 (region w) c.2) (chains (pc w))).

(** The two paths of [writeLoot] (lines 150 and 156) and the errors of its
    two file-system calls. *)
Definition loot_path (E : Env) (outputDirectory : string) (m : SecretsModule) : string :=
  Join E [outputDirectory; "cloudfox-output"; "aws"; AWSProfile m; "loot"]%string.

Definition pullFile (E : Env) (outputDirectory : string) (m : SecretsModule) : string :=
  Join E [loot_path E outputDirectory m; "pull-secrets-commands.txt"]%string.

Definition writeLoot_errors (E : Env) (outputDirectory : string) (m : SecretsModule)
  : list string :=
  option_list (MkdirAll E (loot_path E outputDirectory m))
  ++ option_list (WriteFile E (pullFile E outputDirectory m) (loot_out (Secrets m))).

(** Until the epilogue the run prints the two lines of the prologue and
    nothing else, and logs. *)
Definition events_ok (E : Env) (a : Args) (m0 : SecretsModule) (s : state) : Prop :=
  main s <> MStart -> main s <> MEnd ->
  events s = (prologue E a m0).1 ++ map ELog (logs_of (events s)).

(** Every error of a source is logged once: what is logged, with what the
    workers have still to log, is the errors of all the sources. *)
Definition logs_ok (E : Env) (F : nat) (m0 : SecretsModule) (s : state) : Prop :=
  main s <> MEnd ->
  logs_of (events s) ++ concat (map (errors_left E F) (workers s))
  ++ all_errors E F (to_launch (main s) (M s))
  ≡ₚ all_errors E F (AWSRegions m0).

(** ** The count of errors, when no counter statement is interrupted *)

(** A worker that has logged an error and not yet stored its [Error++]. *)
Definition error_due (w : worker) : nat :=
  match pc w with WUpdate (SError _) _ => 1 | _ => 0 end.

(** [Error] counts the messages logged, less those whose [Error++] is still
    to come, on top of what it was when [PrintSecrets] was entered. *)
Record AInv (m0 : SecretsModule) (s : state) : Prop := mkAInv {
  a_low : console.Error (CommandCounter m0) <= console.Error (CommandCounter (M s));
  a_count : console.Error (CommandCounter (M s))
            + Z.of_nat (sum_list_with error_due (workers s))
            = console.Error (CommandCounter m0)
              + Z.of_nat (length (logs_of (events s))) }.

(** ** More concrete inputs

    The scenario on a file system that refuses both calls of [writeLoot],
    run with the loot printed ([verbosity] 3). *)
Definition readonly_env : Env :=
  mkEnv (ListSecrets scenario_env) (DescribeParameters scenario_env)
    (cyan scenario_env) (green scenario_env) (Join scenario_env)
    (fun _ => Some "mkdir out: permission denied"%string)
    (fun _ _ => Some "open pull-secrets-commands.txt: no such file or directory"%string).

Definition verbose_args : Args := mkArgs "all" "out" 3.

Definition readonly_final : state :=
  Eval vm_compute in
    match run readonly_env verbose_args scenario_schedule (init (scenario_module two_regions)) with
    | Some s => s
    | None => init (scenario_module two_regions)
    end.

Definition readonly_atomic_final : state :=
  Eval vm_compute in
    match atomic_run readonly_env verbose_args scenario_atomic_schedule
            (init (scenario_module two_regions)) with
    | Some s => s
    | None => init (scenario_module two_regions)
    end.

(** [PrintSecrets] called a second time on the module the scenario left. *)
Definition second_schedule : list tid :=
  Eval vm_compute in eager scenario_env scenario_args 60 (init (M scenario_final)).

Definition second_final : state :=
  Eval vm_compute in
    match run scenario_env scenario_args second_schedule (init (M scenario_final)) with
    | Some s => s
    | None => init (M scenario_final)
    end.

(** ** What the run does outside the process *)

(** The events that leave the console and the log: the call of the output
    stage and the two file-system calls. *)
Definition is_io (e : event) : bool :=
  match e with
  | EOutputSelector _ _ _ _ _ _ _ | EMkdirAll _ | EWriteFile _ _ => true
  | EPrint _ | ELog _ => false
  end.

(** ** A source that never ends *)

(** The chain of a source from a token goes on for ever: no number of calls
    ends it. *)
Definition endless (E : Env) (k : kind) (r : string) (tok : option string) : Prop :=
  forall n, source_finite E n k r tok = false.

(** Where a worker of region [r] stands as long as the loop of source [k]
    has not ended: before the loops, in the loop of [k] with an endless chain
    ahead, or, for the second source, still in the loop of the first. *)
Definition held_up (E : Env) (k : kind) (r : string) (p : wpc) : Prop :=
  match p with
  | WUpdate (STotal | SPending | SExecutingInc) _ => True
  | WCall k' tok => (k' = k /\ endless E k r tok) \/ (k' = SecretsManager /\ k = SSM)
  | WSend k' _ _ next =>
      (k' = k /\ exists t, next = Some t /\ endless E k r (Some t))
      \/ (k' = SecretsManager /\ k = SSM)
  | WLog k' _ | WUpdate (SError k') _ => k' = SecretsManager /\ k = SSM
  | WUpdate (SExecutingDec | SComplete) _ | WDone | WExit => False
  end.

(** The scenario with a first source that answers every call with a page
    and a token. *)
Definition looping_env : Env :=
  mkEnv
    (fun r tok => Page [mkEntry (Some "again"%string) None] (Some "more"%string))
    (DescribeParameters scenario_env)
    (cyan scenario_env) (green scenario_env) (Join scenario_env)
    (MkdirAll scenario_env) (WriteFile scenario_env).

Definition looping_schedule : list tid :=
  Eval vm_compute in eager looping_env scenario_args 40 (init (scenario_module two_regions)).

Definition looping_state : state :=
  Eval vm_compute in
    match run looping_env scenario_args looping_schedule (init (scenario_module two_regions)) with
    | Some s => s
    | None => init (scenario_module two_regions)
    end.
(** * Properties *)

(** ** Arithmetic of [int] and of the counters *)

Lemma wrap_id z : int_min <= z <= int_max -> wrap z = z.
Proof.
  unfold wrap, int_min, int_max. intros H.
  rewrite Z.mod_small; lia.
Qed.

Lemma incr_id z : int_min <= z < int_max -> incr z = z + 1.
Proof. intros H. unfold incr. apply wrap_id. lia. Qed.

Lemma decr_id z : int_min < z <= int_max -> decr z = z - 1.
Proof. intros H. unfold decr. apply wrap_id. lia. Qed.

Lemma get_set_ne f g v c : f <> g -> get f (set g v c) = get f c.
Proof. destruct f, g, c; intros H; try reflexivity; congruence. Qed.

Lemma get_set_eq f v c : get f (set f v c) = v.
Proof. destruct f, c; reflexivity. Qed.

(** ** The chain of a source does not depend on spare fuel *)

Section Chains.
Context (E : Env).

Lemma source_finite_eq f k r tok :
  source_finite E (S f) k r tok =
  match fetchPage E k r tok with
  | Failure _ => true
  | Page _ None => true
  | Page _ (Some t) => source_finite E f k r (Some t)
  end.
Proof. reflexivity. Qed.

Lemma source_records_eq f k r tok :
  source_records E (S f) k r tok =
  match fetchPage E k r tok with
  | Failure _ => []
  | Page recs None => recs
  | Page recs (Some t) => recs ++ source_records E f k r (Some t)
  end.
Proof. reflexivity. Qed.

Lemma source_failures_eq f k r tok :
  source_failures E (S f) k r tok =
  match fetchPage E k r tok with
  | Failure _ => 1%nat
  | Page _ None => O
  | Page _ (Some t) => source_failures E f k r (Some t)
  end.
Proof. reflexivity. Qed.

Lemma source_steps_eq f k r tok :
  source_steps E (S f) k r tok =
  match fetchPage E k r tok with
  | Failure _ => 4%nat
  | Page recs None => S (2 * length recs)
  | Page recs (Some t) => (S (2 * length recs) + source_steps E f k r (Some t))%nat
  end.
Proof. reflexivity. Qed.

Lemma source_finite_S f k r tok :
  source_finite E f k r tok = true ->
  source_finite E (S f) k r tok = true
  /\ source_records E (S f) k r tok = source_records E f k r tok
  /\ source_failures E (S f) k r tok = source_failures E f k r tok
  /\ source_steps E (S f) k r tok = source_steps E f k r tok.
Proof.
  revert tok. induction f as [|f IH]; intros tok H; [discriminate|].
  rewrite (source_finite_eq (S f)), (source_records_eq (S f)),
    (source_failures_eq (S f)), (source_steps_eq (S f)).
  rewrite (source_finite_eq f) in H.
  rewrite (source_records_eq f), (source_failures_eq f), (source_steps_eq f).
  destruct (fetchPage E k r tok) as [err|recs [t|]]; auto.
  destruct (IH _ H) as (H1 & H2 & H3 & H4).
  rewrite H1, H2, H3, H4. auto.
Qed.

Lemma source_items_S f k r tok :
  source_finite E f k r tok = true ->
  source_items E (S f) k r tok = source_items E f k r tok.
Proof.
  intros H. unfold source_items.
  destruct (source_finite_S _ _ _ _ H) as (_ & -> & _). reflexivity.
Qed.

(** A page with a [NextToken]: the chain goes on from that token. *)
Lemma source_page F k r tok recs t :
  source_finite E F k r tok = true ->
  fetchPage E k r tok = Page recs (Some t) ->
  source_finite E F k r (Some t) = true
  /\ source_records E F k r tok = recs ++ source_records E F k r (Some t)
  /\ source_failures E F k r tok = source_failures E F k r (Some t)
  /\ source_steps E F k r tok = (S (2 * length recs) + source_steps E F k r (Some t))%nat.
Proof.
  destruct F as [|f]; [discriminate|]. intros H Hf.
  cbn [source_finite] in H. rewrite Hf in H.
  destruct (source_finite_S _ _ _ _ H) as (H1 & H2 & H3 & H4).
  rewrite H1, H2, H3, H4.
  cbn [source_records source_failures source_steps]. rewrite Hf. auto.
Qed.

(** The last page. *)
Lemma source_last F k r tok recs :
  source_finite E F k r tok = true ->
  fetchPage E k r tok = Page recs None ->
  source_records E F k r tok = recs
  /\ source_failures E F k r tok = O
  /\ source_steps E F k r tok = S (2 * length recs).
Proof.
  destruct F as [|f]; [discriminate|]. intros _ Hf.
  cbn [source_records source_failures source_steps]. rewrite Hf. auto.
Qed.

(** A failed call. *)
Lemma source_fail F k r tok err :
  source_finite E F k r tok = true ->
  fetchPage E k r tok = Failure err ->
  source_records E F k r tok = []
  /\ source_failures E F k r tok = 1%nat
  /\ source_steps E F k r tok = 4%nat.
Proof.
  destruct F as [|f]; [discriminate|]. intros _ Hf.
  cbn [source_records source_failures source_steps]. rewrite Hf. auto.
Qed.

Lemma source_failures_le F k r tok : (source_failures E F k r tok <= 1)%nat.
Proof.
  revert tok. induction F as [|f IH]; intros tok; cbn [source_failures]; [lia|].
  destruct (fetchPage E k r tok) as [err|recs [t|]]; auto.
Qed.

(** A chain of exactly [n] pages is finite and has no failure. *)
Lemma ends_after_finite n k r tok :
  ends_after E n k r tok = true ->
  source_finite E n k r tok = true /\ source_failures E n k r tok = O
  /\ length (source_tokens E n k r tok) = n.
Proof.
  revert tok. induction n as [|n IH]; intros tok H; [discriminate|].
  cbn [ends_after] in H.
  cbn [source_finite source_failures source_tokens length].
  destruct (fetchPage E k r tok) as [err|recs [t|]]; [discriminate| |].
  - destruct (IH _ H) as (H1 & H2 & H3). rewrite H3. auto.
  - apply Nat.eqb_eq in H. subst n. auto.
Qed.

End Chains.

(** ** A worker on its own *)

Section Local.
Context (E : Env).

Lemma worker_run_stuck n c w :
  worker_step E c w = None -> worker_run E n c w = ([], c, w).
Proof. intros H. destruct n; cbn [worker_run]; [|rewrite H]; reflexivity. Qed.

Lemma worker_run_trans n1 n2 c w a1 c1 w1 a2 c2 w2 :
  worker_run E n1 c w = (a1, c1, w1) ->
  worker_run E n2 c1 w1 = (a2, c2, w2) ->
  worker_run E (n1 + n2) c w = (a1 ++ a2, c2, w2).
Proof.
  revert c w a1 c1 w1. induction n1 as [|n1 IH]; intros c w a1 c1 w1 H1 H2.
  - cbn in H1. injection H1 as <- <- <-. exact H2.
  - cbn [worker_run Nat.add] in *.
    destruct (worker_step E c w) as [[a w']|] eqn:Hs.
    + destruct (worker_run E n1 (act_counter a c) w') as [[acts c'] w''] eqn:Hr.
      injection H1 as <- <- <-.
      rewrite (IH _ _ _ _ _ Hr H2). reflexivity.
    + injection H1 as <- <- <-.
      rewrite (worker_run_stuck n2 _ _ Hs) in H2. exact H2.
Qed.

(** The range loop over a page sends the item of every record, in order. *)
Lemma run_page k r recs next c :
  worker_run E (length recs) c (mkWorker r (after_page k recs next))
  = (map (fun e => ASend (item k r e)) recs, c, mkWorker r (after_page k [] next)).
Proof.
  induction recs as [|e recs IH]; [reflexivity|].
  cbn [length worker_run after_page worker_step pc region act_counter].
  cbn [after_page] in IH. rewrite IH. reflexivity.
Qed.

(** One call that succeeds, and the sends of its page. *)
Lemma run_call k r tok recs next c :
  fetchPage E k r tok = Page recs next ->
  worker_run E (S (length recs)) c (mkWorker r (WCall k tok))
  = (ACall k r tok :: map (fun e => ASend (item k r e)) recs, c,
     mkWorker r (after_page k [] next)).
Proof.
  intros Hf. cbn [worker_run worker_step pc region]. rewrite Hf.
  cbn [act_counter]. rewrite run_page. reflexivity.
Qed.

(** One call that fails: the error is logged, [Error] is incremented, and
    the loop is left. *)
Lemma run_failure k r tok err c :
  fetchPage E k r tok = Failure err ->
  worker_run E 4 c (mkWorker r (WCall k tok))
  = ([ACall k r tok; ALog err; ALoad FError; AStore FError (incr (console.Error c))],
     set FError (incr (console.Error c)) c,
     mkWorker r (after_loop k)).
Proof.
  intros Hf. cbn [worker_run worker_step pc region]. rewrite Hf. reflexivity.
Qed.

Lemma calls_of_app a b : calls_of (a ++ b) = calls_of a ++ calls_of b.
Proof. apply omap_app. Qed.

Lemma sends_of_app a b : sends_of (a ++ b) = sends_of a ++ sends_of b.
Proof. apply omap_app. Qed.

Lemma stores_of_app f a b : stores_of f (a ++ b) = stores_of f a ++ stores_of f b.
Proof. apply omap_app. Qed.

Lemma calls_of_call k r tok l : calls_of (ACall k r tok :: l) = (k, r, tok) :: calls_of l.
Proof. reflexivity. Qed.

Lemma sends_of_call k r tok l : sends_of (ACall k r tok :: l) = sends_of l.
Proof. reflexivity. Qed.

Lemma sends_of_sends (l : list Secret) : sends_of (map ASend l) = l.
Proof. induction l as [|x l IH]; [reflexivity|]. cbn. unfold sends_of in IH. by rewrite IH. Qed.

Lemma calls_of_sends (l : list Secret) : calls_of (map ASend l) = [].
Proof. induction l as [|x l IH]; [reflexivity|]. exact IH. Qed.

Lemma stores_of_sends f (l : list Secret) : stores_of f (map ASend l) = [].
Proof. induction l as [|x l IH]; [reflexivity|]. exact IH. Qed.

(** The pagination loop of a finite source, run to its end. *)
Lemma run_loop F k r tok c :
  source_finite E F k r tok = true ->
  exists n acts,
    worker_run E n c (mkWorker r (WCall k tok))
    = (acts, after_failures (source_failures E F k r tok) c, mkWorker r (after_loop k))
    /\ sends_of acts = source_items E F k r tok
    /\ calls_of acts = map (fun t => (k, r, t)) (source_tokens E F k r tok)
    /\ stores_of FComplete acts = [].
Proof.
  revert tok. induction F as [|f IH]; intros tok H; [discriminate|].
  unfold source_items. rewrite source_records_eq, source_failures_eq.
  rewrite source_finite_eq in H. cbn [source_tokens].
  destruct (fetchPage E k r tok) as [err|recs [t|]] eqn:Hf.
  - exists 4%nat. eexists. split; [apply (run_failure _ _ _ _ _ Hf)|]. done.
  - destruct (IH _ H) as (n & acts & Hr & Hs & Hc & Hst).
    exists (S (length recs) + n)%nat. eexists. split.
    + eapply worker_run_trans; [apply (run_call _ _ _ _ _ _ Hf)|exact Hr].
    + cbn [app sends_of calls_of stores_of omap list_omap].
      fold (sends_of (map (fun e => ASend (item k r e)) recs ++ acts)).
      fold (calls_of (map (fun e => ASend (item k r e)) recs ++ acts)).
      fold (stores_of FComplete (map (fun e => ASend (item k r e)) recs ++ acts)).
      rewrite sends_of_app, calls_of_app, stores_of_app, Hs, Hc, Hst.
      rewrite <- (map_map (item k r) ASend), sends_of_sends, calls_of_sends, stores_of_sends.
      unfold source_items. rewrite map_app. done.
  - exists (S (length recs) + 0)%nat. eexists. split.
    + eapply worker_run_trans; [apply (run_call _ _ _ _ _ _ Hf)|reflexivity].
    + cbn [app sends_of calls_of stores_of omap list_omap].
      fold (sends_of (map (fun e => ASend (item k r e)) recs ++ [])).
      fold (calls_of (map (fun e => ASend (item k r e)) recs ++ [])).
      fold (stores_of FComplete (map (fun e => ASend (item k r e)) recs ++ [])).
      rewrite !app_nil_r.
      rewrite <- (map_map (item k r) ASend), sends_of_sends, calls_of_sends, stores_of_sends.
      done.
Qed.

End Local.

(** ** Items and pagination, for one worker *)

Section Pagination.
Context (E : Env).

(** Each call after the first carries the [NextToken] of the page before. *)
Lemma source_tokens_threaded n k r tok i next :
  source_tokens E n k r tok !! S i = Some next ->
  exists prev recs,
    source_tokens E n k r tok !! i = Some prev /\ fetchPage E k r prev = Page recs next.
Proof.
  revert tok i. induction n as [|n IH]; intros tok i H; [discriminate|].
  cbn [source_tokens] in *.
  destruct (fetchPage E k r tok) as [err|recs [t|]] eqn:Hf; try discriminate.
  destruct i as [|i].
  - destruct n as [|n]; [discriminate|]. cbn in H. injection H as <-.
    exists tok, recs. split; [reflexivity|exact Hf].
  - cbn in H. destruct (IH _ _ H) as (prev & recs' & H1 & H2).
    exists prev, recs'. split; [exact H1|exact H2].
Qed.

Lemma source_tokens_first n k r tok :
  n <> O -> source_tokens E n k r tok !! O = Some tok.
Proof. destruct n; [congruence|reflexivity]. Qed.

(** C7.  For every record of a page that a listing call returns, the worker
    builds one item: its service is the name of the source ("SecretsManager"
    or "SSM"), its region the worker's region, its name the record's name,
    its description the record's description, or the empty string when the
    record has none; and it sends that item to the receiver, record after
    record, before anything else. *)
Theorem item_per_record k r tok recs next c :
  fetchPage E k r tok = Page recs next ->
  worker_run E (S (length recs)) c (mkWorker r (WCall k tok))
  = (ACall k r tok
     :: map (fun e =>
               ASend {| AWSService := match k with
                                      | SecretsManager => "SecretsManager"
                                      | SSM => "SSM"
                                      end;
                        Region := r;
                        Name := match eName e with Some n => n | None => EmptyString end;
                        Description := match eDescription e with
                                       | Some d => d
                                       | None => EmptyString
                                       end |}) recs,
     c,
     mkWorker r (after_page k [] next)).
Proof.
  intros Hf. rewrite (run_call E _ _ _ _ _ c Hf). do 2 f_equal.
Qed.

(** The loop of a source of exactly [n] pages, run for its [n] calls and
    the sends of their records. *)
Lemma run_pages n k r tok c :
  ends_after E n k r tok = true ->
  exists acts,
    worker_run E (n + length (source_records E n k r tok)) c (mkWorker r (WCall k tok))
    = (acts, c, mkWorker r (after_loop k))
    /\ calls_of acts = map (fun t => (k, r, t)) (source_tokens E n k r tok)
    /\ sends_of acts = map (item k r) (source_records E n k r tok).
Proof.
  revert tok. induction n as [|n IH]; intros tok H; [discriminate|].
  cbn [ends_after] in H. rewrite source_records_eq. cbn [source_tokens].
  destruct (fetchPage E k r tok) as [err|recs [t|]] eqn:Hf; [discriminate| |].
  - destruct (IH _ H) as (acts & Hr & Hc & Hs).
    eexists. split.
    + replace (S n + length (recs ++ source_records E n k r (Some t)))%nat
        with (S (length recs) + (n + length (source_records E n k r (Some t))))%nat
        by (rewrite length_app; lia).
      eapply worker_run_trans; [apply (run_call E _ _ _ _ _ c Hf)|exact Hr].
    + rewrite sends_of_app, calls_of_app, Hs, Hc, calls_of_call, sends_of_call.
      rewrite <- (map_map (item k r) ASend), sends_of_sends, calls_of_sends.
      rewrite map_app. done.
  - apply Nat.eqb_eq in H. subst n.
    eexists. split.
    + replace (1 + length recs)%nat with (S (length recs) + 0)%nat by lia.
      eapply worker_run_trans; [apply (run_call E _ _ _ _ _ c Hf)|reflexivity].
    + rewrite !app_nil_r, calls_of_call, sends_of_call.
      rewrite <- (map_map (item k r) ASend), sends_of_sends, calls_of_sends.
      done.
Qed.

(** C6.  A source whose pages end after exactly [n] successful calls: the
    loop is over after [n] calls and the sends of their records, the [n]
    calls are those of this source and region, the first carries no token and
    every later one the [NextToken] returned by the call before it. *)
Theorem pagination_terminates n k r c :
  ends_after E n k r None = true ->
  exists acts toks,
    worker_run E (n + length (source_records E n k r None)) c (mkWorker r (WCall k None))
    = (acts, c, mkWorker r (after_loop k))
    /\ calls_of acts = map (fun t => (k, r, t)) toks
    /\ length toks = n
    /\ toks !! O = Some None
    /\ (forall i next, toks !! S i = Some next ->
          exists prev recs, toks !! i = Some prev /\ fetchPage E k r prev = Page recs next)
    /\ sends_of acts = map (item k r) (source_records E n k r None).
Proof.
  intros H.
  destruct (run_pages _ _ _ _ c H) as (acts & Hr & Hc & Hs).
  destruct (ends_after_finite E _ _ _ _ H) as (_ & _ & Hlen).
  exists acts, (source_tokens E n k r None).
  split; [exact Hr|]. split; [exact Hc|]. split; [exact Hlen|].
  split; [apply source_tokens_first; intros ->; discriminate|].
  split; [|exact Hs].
  intros i next Hi. eapply source_tokens_threaded. exact Hi.
Qed.

End Pagination.

(** ** One step of a worker, and what it leaves to do *)

Section WorkerSteps.
Context (E : Env) (F : nat).

Lemma chains_after_loop k : chains (after_loop k) = later k.
Proof. destruct k; reflexivity. Qed.

Lemma chains_after_page k recs next :
  chains (after_page k recs next)
  = match next with Some t => (k, Some t) :: later k | None => later k end.
Proof. destruct recs, next, k; reflexivity. Qed.

Lemma page_left_after_page k r recs next :
  page_left r (after_page k recs next) = map (item k r) recs.
Proof. destruct recs, next, k; reflexivity. Qed.

Lemma own_cost_after_page k recs next :
  own_cost (after_page k recs next) = (2 * length recs + 5)%nat.
Proof. destruct recs, next, k; cbn; lia. Qed.

Lemma failing_after_page k recs next :
  match after_page k recs next with WLog _ _ | WUpdate (SError _) _ => 1%nat | _ => O end = O.
Proof. destruct recs, next, k; reflexivity. Qed.

Lemma exited_after_page k recs next r : live (mkWorker r (after_page k recs next)) = 1%nat.
Proof. destruct recs, next, k; reflexivity. Qed.

(** What a step of a worker changes, for a worker whose chains are finite. *)
Lemma worker_step_facts c w a w' :
  worker_step E c w = Some (a, w') ->
  on_track E F w = true ->
  region w' = region w
  /\ on_track E F w' = true
  /\ remaining E F w = match a with ASend x => [x] | _ => [] end ++ remaining E F w'
  /\ cost E F w = (match a with ASend _ => 2 | _ => 1 end + cost E F w')%nat
  /\ failures_left E F w
     = (match a with AStore FError _ => 1 | _ => 0 end + failures_left E F w')%nat
  /\ live w = 1%nat
  /\ live w' = match a with AWgDone => O | _ => 1%nat end.
Proof.
  destruct w as [r p]. unfold worker_step, on_track, remaining, cost, failures_left.
  cbn [region pc].
  destruct p as [u [v|]|k tok|k err|k e rest next| |]; intros H Ht; simplify_eq.
  - (* store *)
    destruct u as [| | |k| |]; try destruct k; cbn in *; auto 10.
  - (* load *)
    destruct u as [| | |k| |]; try destruct k; cbn in *; auto 10.
  - (* call *)
    cbn [chains forallb fst snd map concat sum_list_with] in *.
    apply andb_true_iff in Ht as [Hfin Hl].
    destruct (fetchPage E k r tok) as [err|recs next] eqn:Hf; simplify_eq; cbn [region pc].
    + destruct (source_fail E _ _ _ _ _ Hfin Hf) as (Hr & Hn & Hs).
      unfold source_items. rewrite Hr, Hn, Hs. cbn [chains map app own_cost live exited pc].
      repeat split; auto; lia.
    + rewrite chains_after_page, page_left_after_page, own_cost_after_page,
        failing_after_page, exited_after_page.
      destruct next as [t|].
      * destruct (source_page E _ _ _ _ _ _ Hfin Hf) as (Hfin' & Hr & Hn & Hs).
        unfold source_items. rewrite Hr, Hn, Hs, map_app.
        cbn [chains forallb fst snd map concat sum_list_with app own_cost live exited pc].
        rewrite Hfin', Hl, <- !app_assoc. repeat split; auto; lia.
      * destruct (source_last E _ _ _ _ _ Hfin Hf) as (Hr & Hn & Hs).
        unfold source_items. rewrite Hr, Hn, Hs.
        cbn [app own_cost live exited pc].
        rewrite Hl. repeat split; auto; lia.
  - (* log *)
    cbn in *. repeat split; auto.
  - (* send *)
    cbn [region pc].
    rewrite chains_after_page, page_left_after_page, own_cost_after_page,
      failing_after_page, exited_after_page.
    destruct next as [t|]; cbn in *; repeat split; auto; lia.
  - (* wg.Done() *)
    cbn. auto 10.
Qed.

End WorkerSteps.

(** ** Lists of workers updated in place *)

Section Lists.
Context {A B : Type}.

Lemma insert_middle (l : list A) i x y :
  l !! i = Some x ->
  l = take i l ++ x :: drop (S i) l /\ <[i:=y]> l = take i l ++ y :: drop (S i) l.
Proof.
  intros H. split.
  - symmetry. apply take_drop_middle. exact H.
  - apply insert_take_drop. eapply lookup_lt_Some. exact H.
Qed.

Lemma map_insert_same (f : A -> B) (l : list A) i x y :
  l !! i = Some x -> f y = f x -> map f (<[i:=y]> l) = map f l.
Proof.
  intros H Hf. destruct (insert_middle l i x y H) as [H1 H2].
  rewrite H2. clear H2. revert H1.
  generalize (take i l) (drop (S i) l). intros p q ->.
  rewrite !map_app. cbn. by rewrite Hf.
Qed.

Lemma sum_insert (f : A -> nat) (l : list A) i x y :
  l !! i = Some x ->
  (sum_list_with f (<[i:=y]> l) + f x = sum_list_with f l + f y)%nat.
Proof.
  intros H. destruct (insert_middle l i x y H) as [H1 H2].
  rewrite H2. clear H2. revert H1.
  generalize (take i l) (drop (S i) l). intros p q ->.
  rewrite !sum_list_with_app. cbn. lia.
Qed.

Lemma sum_lookup_le (f : A -> nat) (l : list A) i x :
  l !! i = Some x -> (f x <= sum_list_with f l)%nat.
Proof.
  intros H. destruct (insert_middle l i x x H) as [H1 _].
  revert H1. generalize (take i l) (drop (S i) l). intros p q ->.
  rewrite sum_list_with_app. cbn. lia.
Qed.

Lemma concat_insert (f : A -> list B) (l : list A) i x y pre :
  l !! i = Some x ->
  f x = pre ++ f y ->
  concat (map f l) ≡ₚ pre ++ concat (map f (<[i:=y]> l)).
Proof.
  intros H Hf. destruct (insert_middle l i x y H) as [H1 H2].
  rewrite H2. clear H2. revert H1.
  generalize (take i l) (drop (S i) l). intros p q ->.
  rewrite !map_app, !concat_app. cbn.
  rewrite Hf, <- !app_assoc. apply Permutation_app_swap_app.
Qed.

Lemma forallb_insert (g : A -> bool) (l : list A) i y :
  forallb g l = true -> g y = true -> forallb g (<[i:=y]> l) = true.
Proof.
  rewrite !forallb_forall. intros H Hy z Hz.
  apply list_elem_of_In in Hz. apply list_elem_of_lookup in Hz as [j Hj].
  destruct (decide (i = j)) as [->|Hne].
  - destruct (decide (j < length l)%nat) as [Hlt|Hge].
    + rewrite list_lookup_insert_eq in Hj by exact Hlt. by simplify_eq.
    + rewrite list_insert_ge in Hj by lia.
      apply H. apply list_elem_of_In. apply list_elem_of_lookup. eauto.
  - rewrite list_lookup_insert_ne in Hj by exact Hne.
    apply H. apply list_elem_of_In. apply list_elem_of_lookup. eauto.
Qed.

Lemma forallb_lookup (g : A -> bool) (l : list A) i x :
  forallb g l = true -> l !! i = Some x -> g x = true.
Proof.
  rewrite forallb_forall. intros H Hx. apply H.
  apply list_elem_of_In. apply list_elem_of_lookup. eauto.
Qed.

End Lists.

(** ** The sequential parts keep the secrets and the regions *)

Section Sequential.
Context (E : Env) (a : Args).

Lemma on_error_keeps err es m :
  Secrets (on_error err es m).2 = Secrets m
  /\ AWSRegions (on_error err es m).2 = AWSRegions m
  /\ AWSProfile (on_error err es m).2 = AWSProfile m
  /\ output (on_error err es m).2 = output m.
Proof. destruct err; cbn; auto. Qed.

Lemma writeLoot_keeps d v m :
  Secrets (writeLoot E d v m).2 = Secrets m
  /\ AWSRegions (writeLoot E d v m).2 = AWSRegions m
  /\ output (writeLoot E d v m).2 = output m.
Proof.
  unfold writeLoot.
  destruct (on_error (MkdirAll E _) _ m) as [es1 m1] eqn:H1.
  destruct (on_error (WriteFile E _ _) _ m1) as [es2 m2] eqn:H2.
  cbn [snd].
  pose proof (on_error_keeps (MkdirAll E (Join E [d; "cloudfox-output"; "aws"; AWSProfile m; "loot"]%string))
                [EMkdirAll (Join E [d; "cloudfox-output"; "aws"; AWSProfile m; "loot"]%string)] m) as K1.
  rewrite H1 in K1. cbn [snd] in K1. destruct K1 as (K1 & K1' & _ & K1'').
  match type of H2 with on_error ?e ?es m1 = _ =>
    pose proof (on_error_keeps e es m1) as K2 end.
  rewrite H2 in K2. cbn [snd] in K2. destruct K2 as (K2 & K2' & _ & K2'').
  repeat split; congruence.
Qed.

Lemma prologue_keeps m :
  Secrets (prologue E a m).2 = Secrets m
  /\ AWSRegions (prologue E a m).2 = AWSRegions m
  /\ CommandCounter (prologue E a m).2 = CommandCounter m
  /\ utils.Body (output (prologue E a m).2) = utils.Body (output m).
Proof.
  unfold prologue. cbn [snd].
  destruct (String.eqb _ _); cbn; auto.
Qed.

Lemma epilogue_keeps m :
  Secrets (epilogue E a m).2 = Secrets m
  /\ AWSRegions (epilogue E a m).2 = AWSRegions m.
Proof.
  unfold epilogue.
  destruct (length _) as [|n]; [cbn; auto|].
  match goal with |- context [writeLoot E ?d ?v ?m'] =>
    pose proof (writeLoot_keeps d v m') as K;
    destruct (writeLoot E d v m') as [es m3] end.
  cbn [snd] in *. destruct K as (K1 & K2 & _). cbn in K1, K2. auto.
Qed.

End Sequential.

(** ** Every step keeps the invariant *)

Section Invariant.
Context (E : Env) (a : Args) (F : nat) (m0 : SecretsModule).

Lemma step_worker_inv i s s' :
  step E a (TWorker i) s = Some s' ->
  exists w act w' s1,
    workers s !! i = Some w
    /\ worker_step E (CommandCounter (M s)) w = Some (act, w')
    /\ apply_action act s = Some s1
    /\ s' = with_workers (<[i:=w']> (workers s1)) s1.
Proof.
  unfold step. intros H.
  destruct (workers s !! i) as [w|]; [|discriminate].
  destruct (worker_step E _ w) as [[act w']|] eqn:Hw; [|discriminate].
  destruct (apply_action act s) as [s1|] eqn:Ha; [|discriminate].
  injection H as <-. exists w, act, w', s1. auto.
Qed.

Lemma apply_action_facts act s s1 :
  apply_action act s = Some s1 ->
  workers s1 = workers s /\ main s1 = main s /\ spinner s1 = spinner s
  /\ Secrets (M s1) = Secrets (M s) /\ AWSRegions (M s1) = AWSRegions (M s)
  /\ match act with
     | ASend x => receiver s = RSelect /\ receiver s1 = RAppend x
     | _ => receiver s1 = receiver s
     end
  /\ match act with
     | AWgDone => wg s = S (wg s1)
     | _ => wg s1 = wg s
     end.
Proof.
  destruct act; cbn; intros H; simplify_eq; cbn; auto 10.
  - destruct (receiver s) eqn:Hr; simplify_eq. cbn. auto 10.
  - destruct (wg s) eqn:Hr; simplify_eq. cbn. auto 10.
Qed.

Lemma to_launch_ext p m m' :
  AWSRegions m = AWSRegions m' -> to_launch p m = to_launch p m'.
Proof. intros H. destruct p; cbn; auto. Qed.

Lemma to_launch_loop_head l m : to_launch (loop_head l) m = l.
Proof. destruct l; reflexivity. Qed.

Lemma added_loop_head l : added (loop_head l) = O.
Proof. destruct l; reflexivity. Qed.

Lemma joined_loop_head l : joined (loop_head l) = false.
Proof. destruct l; reflexivity. Qed.

Lemma receiver_ok_loop_head l r :
  receiver_ok (loop_head l) r <-> r = RSelect \/ exists x, r = RAppend x.
Proof. destruct l; reflexivity. Qed.

Lemma spinner_ok_loop_head l r : spinner_ok (loop_head l) r <-> r = SSpin.
Proof. destruct l; reflexivity. Qed.

Lemma receiver_ok_send p x : receiver_ok p RSelect -> receiver_ok p (RAppend x).
Proof. destruct p; cbn; intros H; try discriminate; eauto. Qed.

Lemma receiver_ok_append p x : receiver_ok p (RAppend x) -> receiver_ok p RSelect.
Proof. destruct p; cbn; intros H; try discriminate; eauto. Qed.

Lemma remaining_start r : remaining E F (executeChecks r) = region_items E F r.
Proof. unfold remaining, region_items. cbn. by rewrite app_nil_r. Qed.

Lemma on_track_start r : on_track E F (executeChecks r) = region_finite E F r.
Proof. unfold on_track, region_finite. cbn. by rewrite andb_true_r. Qed.

Lemma Inv_init : all_finite E F (AWSRegions m0) = true -> Inv E F m0 (init m0).
Proof. intros H. constructor; cbn; auto. Qed.

Lemma Inv_worker i s s' :
  Inv E F m0 s -> step E a (TWorker i) s = Some s' -> Inv E F m0 s'.
Proof.
  intros [Hreg Hwg Hj Hrecv Hspin Htr Hfin Hit] Hstep.
  destruct (step_worker_inv _ _ _ Hstep) as (w & act & w' & s1 & Hw & Hws & Hap & ->).
  pose proof (forallb_lookup _ _ _ _ Htr Hw) as Hon.
  destruct (worker_step_facts E F _ _ _ _ Hws Hon) as (R1 & R2 & R3 & R4 & _ & R6 & R7).
  destruct (apply_action_facts _ _ _ Hap) as (A1 & A2 & A3 & A4 & A5 & A6 & A7).
  pose proof (sum_insert live _ i w w' Hw) as Hsum.
  pose proof (concat_insert (remaining E F) _ i w w' _ Hw R3) as Hcat.
  constructor; cbn [workers main wg receiver spinner M with_workers];
    rewrite ?A1, ?A2, ?A3, ?A4, ?(to_launch_ext _ _ _ A5).
  - rewrite (map_insert_same region _ i w w' Hw R1). exact Hreg.
  - destruct act; lia.
  - intros Hjo. specialize (Hj Hjo).
    pose proof (sum_lookup_le live _ i w Hw). lia.
  - destruct act; try (rewrite A6; exact Hrecv).
    destruct A6 as [A6 ->]. apply receiver_ok_send. by rewrite <- A6.
  - exact Hspin.
  - apply forallb_insert; assumption.
  - exact Hfin.
  - rewrite <- Hit, Hcat.
    destruct act; try (rewrite A6; reflexivity).
    destruct A6 as [-> ->]. cbn [held app].
    apply Permutation_app_head. reflexivity.
Qed.

Lemma Inv_receiver s s' :
  Inv E F m0 s -> step E a TReceiver s = Some s' -> Inv E F m0 s'.
Proof.
  intros [Hreg Hwg Hj Hrecv Hspin Htr Hfin Hit] Hstep.
  cbn in Hstep. unfold Receiver in Hstep.
  destruct (receiver s) as [|x| |] eqn:Hr; simplify_eq.
  constructor; cbn; auto.
  - eapply receiver_ok_append. exact Hrecv.
  - rewrite <- Hit. cbn. by rewrite <- app_assoc.
Qed.

Lemma Inv_main s s' :
  Inv E F m0 s -> step E a TMain s = Some s' -> Inv E F m0 s'.
Proof.
  intros [Hreg Hwg Hj Hrecv Hspin Htr Hfin Hit] Hstep.
  cbn in Hstep. unfold PrintSecrets in Hstep.
  destruct (main s) as [|r rest|[v|] r rest|r rest| | | | | | |] eqn:Hm.
  - (* prologue *)
    pose proof (prologue_keeps E a (M s)) as (K1 & K2 & _).
    destruct (prologue E a (M s)) as [es m]. cbn [snd] in *. simplify_eq.
    cbn in *. rewrite K2 in *.
    constructor; cbn;
      rewrite ?to_launch_loop_head, ?added_loop_head, ?joined_loop_head, ?K1; auto;
      try discriminate.
    + by apply receiver_ok_loop_head.
    + by apply spinner_ok_loop_head.
  - simplify_eq. constructor; cbn in *; auto. lia.
  - simplify_eq. constructor; cbn in *; auto.
  - simplify_eq. constructor; cbn in *; auto.
  - (* go *)
    simplify_eq. cbn in Hfin. apply andb_true_iff in Hfin as [Hr Hrest].
    cbn [to_launch added joined receiver_ok spinner_ok] in *.
    constructor; cbn [workers main wg receiver spinner M with_workers with_main];
      rewrite ?to_launch_loop_head, ?added_loop_head, ?joined_loop_head.
    + rewrite map_app, <- app_assoc. exact Hreg.
    + rewrite sum_list_with_app. cbn. lia.
    + discriminate.
    + by apply receiver_ok_loop_head.
    + by apply spinner_ok_loop_head.
    + rewrite forallb_app, Htr. cbn [forallb andb]. by rewrite on_track_start, Hr.
    + exact Hrest.
    + rewrite <- Hit, map_app, concat_app. cbn [map concat all_items].
      rewrite remaining_start, app_nil_r, <- !app_assoc. reflexivity.
  - (* wait *)
    destruct (wg s) eqn:Hw; simplify_eq. constructor; cbn in *; auto; intros; lia.
  - destruct (spinner s) eqn:Hs; simplify_eq. constructor; cbn in *; auto.
  - destruct (spinner s) eqn:Hs; simplify_eq. constructor; cbn in *; auto.
  - destruct (receiver s) eqn:Hs; simplify_eq. constructor; cbn in *; auto.
  - destruct (receiver s) eqn:Hs; simplify_eq. constructor; cbn in *; auto.
  - (* epilogue *)
    pose proof (epilogue_keeps E a (M s)) as (K1 & K2).
    destruct (epilogue E a (M s)) as [es m]. cbn [snd] in *. simplify_eq.
    constructor; cbn in *; rewrite ?K1; auto.
  - discriminate.
Qed.

Lemma Inv_step t s s' : Inv E F m0 s -> step E a t s = Some s' -> Inv E F m0 s'.
Proof.
  destruct t; [apply Inv_main|apply Inv_receiver|apply Inv_worker].
Qed.

Lemma Inv_run sched s s' : Inv E F m0 s -> run E a sched s = Some s' -> Inv E F m0 s'.
Proof.
  revert s. induction sched as [|t sched IH]; intros s HI H; cbn in H.
  - by simplify_eq.
  - destruct (step E a t s) as [s1|] eqn:Hs; [|discriminate].
    eapply IH; [|exact H]. eapply Inv_step; eauto.
Qed.

End Invariant.

(** ** Once the workers are joined *)

Section Joined.
Context (E : Env) (a : Args) (F : nat) (m0 : SecretsModule).

Lemma remaining_exited ws :
  sum_list_with live ws = O -> concat (map (remaining E F) ws) = [].
Proof.
  induction ws as [|[r p] ws IH]; [reflexivity|].
  cbn [sum_list_with map concat]. intros H.
  assert (live (mkWorker r p) = O /\ sum_list_with live ws = O) as [H1 H2] by lia.
  rewrite (IH H2), app_nil_r.
  destruct p; try discriminate. reflexivity.
Qed.

Lemma stopped_joined s : stopped s -> joined (main s) = true.
Proof. intros [H|[H|H]]; rewrite H; reflexivity. Qed.

(** From the moment the receiver has taken the stop signal, [m.Secrets]
    holds every item of every source, up to the order of arrival. *)
Lemma stopped_items s :
  Inv E F m0 s -> stopped s ->
  Secrets (M s) ≡ₚ Secrets m0 ++ all_items E F (AWSRegions m0).
Proof.
  intros [Hreg Hwg Hj Hrecv Hspin Htr Hfin Hit] Hs.
  rewrite <- Hit. rewrite (remaining_exited _ (Hj (stopped_joined _ Hs))).
  destruct Hs as [H|[H|H]]; rewrite H in *; cbn in Hrecv; rewrite Hrecv; cbn;
    by rewrite app_nil_r.
Qed.

(** ... and no step changes [m.Secrets] any more. *)
Lemma stopped_stable t s s' :
  Inv E F m0 s -> stopped s -> step E a t s = Some s' ->
  Secrets (M s') = Secrets (M s) /\ stopped s'.
Proof.
  intros HI Hs Hstep. destruct t as [| |i].
  - cbn in Hstep. unfold PrintSecrets in Hstep.
    destruct Hs as [H|[H|H]]; rewrite H in Hstep.
    + destruct (receiver s); simplify_eq. cbn. unfold stopped. cbn. auto.
    + pose proof (epilogue_keeps E a (M s)) as (K1 & K2).
      destruct (epilogue E a (M s)) as [es m]. simplify_eq. cbn in *.
      unfold stopped. cbn. auto.
    + discriminate.
  - exfalso. pose proof (inv_receiver _ _ _ _ HI) as Hr.
    cbn in Hstep. unfold Receiver in Hstep.
    destruct (receiver s) eqn:Hrs; simplify_eq.
    destruct Hs as [H|[H|H]]; rewrite H in Hr; discriminate.
  - destruct (step_worker_inv _ _ _ _ _ Hstep) as (w & act & w' & s1 & Hw & Hws & Hap & ->).
    destruct (apply_action_facts _ _ _ Hap) as (A1 & A2 & A3 & A4 & A5 & A6 & A7).
    cbn. split; [exact A4|]. unfold stopped. cbn. rewrite A2. exact Hs.
Qed.

End Joined.

(** ** Every run ends *)

Section Termination.
Context (E : Env) (a : Args) (F : nat) (m0 : SecretsModule).

(** Every step uses up one unit of the measure. *)
Lemma measure_step t s s' :
  Inv E F m0 s -> step E a t s = Some s' -> measure E F s = S (measure E F s').
Proof.
  intros HI Hstep. destruct t as [| |i].
  - cbn in Hstep. unfold PrintSecrets in Hstep. unfold measure.
    destruct (main s) as [|r rest|[v|] r rest|r rest| | | | | | |] eqn:Hm.
    + pose proof (prologue_keeps E a (M s)) as (K1 & K2 & _).
      destruct (prologue E a (M s)) as [es m]. cbn [snd] in *. simplify_eq.
      cbn. rewrite K2. destruct (AWSRegions (M s)); cbn; unfold region_cost; lia.
    + simplify_eq. cbn. lia.
    + simplify_eq. cbn. lia.
    + simplify_eq. cbn. lia.
    + simplify_eq. cbn [main workers receiver M with_main with_workers].
      rewrite sum_list_with_app.
      destruct rest; cbn; unfold region_cost; lia.
    + destruct (wg s); simplify_eq. cbn. lia.
    + destruct (spinner s); simplify_eq. cbn. lia.
    + destruct (spinner s); simplify_eq. cbn. lia.
    + destruct (receiver s); simplify_eq. cbn. lia.
    + destruct (receiver s); simplify_eq. cbn. lia.
    + destruct (epilogue E a (M s)) as [es m]. simplify_eq. cbn. lia.
    + discriminate.
  - cbn in Hstep. unfold Receiver in Hstep. unfold measure.
    destruct (receiver s) eqn:Hr; simplify_eq. cbn. lia.
  - destruct (step_worker_inv _ _ _ _ _ Hstep) as (w & act & w' & s1 & Hw & Hws & Hap & ->).
    pose proof (forallb_lookup _ _ _ _ (inv_track _ _ _ _ HI) Hw) as Hon.
    destruct (worker_step_facts E F _ _ _ _ Hws Hon) as (R1 & R2 & R3 & R4 & _ & R6 & R7).
    destruct (apply_action_facts _ _ _ Hap) as (A1 & A2 & A3 & A4 & A5 & A6 & A7).
    pose proof (sum_insert (cost E F) _ i w w' Hw) as Hsum.
    unfold measure. cbn [workers main wg receiver spinner M with_workers].
    rewrite A1, A2, A5.
    destruct act; try (rewrite A6; lia).
    destruct A6 as [-> ->]. cbn [held length]. lia.
Qed.

Lemma measure_run sched s s' :
  Inv E F m0 s -> run E a sched s = Some s' ->
  measure E F s = (length sched + measure E F s')%nat.
Proof.
  revert s. induction sched as [|t sched IH]; intros s HI H; cbn in H.
  - by simplify_eq.
  - destruct (step E a t s) as [s1|] eqn:Hs; [|discriminate].
    rewrite (measure_step _ _ _ HI Hs).
    rewrite (IH s1 (Inv_step _ _ _ _ _ _ _ HI Hs) H). reflexivity.
Qed.

Lemma live_worker ws :
  sum_list_with live ws <> O -> exists i w, ws !! i = Some w /\ live w = 1%nat.
Proof.
  induction ws as [|w ws IH]; [done|]. cbn [sum_list_with]. intros H.
  destruct (live w) eqn:Hl.
  - destruct IH as (i & w1 & H1 & H2); [lia|]. exists (S i), w1. auto.
  - exists O, w. split; [reflexivity|].
    unfold live in *. destruct (exited w); [discriminate|]. congruence.
Qed.

Lemma live_steps c w :
  live w = 1%nat -> exists act w', worker_step E c w = Some (act, w').
Proof.
  destruct w as [r p]. unfold worker_step. cbn [pc region].
  destruct p as [u [v|]|k tok|k err|k e rest next| |]; try (intros _; eauto; fail).
  - intros _. destruct (fetchPage E k r tok); eauto.
  - discriminate.
Qed.

(** No deadlock: as long as [PrintSecrets] has not returned, some goroutine
    can take a step. *)
Lemma progress s :
  Inv E F m0 s -> main s <> MEnd -> exists t s', step E a t s = Some s'.
Proof.
  intros HI Hne.
  assert (forall i w, workers s !! i = Some w -> live w = 1%nat ->
            wg s <> O -> exists t s', step E a t s = Some s') as Hworker.
  { intros i w Hw Hl Hwg.
    destruct (live_steps (CommandCounter (M s)) w Hl) as (act & w' & Hs).
    pose proof (inv_receiver _ _ _ _ HI) as Hr.
    destruct (receiver s) as [|x| |] eqn:Hrs.
    - exists (TWorker i). cbn. rewrite Hw, Hs.
      destruct act; cbn; rewrite ?Hrs; eauto.
      destruct (wg s); [done|eauto].
    - exists TReceiver. cbn. unfold Receiver. rewrite Hrs. eauto.
    - exfalso. pose proof (inv_joined _ _ _ _ HI) as Hj.
      pose proof (sum_lookup_le live _ _ _ Hw).
      destruct (main s); cbn in Hr; try (destruct Hr as [?|[? ?]]; discriminate);
        try discriminate; specialize (Hj eq_refl); lia.
    - exfalso. pose proof (inv_joined _ _ _ _ HI) as Hj.
      pose proof (sum_lookup_le live _ _ _ Hw).
      destruct (main s); cbn in Hr; try (destruct Hr as [?|[? ?]]; discriminate);
        try discriminate; specialize (Hj eq_refl); lia. }
  pose proof (inv_receiver _ _ _ _ HI) as Hr.
  pose proof (inv_spinner _ _ _ _ HI) as Hsp.
  pose proof (inv_wg _ _ _ _ HI) as Hwg.
  destruct (main s) as [|r rest|[v|] r rest|r rest| | | | | | |] eqn:Hm;
    try (exists TMain; cbn; unfold PrintSecrets; rewrite Hm; eauto; fail).
  - (* wg.Wait() *)
    destruct (wg s) eqn:Hw.
    + exists TMain. cbn. unfold PrintSecrets. rewrite Hm, Hw. eauto.
    + cbn in Hwg. destruct (live_worker (workers s)) as (i & w & H1 & H2); [lia|].
      apply (Hworker i w H1 H2). congruence.
  - exists TMain. cbn. unfold PrintSecrets. rewrite Hm. cbn in Hsp. rewrite Hsp. eauto.
  - exists TMain. cbn. unfold PrintSecrets. rewrite Hm. cbn in Hsp. rewrite Hsp. eauto.
  - cbn in Hr. destruct Hr as [Hr|[x Hr]].
    + exists TMain. cbn. unfold PrintSecrets. rewrite Hm, Hr. eauto.
    + exists TReceiver. cbn. unfold Receiver. rewrite Hr. eauto.
  - exists TMain. cbn. unfold PrintSecrets. rewrite Hm. cbn in Hr. rewrite Hr. eauto.
  - exists TMain. cbn. unfold PrintSecrets. rewrite Hm.
    destruct (epilogue E a (M s)). eauto.
  - done.
Qed.

Lemma at_end_or_not (p : mpc) : p = MEnd \/ p <> MEnd.
Proof. destruct p; auto; right; discriminate. Qed.

(** From every state of a run, the run can be completed, and every way of
    completing it takes the same number of steps. *)
Lemma completes s :
  Inv E F m0 s ->
  exists sched s', run E a sched s = Some s' /\ finished s'
                   /\ length sched = measure E F s.
Proof.
  remember (measure E F s) as n eqn:Hn. revert s Hn.
  induction n as [|n IH]; intros s Hn HI.
  - exists [], s. split; [reflexivity|]. split; [|reflexivity].
    unfold finished. destruct (at_end_or_not (main s)) as [|Hne]; [done|].
    destruct (progress s HI Hne) as (t & s' & Hs).
    pose proof (measure_step _ _ _ HI Hs). lia.
  - destruct (at_end_or_not (main s)) as [He|Hne].
    + unfold measure in Hn. exfalso.
      pose proof (inv_joined _ _ _ _ HI) as Hj. rewrite He in *.
      specialize (Hj eq_refl).
      pose proof (inv_receiver _ _ _ _ HI) as Hr. rewrite He in Hr. cbn in Hr.
      rewrite Hr in Hn. cbn in Hn.
      assert (sum_list_with (cost E F) (workers s) = O); [|lia].
      clear -Hj. induction (workers s) as [|[r p] ws IHw]; [reflexivity|].
      cbn [sum_list_with] in *.
      assert (live (mkWorker r p) = O /\ sum_list_with live ws = O) as [H1 H2] by lia.
      rewrite (IHw H2). destruct p; try discriminate. reflexivity.
    + destruct (progress s HI Hne) as (t & s1 & Hs).
      pose proof (measure_step _ _ _ HI Hs) as Hm.
      destruct (IH s1) as (sched & s' & Hrun & Hfin & Hlen);
        [lia|eapply Inv_step; eauto|].
      exists (t :: sched), s'. cbn. rewrite Hs. split; [exact Hrun|].
      split; [exact Hfin|]. lia.
Qed.

End Termination.

(** ** The error tally under every interleaving *)

Section Errors.
Context (E : Env) (a : Args) (F : nat) (m0 : SecretsModule).

Lemma worker_step_store c w f v w' :
  worker_step E c w = Some (AStore f v, w') ->
  exists u v0, pc w = WUpdate u (Some v0) /\ f = site_field u /\ v = site_op u v0
               /\ w' = mkWorker (region w) (site_next u).
Proof.
  destruct w as [r p]. unfold worker_step. cbn [pc region].
  destruct p as [u [v0|]|k tok|k err|k e rest next| |]; intros H; simplify_eq.
  - eauto 10.
  - destruct (fetchPage E k r tok); simplify_eq.
Qed.

Lemma worker_step_load c w f w' :
  worker_step E c w = Some (ALoad f, w') ->
  exists u, pc w = WUpdate u None /\ f = site_field u
            /\ pc w' = WUpdate u (Some (get (site_field u) c)).
Proof.
  destruct w as [r p]. unfold worker_step. cbn [pc region].
  destruct p as [u [v0|]|k tok|k err|k e rest next| |]; intros H; simplify_eq.
  - eauto 10.
  - destruct (fetchPage E k r tok); simplify_eq.
Qed.

Lemma site_next_quiet u : forall u' v, site_next u <> WUpdate u' (Some v).
Proof. intros u' v. destruct u as [| | |k| |]; try destruct k; discriminate. Qed.

Lemma after_page_quiet k recs next : forall u' v, after_page k recs next <> WUpdate u' (Some v).
Proof. intros u' v. destruct recs, next, k; discriminate. Qed.

(** Only a load leaves a worker with a loaded value. *)
Lemma worker_step_quiet c w act w' :
  worker_step E c w = Some (act, w') ->
  (forall f, act <> ALoad f) ->
  forall u v, pc w' <> WUpdate u (Some v).
Proof.
  destruct w as [r p]. unfold worker_step. cbn [pc region].
  destruct p as [u0 [v0|]|k tok|k err|k e rest next| |]; intros H Hn u v; simplify_eq; cbn [pc].
  - apply site_next_quiet.
  - exfalso. eapply Hn. reflexivity.
  - destruct (fetchPage E k r tok); simplify_eq; cbn [pc];
      [discriminate|apply after_page_quiet].
  - discriminate.
  - apply after_page_quiet.
  - discriminate.
Qed.

Lemma apply_action_counter act s s1 :
  apply_action act s = Some s1 ->
  CommandCounter (M s1) = act_counter act (CommandCounter (M s)).
Proof.
  destruct act; cbn; intros H; simplify_eq; cbn; auto.
  - destruct (receiver s); simplify_eq. reflexivity.
  - destruct (wg s); simplify_eq. reflexivity.
Qed.

Lemma failures_left_start r : failures_left E F (executeChecks r) = region_failures E F r.
Proof. unfold failures_left, region_failures. cbn. lia. Qed.

Lemma region_failures_le r : (region_failures E F r <= 2)%nat.
Proof.
  unfold region_failures.
  pose proof (source_failures_le E F SecretsManager r None).
  pose proof (source_failures_le E F SSM r None). lia.
Qed.

Lemma total_failures_le l : (total_failures E F l <= 2 * length l)%nat.
Proof.
  unfold total_failures. induction l as [|r l IH]; cbn [sum_list_with length]; [lia|].
  pose proof (region_failures_le r). lia.
Qed.

Lemma loaded_error_quiet w :
  (forall u v, pc w <> WUpdate u (Some v)) -> loaded_error w = None.
Proof.
  unfold loaded_error. intros H.
  destruct (pc w) as [[| | |k| |] [v|]| | | | |]; try reflexivity.
  exfalso. eapply H. reflexivity.
Qed.

Lemma EInv_init :
  CommandCounter m0 = zero_counter -> EInv E F m0 (init m0).
Proof.
  intros Hc.
  constructor; unfold failures_done, total_failures; cbn; rewrite ?Hc; cbn; intros;
    try lia; simplify_eq.
Qed.

End Errors.

Section SequentialCounters.
Context (E : Env) (a : Args).

Lemma on_error_counter err es m :
  CommandCounter (on_error err es m).2
  = match err with
    | Some _ => set FError (incr (console.Error (CommandCounter m))) (CommandCounter m)
    | None => CommandCounter m
    end.
Proof. destruct err; reflexivity. Qed.

(** The counters after [writeLoot]: [Error] incremented once for each of its
    two file-system calls that failed. *)
Lemma writeLoot_counter d v m :
  exists c1,
    (c1 = CommandCounter m
     \/ c1 = set FError (incr (console.Error (CommandCounter m))) (CommandCounter m))
    /\ (CommandCounter (writeLoot E d v m).2 = c1
        \/ CommandCounter (writeLoot E d v m).2 = set FError (incr (console.Error c1)) c1).
Proof.
  unfold writeLoot.
  match goal with |- context [on_error ?e ?es m] =>
    pose proof (on_error_counter e es m) as K1;
    destruct (on_error e es m) as [es1 m1] end.
  match goal with |- context [on_error ?e ?es m1] =>
    pose proof (on_error_counter e es m1) as K2;
    destruct (on_error e es m1) as [es2 m2] end.
  cbn [snd] in *. exists (CommandCounter m1). split.
  - destruct (MkdirAll E _); auto.
  - destruct (WriteFile E _ _); auto.
Qed.

Lemma epilogue_counter m :
  exists c1,
    (c1 = CommandCounter m
     \/ c1 = set FError (incr (console.Error (CommandCounter m))) (CommandCounter m))
    /\ (CommandCounter (epilogue E a m).2 = c1
        \/ CommandCounter (epilogue E a m).2 = set FError (incr (console.Error c1)) c1).
Proof.
  unfold epilogue. destruct (length _) as [|n].
  - exists (CommandCounter m). cbn. auto.
  - match goal with |- context [writeLoot E ?d ?v ?m'] =>
      pose proof (writeLoot_counter d v m') as K;
      destruct (writeLoot E d v m') as [es m3] end.
    cbn [snd] in *. exact K.
Qed.

(** The epilogue touches no counter but [Error]. *)
Lemma epilogue_other m f :
  f <> FError ->
  get f (CommandCounter (epilogue E a m).2) = get f (CommandCounter m).
Proof.
  intros Hf. destruct (epilogue_counter m) as (c1 & [->| ->] & [->| ->]);
    rewrite ?get_set_ne by exact Hf; reflexivity.
Qed.

Lemma epilogue_error m :
  0 <= console.Error (CommandCounter m) <= int_max - 2 ->
  console.Error (CommandCounter m) <= console.Error (CommandCounter (epilogue E a m).2).
Proof.
  intros Hb. change console.Error with (get FError).
  change console.Error with (get FError) in Hb.
  assert (incr (get FError (CommandCounter m)) = get FError (CommandCounter m) + 1) as H1
    by (apply incr_id; unfold int_min, int_max in *; lia).
  assert (incr (get FError (CommandCounter m) + 1) = get FError (CommandCounter m) + 2) as H2
    by (rewrite incr_id; unfold int_min, int_max in *; lia).
  destruct (epilogue_counter m) as (c1 & [->| ->] & [->| ->]);
    change console.Error with (get FError);
    rewrite ?get_set_eq, ?H1, ?get_set_eq, ?H1, ?H2; lia.
Qed.

End SequentialCounters.

Section ErrorSteps.
Context (E : Env) (a : Args) (F : nat) (m0 : SecretsModule).
Hypothesis Hbound : 2 * Z.of_nat (length (AWSRegions m0)) + 2 <= int_max.

Lemma loaded_insert (ws : list worker) i w' D D' :
  (forall j w v, ws !! j = Some w -> loaded_error w = Some v -> 0 <= v <= Z.of_nat D) ->
  (D <= D')%nat ->
  (forall v, loaded_error w' = Some v -> 0 <= v <= Z.of_nat D') ->
  forall j w v, <[i:=w']> ws !! j = Some w -> loaded_error w = Some v ->
                0 <= v <= Z.of_nat D'.
Proof.
  intros H HD Hw' j w v Hj Hl.
  apply list_lookup_insert_Some in Hj as [(-> & -> & _)|[Hne Hj]].
  - by apply Hw'.
  - specialize (H j w v Hj Hl). lia.
Qed.

Lemma failures_done_le s : (failures_done E F m0 s <= 2 * length (AWSRegions m0))%nat.
Proof.
  unfold failures_done. pose proof (total_failures_le E F (AWSRegions m0)). lia.
Qed.

Lemma EInv_worker i s s' :
  Inv E F m0 s -> EInv E F m0 s -> step E a (TWorker i) s = Some s' -> EInv E F m0 s'.
Proof.
  intros HI [Hleft Hlow Hhigh Hone Hld] Hstep.
  destruct (step_worker_inv _ _ _ _ _ Hstep) as (w & act & w' & s1 & Hw & Hws & Hap & ->).
  pose proof (forallb_lookup _ _ _ _ (inv_track _ _ _ _ HI) Hw) as Hon.
  destruct (worker_step_facts E F _ _ _ _ Hws Hon) as (R1 & R2 & R3 & R4 & R5 & R6 & R7).
  destruct (apply_action_facts _ _ _ Hap) as (A1 & A2 & A3 & A4 & A5 & A6 & A7).
  pose proof (apply_action_counter _ _ _ Hap) as Hcc.
  pose proof (sum_insert (failures_left E F) _ i w w' Hw) as Hsum.
  pose proof (failures_done_le s) as HD.
  assert (main s <> MEnd) as Hne.
  { intros He. pose proof (inv_joined _ _ _ _ HI) as Hj. rewrite He in Hj.
    specialize (Hj eq_refl). pose proof (sum_lookup_le live _ _ _ Hw). lia. }
  specialize (Hhigh Hne).
  unfold failures_done in *.
  destruct act as [f|f v|k r tok|err|x|].
  - (* load *)
    destruct (worker_step_load _ _ _ _ _ Hws) as (u & Hp & -> & Hp').
    constructor; unfold failures_done; cbn [workers main M with_workers];
      rewrite ?A1, ?A2, ?(to_launch_ext _ _ _ A5), ?Hcc; cbn [act_counter]; intros; try lia.
    eapply loaded_insert; [exact Hld|lia| |eassumption|eassumption].
    intros v' Hv'. unfold loaded_error in Hv'. rewrite Hp' in Hv'.
    destruct u; simplify_eq. cbn. lia.
  - (* store *)
    destruct (worker_step_store _ _ _ _ _ _ Hws) as (u & v0 & Hp & -> & -> & ->).
    assert (loaded_error (mkWorker (region w) (site_next u)) = None) as Hq
      by (apply loaded_error_quiet; cbn; apply site_next_quiet).
    clear Hstep R1 R2 R3 R4 R6 R7 Hon HI Hws Hap.
    remember (mkWorker (region w) (site_next u)) as w' eqn:Hw'.
    assert (failures_left E F w
            = (match u with SError _ => 1 | _ => 0 end + failures_left E F w')%nat) as R5'
      by (rewrite R5; destruct u; reflexivity).
    assert (console.Error (act_counter (AStore (site_field u) (site_op u v0)) (CommandCounter (M s)))
            = match u with
              | SError _ => incr v0
              | _ => console.Error (CommandCounter (M s))
              end) as Hce by (destruct u; reflexivity).
    clear R5 Hw'.
    destruct u as [| | |k| |];
      try (constructor; unfold failures_done; cbn [workers main M with_workers];
           rewrite ?A1, ?A2, ?(to_launch_ext _ _ _ A5), ?Hcc, ?Hce; intros; try lia;
           eapply loaded_insert; [exact Hld|lia| |eassumption|eassumption];
           intros v' Hv'; congruence).
    (* the store of Error++ *)
    assert (0 <= v0 <= Z.of_nat
              (total_failures E F (AWSRegions m0)
               - (sum_list_with (failures_left E F) (workers s)
                  + total_failures E F (to_launch (main s) (M s))))) as Hv0.
    { eapply Hld; [exact Hw|]. unfold loaded_error. rewrite Hp. reflexivity. }
    assert (incr v0 = v0 + 1) as Hi by (apply incr_id; unfold int_min, int_max in *; lia).
    constructor; unfold failures_done; cbn [workers main M with_workers];
      rewrite ?A1, ?A2, ?(to_launch_ext _ _ _ A5), ?Hcc, ?Hce, ?Hi; intros; try lia.
    eapply loaded_insert; [exact Hld|lia| |eassumption|eassumption].
    intros v' Hv'. congruence.
  - constructor; unfold failures_done; cbn [workers main M with_workers];
      rewrite ?A1, ?A2, ?(to_launch_ext _ _ _ A5), ?Hcc; cbn [act_counter]; intros; try lia.
    eapply loaded_insert; [exact Hld|lia| |eassumption|eassumption]. intros v' Hv'.
    rewrite loaded_error_quiet in Hv'; [done|].
    eapply worker_step_quiet; [exact Hws|]. discriminate.
  - constructor; unfold failures_done; cbn [workers main M with_workers];
      rewrite ?A1, ?A2, ?(to_launch_ext _ _ _ A5), ?Hcc; cbn [act_counter]; intros; try lia.
    eapply loaded_insert; [exact Hld|lia| |eassumption|eassumption]. intros v' Hv'.
    rewrite loaded_error_quiet in Hv'; [done|].
    eapply worker_step_quiet; [exact Hws|]. discriminate.
  - constructor; unfold failures_done; cbn [workers main M with_workers];
      rewrite ?A1, ?A2, ?(to_launch_ext _ _ _ A5), ?Hcc; cbn [act_counter]; intros; try lia.
    eapply loaded_insert; [exact Hld|lia| |eassumption|eassumption]. intros v' Hv'.
    rewrite loaded_error_quiet in Hv'; [done|].
    eapply worker_step_quiet; [exact Hws|]. discriminate.
  - constructor; unfold failures_done; cbn [workers main M with_workers];
      rewrite ?A1, ?A2, ?(to_launch_ext _ _ _ A5), ?Hcc; cbn [act_counter]; intros; try lia.
    eapply loaded_insert; [exact Hld|lia| |eassumption|eassumption]. intros v' Hv'.
    rewrite loaded_error_quiet in Hv'; [done|].
    eapply worker_step_quiet; [exact Hws|]. discriminate.
Qed.

End ErrorSteps.

Section ErrorRuns.
Context (E : Env) (a : Args) (F : nat) (m0 : SecretsModule).
Hypothesis Hbound : 2 * Z.of_nat (length (AWSRegions m0)) + 2 <= int_max.

Lemma loaded_app (ws : list worker) w' D :
  (forall j w v, ws !! j = Some w -> loaded_error w = Some v -> 0 <= v <= Z.of_nat D) ->
  loaded_error w' = None ->
  forall j w v, (ws ++ [w']) !! j = Some w -> loaded_error w = Some v ->
                0 <= v <= Z.of_nat D.
Proof.
  intros H Hw' j w v Hj Hl.
  apply lookup_app_Some in Hj as [Hj|[_ Hj]].
  - eapply H; eauto.
  - apply list_lookup_singleton_Some in Hj as [_ <-]. congruence.
Qed.

Lemma EInv_main s s' :
  Inv E F m0 s -> EInv E F m0 s -> step E a TMain s = Some s' -> EInv E F m0 s'.
Proof.
  intros HI [Hleft Hlow Hhigh Hone Hld] Hstep.
  pose proof (failures_done_le E F m0 s) as HD.
  cbn in Hstep. unfold PrintSecrets in Hstep. unfold failures_done in *.
  destruct (main s) as [|r rest|[v|] r rest|r rest| | | | | | |] eqn:Hm;
    try specialize (Hhigh ltac:(discriminate)).
  - pose proof (prologue_keeps E a (M s)) as (K1 & K2 & K3 & _).
    destruct (prologue E a (M s)) as [es m]. cbn [snd] in *. simplify_eq.
    constructor; unfold failures_done; cbn [workers main M with_main with_M emit];
      rewrite ?to_launch_loop_head, ?K2, ?K3; cbn [to_launch] in *; intros; try lia.
    eapply Hld; eauto.
  - simplify_eq. constructor; unfold failures_done; cbn in *; intros; try lia.
    eapply Hld; eauto.
  - simplify_eq. constructor; unfold failures_done; cbn in *; intros; try lia.
    eapply Hld; eauto.
  - simplify_eq. constructor; unfold failures_done; cbn in *; intros; try lia.
    eapply Hld; eauto.
  - simplify_eq.
    assert (total_failures E F (r :: rest)
            = (region_failures E F r + total_failures E F rest)%nat) as Ht by reflexivity.
    cbn [to_launch] in *. rewrite Ht in *.
    constructor; unfold failures_done;
      cbn [workers main M with_main with_workers];
      rewrite ?to_launch_loop_head, ?sum_list_with_app; cbn [sum_list_with];
      rewrite ?failures_left_start; intros; try lia.
    assert (forall D D' : nat, D = D' -> forall v : Z, 0 <= v <= Z.of_nat D -> 0 <= v <= Z.of_nat D')
      as Hmono by (intros; subst; done).
    eapply Hmono; [|eapply (loaded_app _ (executeChecks r)); [exact Hld|reflexivity|eassumption|eassumption]].
    lia.
  - destruct (wg s); simplify_eq.
    constructor; unfold failures_done; cbn in *; intros; try lia. eapply Hld; eauto.
  - destruct (spinner s); simplify_eq.
    constructor; unfold failures_done; cbn in *; intros; try lia. eapply Hld; eauto.
  - destruct (spinner s); simplify_eq.
    constructor; unfold failures_done; cbn in *; intros; try lia. eapply Hld; eauto.
  - destruct (receiver s); simplify_eq.
    constructor; unfold failures_done; cbn in *; intros; try lia. eapply Hld; eauto.
  - destruct (receiver s); simplify_eq.
    constructor; unfold failures_done; cbn in *; intros; try lia. eapply Hld; eauto.
  - pose proof (epilogue_error E a (M s)) as Ke.
    destruct (epilogue E a (M s)) as [es m]. cbn [snd] in *. simplify_eq.
    cbn [to_launch] in *.
    assert (console.Error (CommandCounter (M s)) <= console.Error (CommandCounter m)) as Kle
      by (apply Ke; unfold int_max in *; lia).
    constructor; unfold failures_done; cbn [workers main M with_main with_M emit to_launch];
      intros; try lia; try done.
    eapply Hld; eauto.
  - discriminate.
Qed.

Lemma EInv_receiver s s' :
  EInv E F m0 s -> step E a TReceiver s = Some s' -> EInv E F m0 s'.
Proof.
  intros [Hleft Hlow Hhigh Hone Hld] Hstep.
  cbn in Hstep. unfold Receiver in Hstep.
  destruct (receiver s); simplify_eq.
  constructor; unfold failures_done in *; cbn in *; auto.
Qed.

Lemma EInv_run sched s s' :
  Inv E F m0 s -> EInv E F m0 s -> run E a sched s = Some s' -> EInv E F m0 s'.
Proof.
  revert s. induction sched as [|t sched IH]; intros s HI HE H; cbn in H.
  - by simplify_eq.
  - destruct (step E a t s) as [s1|] eqn:Hs; [|discriminate].
    eapply IH; [eapply Inv_step; eauto| |exact H].
    destruct t; [eapply EInv_main|eapply EInv_receiver|eapply EInv_worker]; eauto.
Qed.

End ErrorRuns.

(** ** The shape of a run, whatever the sources return *)

Section Shapes.
Context (E : Env) (a : Args) (m0 : SecretsModule).

Lemma worker_step_shape c w act w' :
  worker_step E c w = Some (act, w') ->
  region w' = region w /\ live w = 1%nat
  /\ live w' = match act with AWgDone => O | _ => 1%nat end.
Proof.
  destruct w as [r p]. unfold worker_step. cbn [pc region].
  destruct p as [u [v0|]|k tok|k err|k e rest next| |]; intros H; simplify_eq; cbn [region].
  - destruct u as [| | |k| |]; try destruct k; auto.
  - auto.
  - destruct (fetchPage E k r tok) as [err|recs next]; simplify_eq; cbn [region]; auto.
    rewrite exited_after_page. auto.
  - auto.
  - rewrite exited_after_page. auto.
  - auto.
Qed.

Lemma Shape_init : Shape m0 (init m0).
Proof. constructor; cbn; auto. Qed.

Lemma PrintSecrets_leaves_start s s' : PrintSecrets E a s = Some s' -> main s' <> MStart.
Proof.
  unfold PrintSecrets.
  destruct (main s) as [|r rest|[v|] r rest|r rest| | | | | | |]; intros H; simplify_eq;
    try discriminate.
  - destruct (prologue E a (M s)). simplify_eq. cbn. destruct (AWSRegions _); discriminate.
  - cbn. destruct rest; discriminate.
  - destruct (wg s); simplify_eq. discriminate.
  - destruct (spinner s); simplify_eq. discriminate.
  - destruct (spinner s); simplify_eq. discriminate.
  - destruct (receiver s); simplify_eq. discriminate.
  - destruct (receiver s); simplify_eq. discriminate.
  - destruct (epilogue E a (M s)). simplify_eq. discriminate.
Qed.

Lemma Shape_step t s s' : Shape m0 s -> step E a t s = Some s' -> Shape m0 s'.
Proof.
  intros [Hst Hreg Hwg Hj Hrecv Hspin] Hstep. destruct t as [| |i].
  - (* main *)
    pose proof (PrintSecrets_leaves_start _ _ Hstep) as Hleft.
    cbn in Hstep. unfold PrintSecrets in Hstep.
    destruct (main s) as [|r rest|[v|] r rest|r rest| | | | | | |] eqn:Hm.
    + pose proof (prologue_keeps E a (M s)) as (K1 & K2 & _).
      destruct (prologue E a (M s)) as [es m]. cbn [snd] in *. simplify_eq.
      cbn in *. rewrite K2 in *.
      constructor; cbn;
        rewrite ?to_launch_loop_head, ?added_loop_head, ?joined_loop_head; auto;
        try discriminate; try done.
      * by apply receiver_ok_loop_head.
      * by apply spinner_ok_loop_head.
    + simplify_eq. constructor; cbn in *; auto; try done. lia.
    + simplify_eq. constructor; cbn in *; auto; try done.
    + simplify_eq. constructor; cbn in *; auto; try done.
    + simplify_eq.
      cbn [to_launch added joined receiver_ok spinner_ok] in *.
      constructor; cbn [workers main wg receiver spinner M with_workers with_main];
        rewrite ?to_launch_loop_head, ?added_loop_head, ?joined_loop_head; try done.
      * rewrite map_app, <- app_assoc. exact Hreg.
      * rewrite sum_list_with_app. cbn. lia.
      * by apply receiver_ok_loop_head.
      * by apply spinner_ok_loop_head.
    + destruct (wg s) eqn:Hw; simplify_eq. constructor; cbn in *; auto; try done.
      all: intros; lia.
    + destruct (spinner s) eqn:Hs; simplify_eq. constructor; cbn in *; auto; done.
    + destruct (spinner s) eqn:Hs; simplify_eq. constructor; cbn in *; auto; done.
    + destruct (receiver s) eqn:Hs; simplify_eq. constructor; cbn in *; auto; done.
    + destruct (receiver s) eqn:Hs; simplify_eq. constructor; cbn in *; auto; done.
    + pose proof (epilogue_keeps E a (M s)) as (K1 & K2).
      destruct (epilogue E a (M s)) as [es m]. cbn [snd] in *. simplify_eq.
      constructor; cbn in *; auto; done.
    + discriminate.
  - (* the receiver *)
    cbn in Hstep. unfold Receiver in Hstep.
    destruct (receiver s) as [|x| |] eqn:Hr; simplify_eq.
    assert (main s <> MStart) as Hns.
    { intros Hms. specialize (Hst Hms). rewrite Hst in Hr. discriminate. }
    constructor; cbn; auto; try done.
    eapply receiver_ok_append. exact Hrecv.
  - (* a worker *)
    destruct (step_worker_inv _ _ _ _ _ Hstep) as (w & act & w' & s1 & Hw & Hws & Hap & ->).
    destruct (worker_step_shape _ _ _ _ Hws) as (R1 & R6 & R7).
    destruct (apply_action_facts _ _ _ Hap) as (A1 & A2 & A3 & A4 & A5 & A6 & A7).
    pose proof (sum_insert live _ i w w' Hw) as Hsum.
    assert (main s <> MStart) as Hns.
    { intros Hms. specialize (Hst Hms). rewrite Hst in Hw. discriminate. }
    constructor; cbn [workers main wg receiver spinner M with_workers];
      rewrite ?A1, ?A2, ?A3, ?A4, ?(to_launch_ext _ _ _ A5); try done.
    + rewrite (map_insert_same region _ i w w' Hw R1). exact Hreg.
    + destruct act; lia.
    + intros Hjo. specialize (Hj Hjo).
      pose proof (sum_lookup_le live _ i w Hw). lia.
    + destruct act; try (rewrite A6; exact Hrecv).
      destruct A6 as [A6 ->]. apply receiver_ok_send. by rewrite <- A6.
Qed.

Lemma Shape_run sched s s' : Shape m0 s -> run E a sched s = Some s' -> Shape m0 s'.
Proof.
  revert s. induction sched as [|t sched IH]; intros s HI H; cbn in H.
  - by simplify_eq.
  - destruct (step E a t s) as [s1|] eqn:Hs; [|discriminate].
    eapply IH; [|exact H]. eapply Shape_step; eauto.
Qed.

(** Once [PrintSecrets] has returned, no goroutine is left to take a step. *)
Lemma no_step_at_end t s : Shape m0 s -> main s = MEnd -> step E a t s = None.
Proof.
  intros HI He. destruct t as [| |i]; cbn.
  - unfold PrintSecrets. rewrite He. reflexivity.
  - pose proof (sh_receiver _ _ HI) as Hr. rewrite He in Hr. cbn in Hr.
    unfold Receiver. rewrite Hr. reflexivity.
  - destruct (workers s !! i) as [w|] eqn:Hw; [|reflexivity].
    pose proof (sh_joined _ _ HI) as Hj. rewrite He in Hj. specialize (Hj eq_refl).
    pose proof (sum_lookup_le live _ _ _ Hw) as Hl. rewrite Hj in Hl.
    destruct w as [r p]. destruct p; try (cbn in Hl; lia). reflexivity.
Qed.

End Shapes.

(** ** Runs whose counter statements are not interrupted *)

Section Atomic.
Context (E : Env) (a : Args).

(** They are runs: an uninterrupted counter statement is two steps of the
    same goroutine. *)
Lemma atomic_step_steps t s s' :
  atomic_step E a t s = Some s' ->
  step E a t s = Some s' \/ exists s1, step E a t s = Some s1 /\ step E a t s1 = Some s'.
Proof.
  unfold atomic_step. destruct (step E a t s) as [s1|]; [|discriminate].
  destruct (holding t s1); intros H; [right; eauto|left; exact H].
Qed.

Lemma run_app sched1 sched2 s s1 s2 :
  run E a sched1 s = Some s1 -> run E a sched2 s1 = Some s2 ->
  run E a (sched1 ++ sched2) s = Some s2.
Proof.
  revert s. induction sched1 as [|t l IH]; intros s H1 H2; cbn in *.
  - by simplify_eq.
  - destruct (step E a t s); [|discriminate]. eauto.
Qed.

Lemma atomic_run_run sched s s' :
  atomic_run E a sched s = Some s' -> exists sched', run E a sched' s = Some s'.
Proof.
  revert s. induction sched as [|t l IH]; intros s H; cbn in H.
  - exists []. exact H.
  - destruct (atomic_step E a t s) as [s1|] eqn:Hs; [|discriminate].
    destruct (IH _ H) as (l' & Hl').
    destruct (atomic_step_steps _ _ _ Hs) as [H1|(s0 & H1 & H2)].
    + exists (t :: l'). cbn. by rewrite H1.
    + exists (t :: t :: l'). cbn. by rewrite H1, H2.
Qed.

(** An uninterrupted step of a worker: a whole counter statement, or a step
    that is neither a load nor a store. *)
Lemma atomic_worker i s s' :
  quiet s ->
  atomic_step E a (TWorker i) s = Some s' ->
  exists w,
    workers s !! i = Some w
    /\ ((exists u,
           pc w = WUpdate u None
           /\ s' = with_workers (<[i := mkWorker (region w) (site_next u)]> (workers s))
                     (set_counter (site_field u)
                        (site_op u (get (site_field u) (CommandCounter (M s)))) s))
        \/ (exists act w',
              worker_step E (CommandCounter (M s)) w = Some (act, w')
              /\ (forall f, act <> ALoad f) /\ (forall f v, act <> AStore f v)
              /\ step E a (TWorker i) s = Some s')).
Proof.
  intros [_ Hq] H. unfold atomic_step in H.
  destruct (step E a (TWorker i) s) as [s1|] eqn:Hs; [|discriminate].
  destruct (step_worker_inv _ _ _ _ _ Hs) as (w & act & w' & s0 & Hw & Hws & Hap & ->).
  exists w. split; [exact Hw|].
  pose proof (lookup_lt_Some _ _ _ Hw) as Hlt.
  destruct act as [f|f v|k r tok|err|x|].
  - (* a load: the store follows *)
    left. destruct (worker_step_load _ _ _ _ _ Hws) as (u & Hp & -> & Hp').
    exists u. split; [exact Hp|].
    cbn in Hap. simplify_eq.
    destruct w as [r p], w' as [r' p']. cbn in Hp, Hp'. subst p p'.
    unfold worker_step in Hws. cbn in Hws. simplify_eq.
    cbn [holding workers with_workers] in H.
    rewrite list_lookup_insert_eq in H by exact Hlt.
    cbn in H. rewrite list_lookup_insert_eq in H by exact Hlt.
    cbn in H. simplify_eq. cbn. unfold with_workers. cbn.
    by rewrite list_insert_insert_eq.
  - exfalso. destruct (worker_step_store _ _ _ _ _ _ Hws) as (u & v0 & Hp & _).
    eapply Hq; eauto.
  - right. exists (ACall k r tok), w'. split; [exact Hws|].
    split; [discriminate|]. split; [discriminate|].
    pose proof (worker_step_quiet _ _ _ _ _ Hws ltac:(discriminate)) as Hq'.
    cbn [holding workers with_workers] in H.
    rewrite list_lookup_insert_eq in H
      by (destruct (apply_action_facts _ _ _ Hap) as (-> & _); exact Hlt).
    destruct w' as [r' [u [v|]| | | | |]]; try exact H. exfalso. eapply Hq'. reflexivity.
  - right. exists (ALog err), w'. split; [exact Hws|].
    split; [discriminate|]. split; [discriminate|].
    pose proof (worker_step_quiet _ _ _ _ _ Hws ltac:(discriminate)) as Hq'.
    cbn [holding workers with_workers] in H.
    rewrite list_lookup_insert_eq in H
      by (destruct (apply_action_facts _ _ _ Hap) as (-> & _); exact Hlt).
    destruct w' as [r' [u [v|]| | | | |]]; try exact H. exfalso. eapply Hq'. reflexivity.
  - right. exists (ASend x), w'. split; [exact Hws|].
    split; [discriminate|]. split; [discriminate|].
    pose proof (worker_step_quiet _ _ _ _ _ Hws ltac:(discriminate)) as Hq'.
    cbn [holding workers with_workers] in H.
    rewrite list_lookup_insert_eq in H
      by (destruct (apply_action_facts _ _ _ Hap) as (-> & _); exact Hlt).
    destruct w' as [r' [u [v|]| | | | |]]; try exact H. exfalso. eapply Hq'. reflexivity.
  - right. exists AWgDone, w'. split; [exact Hws|].
    split; [discriminate|]. split; [discriminate|].
    pose proof (worker_step_quiet _ _ _ _ _ Hws ltac:(discriminate)) as Hq'.
    cbn [holding workers with_workers] in H.
    rewrite list_lookup_insert_eq in H
      by (destruct (apply_action_facts _ _ _ Hap) as (-> & _); exact Hlt).
    destruct w' as [r' [u [v|]| | | | |]]; try exact H. exfalso. eapply Hq'. reflexivity.
Qed.

End Atomic.

Section Counting.
Context (E : Env) (m0 : SecretsModule).

Lemma counts_one (w : worker) :
  (pending_of w + executing_of w + complete_of w + in_transit w = 1)%nat.
Proof.
  unfold pending_of, executing_of, complete_of, in_transit.
  destruct (pc w) as [[| | |k| |] l| | | | |]; reflexivity.
Qed.

Lemma counts_sum (ws : list worker) :
  (sum_list_with pending_of ws + sum_list_with executing_of ws
   + sum_list_with complete_of ws + sum_list_with in_transit ws = length ws)%nat.
Proof.
  induction ws as [|w ws IH]; [reflexivity|].
  cbn [sum_list_with length]. pose proof (counts_one w). lia.
Qed.

Lemma total_of_le (ws : list worker) : (sum_list_with total_of ws <= length ws)%nat.
Proof.
  induction ws as [|w ws IH]; [reflexivity|]. cbn [sum_list_with length].
  assert (total_of w <= 1)%nat; [|lia].
  unfold total_of. destruct (pc w) as [[| | |k| |] l| | | | |]; lia.
Qed.

(** A step that is not a store leaves the worker where the counters see it. *)
Lemma worker_step_counts c w act w' :
  worker_step E c w = Some (act, w') ->
  (forall f v, act <> AStore f v) ->
  total_of w' = total_of w /\ pending_of w' = pending_of w
  /\ executing_of w' = executing_of w /\ complete_of w' = complete_of w.
Proof.
  destruct w as [r p]. unfold worker_step. cbn [pc region].
  unfold total_of, pending_of, executing_of, complete_of.
  destruct p as [u [v0|]|k tok|k err|k e rest next| |]; intros H Hn; simplify_eq; cbn [pc].
  - exfalso. eapply Hn. reflexivity.
  - destruct u; auto.
  - destruct (fetchPage E k r tok) as [err|recs next]; simplify_eq; cbn [pc]; auto.
    destruct recs, next, k; auto.
  - auto.
  - destruct rest, next, k; auto.
  - auto.
Qed.

Lemma workers_le s : Shape m0 s ->
  (length (workers s) + length (to_launch (main s) (M s)) = length (AWSRegions m0))%nat.
Proof.
  intros HI. rewrite <- (sh_regions _ _ HI), length_app, length_map. reflexivity.
Qed.

Lemma going_le p m : (going p <= length (to_launch p m))%nat.
Proof. destruct p; cbn; lia. Qed.

Lemma quiet_insert s i w' s1 :
  quiet s -> main s1 = main s -> workers s1 = <[i:=w']> (workers s) ->
  (forall u v, pc w' <> WUpdate u (Some v)) -> quiet s1.
Proof.
  intros [Hm Hq] H1 H2 Hw'. split.
  - rewrite H1. exact Hm.
  - rewrite H2. intros j w Hj.
    apply list_lookup_insert_Some in Hj as [(-> & <- & _)|[Hne Hj]]; eauto.
Qed.

End Counting.

Section AtomicCounters.
Context (E : Env) (a : Args) (m0 : SecretsModule).
Hypothesis Hbound : Z.of_nat (length (AWSRegions m0)) <= int_max.

Lemma CInv_worker i s s' :
  Shape m0 s -> CInv s -> atomic_step E a (TWorker i) s = Some s' -> CInv s'.
Proof.
  intros HI [Hq Ht Hp He Hc] Hstep.
  pose proof (workers_le m0 _ HI) as Hlen.
  pose proof (going_le (main s) (M s)) as Hgo.
  destruct (atomic_worker _ _ _ _ _ Hq Hstep)
    as (w & Hw & [(u & Hpc & ->)|(act & w' & Hws & Hnl & Hns & Hs)]).
  - (* a counter statement *)
    set (w' := mkWorker (region w) (site_next u)).
    pose proof (sum_insert total_of _ i w w' Hw) as S1.
    pose proof (sum_insert pending_of _ i w w' Hw) as S2.
    pose proof (sum_insert executing_of _ i w w' Hw) as S3.
    pose proof (sum_insert complete_of _ i w w' Hw) as S4.
    pose proof (total_of_le (<[i:=w']> (workers s))) as B1.
    pose proof (counts_sum (<[i:=w']> (workers s))) as B2.
    pose proof (counts_sum (workers s)) as B3.
    rewrite length_insert in B1, B2.
    assert (quiet (with_workers (<[i:=w']> (workers s))
                     (set_counter (site_field u)
                        (site_op u (get (site_field u) (CommandCounter (M s)))) s))) as Hq'
      by (eapply (quiet_insert s i w'); [exact Hq|reflexivity|reflexivity|apply site_next_quiet]).
    unfold total_of, pending_of, executing_of, complete_of in S1, S2, S3, S4.
    rewrite Hpc in S1, S2, S3, S4. subst w'. cbn [pc] in S1, S2, S3, S4.
    fold (total_of) in S1. fold (pending_of) in S2.
    fold (executing_of) in S3. fold (complete_of) in S4.
    destruct u as [| | |k| |]; cbn [site_next site_field site_op get] in *;
      try destruct k;
      cbn [after_loop getSecretsManagerSecretsPerRegion getSSMParametersPerRegion] in *;
      (constructor; [exact Hq'|..]; cbn -[incr decr]; rewrite ?incr_id, ?decr_id;
       unfold int_min, int_max in *; lia).
  - (* any other step *)
    destruct (step_worker_inv _ _ _ _ _ Hs) as (w0 & act0 & w0' & s1 & Hw0 & Hws0 & Hap & ->).
    rewrite Hw in Hw0. injection Hw0 as <-.
    rewrite Hws in Hws0. injection Hws0 as <- <-.
    destruct (apply_action_facts _ _ _ Hap) as (A1 & A2 & _).
    pose proof (apply_action_counter _ _ _ Hap) as Hcc.
    destruct (worker_step_counts E _ _ _ _ Hws Hns) as (C1 & C2 & C3 & C4).
    pose proof (sum_insert total_of _ i _ w' Hw) as S1.
    pose proof (sum_insert pending_of _ i _ w' Hw) as S2.
    pose proof (sum_insert executing_of _ i _ w' Hw) as S3.
    pose proof (sum_insert complete_of _ i _ w' Hw) as S4.
    assert (CommandCounter (M s1) = CommandCounter (M s)) as Hcc'.
    { rewrite Hcc. destruct act; try reflexivity. exfalso. eapply Hns. reflexivity. }
    constructor; cbn [workers main M with_workers]; rewrite ?A1, ?A2, ?Hcc'; try lia.
    eapply (quiet_insert s i w'); [exact Hq|exact A2|cbn; by rewrite ?A1|].
    eapply worker_step_quiet; eauto.
Qed.

End AtomicCounters.

Section AtomicRuns.
Context (E : Env) (a : Args) (m0 : SecretsModule).
Hypothesis Hbound : Z.of_nat (length (AWSRegions m0)) <= int_max.

Lemma going_loop_head l : going (loop_head l) = O.
Proof. destruct l; reflexivity. Qed.

Lemma loop_head_quiet l v r rest : loop_head l <> MPending (Some v) r rest.
Proof. destruct l; discriminate. Qed.

Lemma holding_loop_head l s : main s = loop_head l -> holding TMain s = false.
Proof. intros H. cbn. rewrite H. destruct l; reflexivity. Qed.

(** An uninterrupted step of main: the whole of [Pending++], or a step
    elsewhere. *)
Lemma atomic_main s s' :
  quiet s ->
  atomic_step E a TMain s = Some s' ->
  (exists r rest,
      main s = MPending None r rest
      /\ s' = with_main (MGo r rest)
                (set_counter FPending (incr (console.Pending (CommandCounter (M s)))) s))
  \/ ((forall l r rest, main s <> MPending l r rest)
      /\ PrintSecrets E a s = Some s'
      /\ forall v r rest, main s' <> MPending (Some v) r rest).
Proof.
  intros [Hq _] H. unfold atomic_step in H. cbn [step] in H.
  destruct (PrintSecrets E a s) as [s1|] eqn:Hs; [|discriminate].
  unfold PrintSecrets in Hs.
  destruct (main s) as [|r rest|[v|] r rest|r rest| | | | | | |] eqn:Hm.
  - right. destruct (prologue E a (M s)) as [es m]. simplify_eq.
    rewrite holding_loop_head with (l := AWSRegions m) in H by reflexivity.
    simplify_eq. split; [discriminate|]. split; [reflexivity|].
    intros v r rest. cbn. apply loop_head_quiet.
  - right. simplify_eq. cbn in H. simplify_eq. split; [discriminate|].
    split; [reflexivity|]. discriminate.
  - exfalso. eapply Hq. reflexivity.
  - left. simplify_eq. cbn in H. unfold PrintSecrets in H. cbn in H. simplify_eq.
    exists r, rest. split; reflexivity.
  - right. simplify_eq.
    rewrite holding_loop_head with (l := rest) in H by reflexivity.
    simplify_eq. split; [discriminate|]. split; [reflexivity|].
    intros v r' rest'. cbn. apply loop_head_quiet.
  - right. destruct (wg s); simplify_eq. cbn in H. simplify_eq.
    split; [discriminate|]. split; [reflexivity|]. discriminate.
  - right. destruct (spinner s); simplify_eq. cbn in H. simplify_eq.
    split; [discriminate|]. split; [reflexivity|]. discriminate.
  - right. destruct (spinner s); simplify_eq. cbn in H. simplify_eq.
    split; [discriminate|]. split; [reflexivity|]. discriminate.
  - right. destruct (receiver s); simplify_eq. cbn in H. simplify_eq.
    split; [discriminate|]. split; [reflexivity|]. discriminate.
  - right. destruct (receiver s); simplify_eq. cbn in H. simplify_eq.
    split; [discriminate|]. split; [reflexivity|]. discriminate.
  - right. destruct (epilogue E a (M s)) as [es m]. simplify_eq. cbn in H. simplify_eq.
    split; [discriminate|]. split; [reflexivity|]. discriminate.
  - discriminate.
Qed.

Lemma CInv_main s s' :
  Shape m0 s -> CInv s -> atomic_step E a TMain s = Some s' -> CInv s'.
Proof.
  intros HI [Hq Ht Hp He Hc] Hstep.
  pose proof (workers_le m0 _ HI) as Hlen.
  pose proof (counts_sum (workers s)) as B3.
  destruct (atomic_main _ _ Hq Hstep) as [(r & rest & Hm & ->)|(Hn & Hs & Hq')].
  - rewrite Hm in *. cbn [to_launch going length] in *.
    constructor; cbn -[incr]; rewrite ?incr_id; unfold int_min, int_max in *; try lia.
    destruct Hq as [_ Hq]. split; [discriminate|exact Hq].
  - assert (quiet s') as Hqs.
    { split; [exact Hq'|]. destruct Hq as [_ Hq].
      unfold PrintSecrets in Hs.
      destruct (main s) as [|r rest|[v|] r rest|r rest| | | | | | |] eqn:Hm;
        try (simplify_eq; exact Hq).
      - destruct (prologue E a (M s)). simplify_eq. exact Hq.
      - simplify_eq. cbn. intros i w Hi.
        apply lookup_app_Some in Hi as [Hi|[_ Hi]]; [eauto|].
        apply list_lookup_singleton_Some in Hi as [_ <-]. discriminate.
      - destruct (wg s); simplify_eq. exact Hq.
      - destruct (spinner s); simplify_eq. exact Hq.
      - destruct (spinner s); simplify_eq. exact Hq.
      - destruct (receiver s); simplify_eq. exact Hq.
      - destruct (receiver s); simplify_eq. exact Hq.
      - destruct (epilogue E a (M s)). simplify_eq. exact Hq. }
    unfold PrintSecrets in Hs.
    destruct (main s) as [|r rest|[v|] r rest|r rest| | | | | | |] eqn:Hm;
      try (exfalso; eapply Hn; reflexivity).
    + pose proof (prologue_keeps E a (M s)) as (_ & _ & K3 & _).
      destruct (prologue E a (M s)) as [es m]. cbn [snd] in K3. simplify_eq.
      constructor; [exact Hqs|..];
        cbn [workers main M with_main with_M emit]; rewrite ?going_loop_head, K3; assumption.
    + simplify_eq. constructor; [exact Hqs|..]; assumption.
    + simplify_eq.
      constructor; [exact Hqs|..];
        cbn [workers main M with_main with_workers];
        rewrite ?going_loop_head, sum_list_with_app; cbn in *; lia.
    + destruct (wg s); simplify_eq. constructor; [exact Hqs|..]; assumption.
    + destruct (spinner s); simplify_eq. constructor; [exact Hqs|..]; assumption.
    + destruct (spinner s); simplify_eq. constructor; [exact Hqs|..]; assumption.
    + destruct (receiver s); simplify_eq. constructor; [exact Hqs|..]; assumption.
    + destruct (receiver s); simplify_eq. constructor; [exact Hqs|..]; assumption.
    + pose proof (epilogue_other E a (M s) FTotal ltac:(discriminate)) as K1.
      pose proof (epilogue_other E a (M s) FPending ltac:(discriminate)) as K2.
      pose proof (epilogue_other E a (M s) FExecuting ltac:(discriminate)) as K3.
      pose proof (epilogue_other E a (M s) FComplete ltac:(discriminate)) as K4.
      destruct (epilogue E a (M s)) as [es m]. cbn [snd get] in *. simplify_eq.
      constructor; [exact Hqs|..]; cbn [workers main M with_main with_M emit going];
        cbn [going] in *; congruence.
    + discriminate.
Qed.

Lemma CInv_receiver s s' :
  CInv s -> atomic_step E a TReceiver s = Some s' -> CInv s'.
Proof.
  intros [Hq Ht Hp He Hc] H. unfold atomic_step in H. cbn in H.
  unfold Receiver in H. destruct (receiver s); simplify_eq.
  constructor; auto.
Qed.

Lemma Shape_atomic_step t s s' :
  Shape m0 s -> atomic_step E a t s = Some s' -> Shape m0 s'.
Proof.
  intros HI H. destruct (atomic_step_steps _ _ _ _ _ H) as [H1|(s1 & H1 & H2)].
  - eapply Shape_step; eauto.
  - eapply Shape_step; [|exact H2]. eapply Shape_step; eauto.
Qed.

Lemma CInv_run sched s s' :
  Shape m0 s -> CInv s -> atomic_run E a sched s = Some s' ->
  Shape m0 s' /\ CInv s'.
Proof.
  revert s. induction sched as [|t sched IH]; intros s HI HC H; cbn in H.
  - by simplify_eq.
  - destruct (atomic_step E a t s) as [s1|] eqn:Hs; [|discriminate].
    eapply IH; [eapply Shape_atomic_step; eauto| |exact H].
    destruct t; [eapply CInv_main|eapply CInv_receiver|eapply CInv_worker]; eauto.
Qed.

Lemma CInv_init : CommandCounter m0 = zero_counter -> CInv (init m0).
Proof.
  intros Hc. constructor; cbn; rewrite ?Hc; try reflexivity.
  split; [discriminate|]. intros i w H. destruct i; discriminate.
Qed.

End AtomicRuns.

(** ** The profile, the output fields and the report *)

Section Profile.
Context (E : Env) (a : Args).

Lemma writeLoot_profile d v m : AWSProfile (writeLoot E d v m).2 = AWSProfile m.
Proof.
  unfold writeLoot.
  match goal with |- context [on_error ?e ?es m] =>
    pose proof (on_error_keeps e es m) as (_ & _ & K1 & _);
    destruct (on_error e es m) as [es1 m1] end.
  match goal with |- context [on_error ?e ?es m1] =>
    pose proof (on_error_keeps e es m1) as (_ & _ & K2 & _);
    destruct (on_error e es m1) as [es2 m2] end.
  cbn [snd] in *. congruence.
Qed.

Lemma epilogue_profile m : AWSProfile (epilogue E a m).2 = AWSProfile m.
Proof.
  unfold epilogue. destruct (length _) as [|n]; [reflexivity|].
  match goal with |- context [writeLoot E ?d ?v ?m'] =>
    pose proof (writeLoot_profile d v m') as K;
    destruct (writeLoot E d v m') as [es m3] end.
  cbn [snd] in *. exact K.
Qed.

End Profile.

Section Report.
Context (E : Env) (a : Args) (m0 : SecretsModule).

Lemma prologue_profile m : AWSProfile (prologue E a m).2 = profile_of m.
Proof.
  unfold prologue, profile_of. cbn [snd].
  destruct (String.eqb (AWSProfile m) EmptyString) eqn:He; cbn; rewrite He; reflexivity.
Qed.

Lemma SInv_init : SInv E a m0 (init m0).
Proof. constructor; cbn; try done. Qed.

Lemma SInv_step t s s' :
  Shape m0 s -> SInv E a m0 s -> step E a t s = Some s' -> SInv E a m0 s'.
Proof.
  intros HI [Hst Hpr Hout Hend] Hstep.
  destruct (at_end_or_not (main s)) as [He|Hne].
  { rewrite (no_step_at_end E a m0 _ _ HI He) in Hstep. discriminate. }
  destruct t as [| |i].
  - cbn in Hstep. unfold PrintSecrets in Hstep.
    destruct (main s) as [|r rest|[v|] r rest|r rest| | | | | | |] eqn:Hm;
      try (specialize (Hpr ltac:(discriminate));
           specialize (Hout ltac:(discriminate) ltac:(discriminate))).
    + specialize (Hst eq_refl).
      pose proof (prologue_profile (M s)) as Kp.
      destruct (prologue E a (M s)) as [es m] eqn:Hp. simplify_eq. cbn [snd] in *.
      constructor; cbn [main M with_main with_M emit]; intros; try done.
      * destruct (AWSRegions m); done.
      * by rewrite Hp.
      * destruct (AWSRegions m); done.
    + simplify_eq. constructor; cbn; intros; done.
    + simplify_eq. constructor; cbn; intros; done.
    + simplify_eq. constructor; cbn; intros; done.
    + simplify_eq. constructor; cbn [main M with_main with_workers]; intros; try done.
      * destruct rest; done.
      * destruct rest; done.
    + destruct (wg s); simplify_eq. constructor; cbn; intros; done.
    + destruct (spinner s); simplify_eq. constructor; cbn; intros; done.
    + destruct (spinner s); simplify_eq. constructor; cbn; intros; done.
    + destruct (receiver s); simplify_eq. constructor; cbn; intros; done.
    + destruct (receiver s); simplify_eq. constructor; cbn; intros; done.
    + destruct (epilogue E a (M s)) as [es m] eqn:Hp. simplify_eq.
      constructor; cbn [main M with_main with_M emit events]; intros; try done.
      { pose proof (epilogue_profile E a (M s)) as K. rewrite Hp in K. cbn [snd] in K.
        congruence. }
      exists (M s), (events s). rewrite Hp. cbn [fst snd].
      pose proof (epilogue_keeps E a (M s)) as (K1 & _). rewrite Hp in K1.
      cbn [snd] in K1. auto.
    + discriminate.
  - cbn in Hstep. unfold Receiver in Hstep.
    destruct (receiver s) eqn:Heqr; simplify_eq.
    constructor; cbn [main M with_receiver with_M] in *; intros; try done.
    + exfalso. rewrite (sh_start _ _ HI) in Heqr by assumption. discriminate.
    + by apply Hpr.
    + by apply Hout.
  - destruct (step_worker_inv _ _ _ _ _ Hstep) as (w & act & w' & s1 & Hw & Hws & Hap & ->).
    destruct (apply_action_facts _ _ _ Hap) as (A1 & A2 & _).
    assert (AWSProfile (M s1) = AWSProfile (M s) /\ output (M s1) = output (M s)) as [K1 K2].
    { destruct act; cbn in Hap; simplify_eq; auto.
      - destruct (receiver s); simplify_eq. auto.
      - destruct (wg s); simplify_eq. auto. }
    assert (main s <> MStart) as Hns.
    { intros Hms. rewrite (sh_start _ _ HI Hms) in Hw. discriminate. }
    constructor; cbn [main M with_workers]; rewrite ?A2, ?K1, ?K2; intros; try done.
    + by apply Hpr.
    + by apply Hout.
Qed.

Lemma SInv_run sched s s' :
  Shape m0 s -> SInv E a m0 s -> run E a sched s = Some s' -> SInv E a m0 s'.
Proof.
  revert s. induction sched as [|t sched IH]; intros s HI HS H; cbn in H.
  - by simplify_eq.
  - destruct (step E a t s) as [s1|] eqn:Hs; [|discriminate].
    eapply IH; [eapply Shape_step; eauto|eapply SInv_step; eauto|exact H].
Qed.

End Report.

(** ** What the epilogue reports and writes *)

Section Epilogue.
Context (E : Env) (a : Args).

Lemma prologue_output m :
  output (prologue E a m).2
  = utils.mkOutput (verbosity a) (outputDirectory a) "secrets"
      (utils.Headers (output m)) (utils.Body (output m)) (utils.FilePath (output m)).
Proof. unfold prologue. cbn [snd]. destruct (String.eqb _ _); reflexivity. Qed.

Lemma loot_out_app l x : loot_out (l ++ [x]) = loot_out l +:+ loot_line x.
Proof. unfold loot_out. rewrite fold_left_app. reflexivity. Qed.

Lemma writeLoot_events d v m :
  exists es,
    (writeLoot E d v m).1
    = EMkdirAll (Join E [d; "cloudfox-output"; "aws"; AWSProfile m; "loot"]%string) :: es
    /\ EWriteFile
         (Join E [Join E [d; "cloudfox-output"; "aws"; AWSProfile m; "loot"]%string;
                  "pull-secrets-commands.txt"]%string)
         (loot_out (Secrets m)) ∈ es.
Proof.
  unfold writeLoot.
  set (path := Join E [d; "cloudfox-output"; "aws"; AWSProfile m; "loot"]%string).
  assert (exists es1 m1, on_error (MkdirAll E path) [EMkdirAll path] m = (EMkdirAll path :: es1, m1)
                         /\ Secrets m1 = Secrets m) as (es1 & m1 & -> & ->).
  { destruct (MkdirAll E path); cbn; eauto. }
  match goal with |- context [on_error ?e ?es m1] =>
    assert (exists es2 m2, on_error e es m1 = (es ++ es2, m2)) as (es2 & m2 & ->)
      by (destruct e; cbn; [eexists [_], _; reflexivity|eexists [], _; by rewrite app_nil_r]) end.
  cbn [fst]. eexists. split.
  - rewrite <- !app_assoc. cbn [app]. reflexivity.
  - apply elem_of_app. right. apply list_elem_of_here.
Qed.

(** Nothing found: one message. *)
Lemma epilogue_none m :
  utils.Body (output m) = [] -> Secrets m = [] ->
  (epilogue E a m).1
  = [EPrint ("[" +:+ cyan E (utils.CallingModule (output m))
             +:+ "] No secrets found, skipping the creation of an output file." +:+ nl)].
Proof. intros Hb Hs. unfold epilogue. rewrite Hb, Hs. reflexivity. Qed.

(** Something found: the table, the loot file, and the count. *)
Lemma epilogue_found m :
  utils.Body (output m) = [] -> Secrets m <> [] ->
  exists es,
    (epilogue E a m).1
    = EOutputSelector (utils.Verbosity (output m)) (outputFormat a)
        ["Service"; "Region"; "Name"; "Description"]%string (map row (Secrets m))
        (Join E [outputDirectory a; "cloudfox-output"; "aws"; AWSProfile m]%string)
        (utils.CallingModule (output m)) (utils.CallingModule (output m))
      :: EMkdirAll (Join E [outputDirectory a; "cloudfox-output"; "aws"; AWSProfile m; "loot"]%string)
      :: es
      ++ [EPrint ("[" +:+ cyan E (utils.CallingModule (output m)) +:+ "] "
                  +:+ Itoa (Z.of_nat (length (Secrets m))) +:+ " secrets found." +:+ nl)]
    /\ EWriteFile
         (Join E [Join E [outputDirectory a; "cloudfox-output"; "aws"; AWSProfile m; "loot"]%string;
                  "pull-secrets-commands.txt"]%string)
         (loot_out (Secrets m)) ∈ es
    /\ utils.FilePath (output (epilogue E a m).2)
       = Join E [outputDirectory a; "cloudfox-output"; "aws"; AWSProfile m]%string.
Proof.
  intros Hb Hs. unfold epilogue. rewrite Hb. cbn [app].
  destruct (Secrets m) as [|x l] eqn:Hsec; [done|]. cbn [map length].
  match goal with |- context [writeLoot E ?d ?v ?m'] =>
    destruct (writeLoot_events d v m') as (es & He & Hin);
    pose proof (writeLoot_keeps E d v m') as (_ & _ & Ko);
    destruct (writeLoot E d v m') as [es' m3] end.
  cbn [fst snd] in *. subst es'. cbn [AWSProfile Secrets with_output] in *.
  rewrite Hsec in Hin. exists es. split; [|split].
  - unfold found_message. rewrite Ko. cbn. rewrite length_map. reflexivity.
  - exact Hin.
  - rewrite Ko. reflexivity.
Qed.

End Epilogue.

(** * The properties of the enumeration core *)

Section Reach.
Context (E : Env) (a : Args) (m0 : SecretsModule).

Lemma reach_Inv F sched s :
  all_finite E F (AWSRegions m0) = true ->
  run E a sched (init m0) = Some s -> Inv E F m0 s.
Proof. intros Hf H. eapply Inv_run; [|exact H]. by apply Inv_init. Qed.

Lemma reach_Shape sched s : run E a sched (init m0) = Some s -> Shape m0 s.
Proof. intros H. eapply Shape_run; [|exact H]. apply Shape_init. Qed.

Lemma reach_SInv sched s : run E a sched (init m0) = Some s -> SInv E a m0 s.
Proof.
  intros H. eapply SInv_run; [| |exact H]; [apply Shape_init|apply SInv_init].
Qed.

Lemma all_ok_finite F l : all_ok E F l = true -> all_finite E F l = true.
Proof.
  unfold all_ok, all_finite. rewrite !forallb_forall. intros H r Hr.
  specialize (H r Hr). unfold region_ok in H. by apply andb_true_iff in H as [H _].
Qed.

Lemma all_items_records F l : all_items E F l = map item_of (all_records E F l).
Proof.
  unfold all_items, all_records. induction l as [|r l IH]; [reflexivity|].
  cbn [map concat]. rewrite map_app, <- IH. f_equal.
  unfold region_items, region_records, source_items.
  rewrite map_app, !map_map. reflexivity.
Qed.

Lemma length_all_records F l : length (all_records E F l) = total_records E F l.
Proof.
  unfold all_records, total_records. induction l as [|r l IH]; [reflexivity|].
  cbn [map concat sum_list_with]. rewrite length_app, IH. f_equal.
  unfold region_records. by rewrite length_app, !length_map.
Qed.

Lemma stopped_run_stable F sched s s' :
  Inv E F m0 s -> stopped s -> run E a sched s = Some s' ->
  Secrets (M s') = Secrets (M s) /\ stopped s'.
Proof.
  revert s. induction sched as [|t sched IH]; intros s HI Hs H; cbn in H.
  - by simplify_eq.
  - destruct (step E a t s) as [s1|] eqn:Hst; [|discriminate].
    destruct (stopped_stable E a F m0 _ _ _ HI Hs Hst) as [H1 H2].
    destruct (IH s1 (Inv_step _ _ _ _ _ _ _ HI Hst) H2 H) as [H3 H4].
    split; [congruence|exact H4].
Qed.

End Reach.

(** C1.  Completeness.  For every list of regions and both sources, if every
    listing call succeeds (every chain of pages ends without a failure), then
    the run can be completed, and at the end of every run [m.Secrets] holds
    exactly one item for each raw record returned across every page of every
    source of every region: it is a permutation of the items of the records,
    so nothing is lost or duplicated, and its length is the number of
    records. *)
Theorem completeness (E : Env) (a : Args) (F : nat) (m0 : SecretsModule) :
  Secrets m0 = [] ->
  all_ok E F (AWSRegions m0) = true ->
  (exists sched s, run E a sched (init m0) = Some s /\ finished s)
  /\ forall sched s,
       run E a sched (init m0) = Some s -> finished s ->
       Secrets (M s) ≡ₚ map item_of (all_records E F (AWSRegions m0))
       /\ length (Secrets (M s)) = total_records E F (AWSRegions m0).
Proof.
  intros Hs0 Hok. pose proof (all_ok_finite E _ _ Hok) as Hfin. split.
  - destruct (completes E a F m0 (init m0) (Inv_init E F m0 Hfin)) as (sched & s & H & Hf & _).
    eauto.
  - intros sched s Hrun Hf.
    pose proof (stopped_items E F m0 s (reach_Inv E a m0 F _ _ Hfin Hrun)) as Hp.
    rewrite Hs0, all_items_records in Hp. cbn [app] in Hp.
    assert (stopped s) as Hst by (right; right; exact Hf).
    specialize (Hp Hst). split; [exact Hp|].
    rewrite Hp, length_map. apply length_all_records.
Qed.

(** C1 at a concrete input: two regions, sources of three pages and of one
    page, every call succeeding. *)
Lemma completeness_witness :
  (exists sched s,
      run paged_env scenario_args sched (init (scenario_module two_regions)) = Some s
      /\ finished s)
  /\ forall sched s,
       run paged_env scenario_args sched (init (scenario_module two_regions)) = Some s ->
       finished s ->
       Secrets (M s) ≡ₚ map item_of (all_records paged_env 3 two_regions)
       /\ length (Secrets (M s)) = total_records paged_env 3 two_regions.
Proof.
  apply (completeness paged_env scenario_args 3 (scenario_module two_regions));
    reflexivity.
Defined.

(** C2.  Shutdown ordering.  In every run, from the moment the receiver has
    taken the stop signal, every submission of every worker is in
    [m.Secrets]: with [N] regions each submitting [M] items, it holds
    exactly [N * M] items; and nothing changes [m.Secrets] afterwards. *)
Theorem shutdown_ordering (E : Env) (a : Args) (F : nat) (m0 : SecretsModule)
  (each : nat) :
  Secrets m0 = [] ->
  all_finite E F (AWSRegions m0) = true ->
  forallb (fun r => Nat.eqb (length (region_items E F r)) each) (AWSRegions m0) = true ->
  forall sched s,
    run E a sched (init m0) = Some s -> stopped s ->
    Secrets (M s) ≡ₚ all_items E F (AWSRegions m0)
    /\ length (Secrets (M s)) = (length (AWSRegions m0) * each)%nat
    /\ forall sched' s',
         run E a sched' s = Some s' -> Secrets (M s') = Secrets (M s) /\ stopped s'.
Proof.
  intros Hs0 Hfin Heach sched s Hrun Hst.
  pose proof (reach_Inv E a m0 F _ _ Hfin Hrun) as HI.
  pose proof (stopped_items E F m0 s HI Hst) as Hp. rewrite Hs0 in Hp. cbn [app] in Hp.
  split; [exact Hp|]. split.
  - rewrite Hp. unfold all_items. clear -Heach.
    induction (AWSRegions m0) as [|r l IH]; [reflexivity|].
    cbn [forallb] in Heach. apply andb_true_iff in Heach as [H1 H2].
    apply Nat.eqb_eq in H1. cbn [map concat length]. rewrite length_app, H1, (IH H2). lia.
  - intros sched' s' H'. eapply stopped_run_stable; eauto.
Qed.

(** C2 at a concrete input: two regions of four items each, at the moment
    the stop signal has been taken. *)
Lemma shutdown_ordering_witness :
  Secrets (M paged_stopped) ≡ₚ all_items paged_env 3 two_regions
  /\ length (Secrets (M paged_stopped)) = (2 * 4)%nat
  /\ forall sched' s',
       run paged_env scenario_args sched' paged_stopped = Some s' ->
       Secrets (M s') = Secrets (M paged_stopped) /\ stopped s'.
Proof.
  apply (shutdown_ordering paged_env scenario_args 3 (scenario_module two_regions) 4
           eq_refl eq_refl eq_refl paged_schedule paged_stopped).
  - vm_compute. reflexivity.
  - left. reflexivity.
Defined.

Section WholeWorker.
Context (E : Env) (F : nat).

Lemma after_failures_complete n c :
  console.Complete (after_failures n c) = console.Complete c.
Proof. destruct n, c; reflexivity. Qed.

(** [executeChecks] on its own, for finite sources: whether or not a source
    fails it runs to its end, sends the items of both sources, and stores
    [Complete] exactly once. *)
Lemma run_worker r c :
  region_finite E F r = true ->
  exists n acts c',
    worker_run E n c (executeChecks r) = (acts, c', mkWorker r WExit)
    /\ stores_of FComplete acts = [incr (console.Complete c)]
    /\ sends_of acts = region_items E F r.
Proof.
  intros Hf. apply andb_true_iff in Hf as [H1 H2].
  set (c1 := set FExecuting (incr (console.Executing
                 (set FPending (decr (console.Pending (set FTotal (incr (console.Total c)) c)))
                    (set FTotal (incr (console.Total c)) c))))
               (set FPending (decr (console.Pending (set FTotal (incr (console.Total c)) c)))
                  (set FTotal (incr (console.Total c)) c))).
  assert (worker_run E 6 c (executeChecks r)
          = ([ALoad FTotal; AStore FTotal (incr (console.Total c));
              ALoad FPending;
              AStore FPending (decr (console.Pending (set FTotal (incr (console.Total c)) c)));
              ALoad FExecuting;
              AStore FExecuting
                (incr (console.Executing
                         (set FPending (decr (console.Pending (set FTotal (incr (console.Total c)) c)))
                            (set FTotal (incr (console.Total c)) c))))],
             c1, mkWorker r (WCall SecretsManager None))) as HA by reflexivity.
  destruct (run_loop E F SecretsManager r None c1 H1) as (n1 & a1 & HB & Hs1 & _ & Hst1).
  set (c2 := after_failures (source_failures E F SecretsManager r None) c1) in *.
  destruct (run_loop E F SSM r None c2 H2) as (n2 & a2 & HC & Hs2 & _ & Hst2).
  set (c3 := after_failures (source_failures E F SSM r None) c2) in *.
  assert (exists c4,
            worker_run E 5 c3 (mkWorker r (after_loop SSM))
            = ([ALoad FExecuting; AStore FExecuting (decr (console.Executing c3));
                ALoad FComplete; AStore FComplete (incr (console.Complete c3)); AWgDone],
               c4, mkWorker r WExit)) as (c4 & HD).
  { exists (set FComplete (incr (console.Complete c3))
              (set FExecuting (decr (console.Executing c3)) c3)).
    clearbody c3. destruct c3. reflexivity. }
  pose proof (worker_run_trans E _ _ _ _ _ _ _ _ _ _ HC HD) as HCD.
  pose proof (worker_run_trans E _ _ _ _ _ _ _ _ _ _ HB HCD) as HBCD.
  pose proof (worker_run_trans E _ _ _ _ _ _ _ _ _ _ HA HBCD) as HALL.
  eexists _, _, _. split; [exact HALL|]. split.
  - rewrite !stores_of_app, Hst1, Hst2. cbn.
    subst c3 c2 c1. rewrite !after_failures_complete. destruct c. reflexivity.
  - rewrite !sends_of_app, Hs1, Hs2. cbn. by rewrite app_nil_r.
Qed.

Lemma failures_left_exited ws :
  sum_list_with live ws = O -> sum_list_with (failures_left E F) ws = O.
Proof.
  induction ws as [|[r p] ws IH]; [reflexivity|].
  cbn [sum_list_with]. intros H.
  assert (live (mkWorker r p) = O /\ sum_list_with live ws = O) as [H1 H2] by lia.
  rewrite (IH H2). destruct p; try discriminate. reflexivity.
Qed.

Lemma total_failures_elem l k r :
  r ∈ l -> (source_failures E F k r None <= total_failures E F l)%nat.
Proof.
  unfold total_failures. induction 1 as [r l|r r' l _ IH]; cbn [sum_list_with].
  - unfold region_failures. destruct k; lia.
  - lia.
Qed.

Lemma all_items_elem l k r x :
  r ∈ l -> x ∈ source_items E F k r None -> x ∈ all_items E F l.
Proof.
  unfold all_items. intros Hr Hx. induction Hr as [r l|r r' l _ IH]; cbn [map concat].
  - apply elem_of_app. left. unfold region_items. apply elem_of_app.
    destruct k; auto.
  - apply elem_of_app. right. by apply IH.
Qed.

End WholeWorker.

Section ReachErrors.
Context (E : Env) (a : Args) (F : nat) (m0 : SecretsModule).

Lemma reach_EInv sched s :
  2 * Z.of_nat (length (AWSRegions m0)) + 2 <= int_max ->
  CommandCounter m0 = zero_counter ->
  all_finite E F (AWSRegions m0) = true ->
  run E a sched (init m0) = Some s -> EInv E F m0 s.
Proof.
  intros Hb Hc Hf H.
  eapply EInv_run; [exact Hb|by apply Inv_init|by apply EInv_init|exact H].
Qed.

End ReachErrors.

(** C5.  Partial-failure isolation.  When a source of a region fails, its
    loop logs the error, increments [Error] and stops; the worker of that
    region still runs to its end and stores [Complete] exactly once; and in
    every run [m.Secrets] ends up holding every item of every source of every
    region (for the failing source, those of the pages before the failure),
    with [Error] at least 1. *)
Theorem partial_failure_isolation (E : Env) (a : Args) (F : nat) (m0 : SecretsModule)
  (k0 : kind) (r0 : string) :
  Secrets m0 = [] ->
  CommandCounter m0 = zero_counter ->
  2 * Z.of_nat (length (AWSRegions m0)) + 2 <= int_max ->
  all_finite E F (AWSRegions m0) = true ->
  r0 ∈ AWSRegions m0 ->
  source_failures E F k0 r0 None = 1%nat ->
  (forall tok err c,
      fetchPage E k0 r0 tok = Failure err ->
      worker_run E 4 c (mkWorker r0 (WCall k0 tok))
      = ([ACall k0 r0 tok; ALog err; ALoad FError; AStore FError (incr (console.Error c))],
         set FError (incr (console.Error c)) c,
         mkWorker r0 (after_loop k0)))
  /\ (forall c, exists n acts c',
         worker_run E n c (executeChecks r0) = (acts, c', mkWorker r0 WExit)
         /\ stores_of FComplete acts = [incr (console.Complete c)])
  /\ forall sched s,
       run E a sched (init m0) = Some s -> stopped s ->
       (forall k r x, r ∈ AWSRegions m0 -> x ∈ source_items E F k r None ->
                      x ∈ Secrets (M s))
       /\ 1 <= console.Error (CommandCounter (M s)).
Proof.
  intros Hs0 Hc0 Hb Hfin Hr0 Hfail. split; [|split].
  - intros tok err c Hf. apply run_failure. exact Hf.
  - intros c.
    assert (region_finite E F r0 = true) as Hrf.
    { unfold all_finite in Hfin. rewrite forallb_forall in Hfin. apply Hfin.
      by apply list_elem_of_In. }
    destruct (run_worker E F r0 c Hrf) as (n & acts & c' & H1 & H2 & _). eauto.
  - intros sched s Hrun Hst.
    pose proof (reach_Inv E a m0 F _ _ Hfin Hrun) as HI.
    pose proof (reach_EInv E a F m0 _ _ Hb Hc0 Hfin Hrun) as HE.
    pose proof (stopped_items E F m0 s HI Hst) as Hp. rewrite Hs0 in Hp. cbn [app] in Hp.
    split.
    + intros k r x Hr Hx. rewrite Hp. eapply all_items_elem; eauto.
    + apply (e_one _ _ _ _ HE). unfold failures_done.
      pose proof (inv_joined _ _ _ _ HI (stopped_joined _ Hst)) as Hj.
      rewrite (failures_left_exited E F _ Hj).
      pose proof (total_failures_elem E F _ k0 _ Hr0) as Ht.
      assert (to_launch (main s) (M s) = []) as ->
        by (destruct Hst as [H|[H|H]]; rewrite H; reflexivity).
      cbn. lia.
Qed.

(** C5 at the scenario: the second source of ["us-east-1"] fails. *)
Lemma partial_failure_isolation_witness :
  (forall k r x, r ∈ two_regions -> x ∈ source_items scenario_env 1 k r None ->
                 x ∈ Secrets (M scenario_final))
  /\ 1 <= console.Error (CommandCounter (M scenario_final)).
Proof.
  apply (proj2 (proj2 (partial_failure_isolation scenario_env scenario_args 1
                         (scenario_module two_regions) SSM "us-east-1" eq_refl eq_refl
                         ltac:(vm_compute; discriminate) eq_refl
                         ltac:(apply list_elem_of_here) eq_refl))
           scenario_schedule scenario_final).
  - vm_compute. reflexivity.
  - right. right. reflexivity.
Defined.

(** ** Strings *)

Lemma append_nil_l (s : string) : EmptyString +:+ s = s.
Proof. reflexivity. Qed.

Lemma append_cons c (s t : string) : String c s +:+ t = String c (s +:+ t).
Proof. reflexivity. Qed.

Lemma append_nil_r (s : string) : s +:+ EmptyString = s.
Proof. induction s as [|c s IH]; [reflexivity|]. by rewrite append_cons, IH. Qed.

Lemma append_assoc (s1 s2 s3 : string) : (s1 +:+ s2) +:+ s3 = s1 +:+ (s2 +:+ s3).
Proof. induction s1 as [|c s1 IH]; [reflexivity|]. by rewrite !append_cons, IH. Qed.

Lemma loot_out_concat l :
  loot_out l = loot_header +:+ String.concat EmptyString (map loot_line l).
Proof.
  unfold loot_out. generalize loot_header.
  induction l as [|x l IH]; intros h; cbn [fold_left map].
  - cbn [String.concat]. by rewrite append_nil_r.
  - rewrite IH, append_assoc. f_equal.
    destruct l as [|y l]; cbn [map String.concat]; [by rewrite append_nil_r|reflexivity].
Qed.

Section FinalState.
Context (E : Env) (a : Args) (m0 : SecretsModule).

(** What the last step of a run leaves, for a module that came with an empty
    table. *)
Lemma finished_epilogue sched s :
  utils.Body (output m0) = [] ->
  run E a sched (init m0) = Some s -> finished s ->
  exists m pre,
    AWSProfile m = profile_of m0
    /\ utils.CallingModule (output m) = "secrets"%string
    /\ utils.Body (output m) = []
    /\ Secrets m = Secrets (M s)
    /\ M s = (epilogue E a m).2
    /\ events s = pre ++ (epilogue E a m).1.
Proof.
  intros Hb Hrun Hf.
  destruct (s_end _ _ _ _ (reach_SInv E a m0 _ _ Hrun) Hf) as (m & pre & H1 & H2 & H3 & H4 & H5).
  exists m, pre. rewrite prologue_output in H2.
  repeat split; try assumption; rewrite H2; [reflexivity|exact Hb].
Qed.

End FinalState.

(** C8.  No error aborts the run: with sources that are finite, whether their
    calls succeed or fail, every run can be continued to its end from
    wherever it stands, and however it is scheduled it takes the same number
    of steps; a module without regions runs to its end with an empty
    [m.Secrets]; and the last thing every finished run prints is the report
    of what it found, the number of secrets, or that there are none. *)
Theorem run_never_aborts (E : Env) (a : Args) (m0 : SecretsModule) :
  Secrets m0 = [] ->
  utils.Body (output m0) = [] ->
  (forall F sched s,
      all_finite E F (AWSRegions m0) = true ->
      run E a sched (init m0) = Some s ->
      exists sched' s',
        run E a sched' s = Some s' /\ finished s'
        /\ (length sched + length sched' = measure E F (init m0))%nat)
  /\ (AWSRegions m0 = [] ->
      exists sched s,
        run E a sched (init m0) = Some s /\ finished s /\ Secrets (M s) = [])
  /\ forall sched s,
       run E a sched (init m0) = Some s -> finished s ->
       last (events s)
       = Some (EPrint
                 match length (Secrets (M s)) with
                 | O => "[" +:+ cyan E "secrets"
                        +:+ "] No secrets found, skipping the creation of an output file."
                        +:+ nl
                 | S _ => "[" +:+ cyan E "secrets" +:+ "] "
                          +:+ Itoa (Z.of_nat (length (Secrets (M s))))
                          +:+ " secrets found." +:+ nl
                 end).
Proof.
  intros Hs0 Hb. split; [|split].
  - intros F sched s Hfin Hrun.
    destruct (completes E a F m0 s (reach_Inv E a m0 F _ _ Hfin Hrun)) as (l & s' & H1 & H2 & H3).
    exists l, s'. split; [exact H1|]. split; [exact H2|].
    rewrite (measure_run E a F m0 _ _ _ (Inv_init E F m0 Hfin) Hrun). lia.
  - intros Hnil.
    assert (all_finite E 0 (AWSRegions m0) = true) as Hfin by (rewrite Hnil; reflexivity).
    destruct (completes E a 0 m0 (init m0) (Inv_init E 0 m0 Hfin)) as (l & s & H1 & H2 & _).
    exists l, s. split; [exact H1|]. split; [exact H2|].
    pose proof (stopped_items E 0 m0 s (reach_Inv E a m0 0 _ _ Hfin H1)) as Hp.
    rewrite Hs0, Hnil in Hp. cbn in Hp.
    apply Permutation_nil_r. apply Hp. right. right. exact H2.
  - intros sched s Hrun Hf.
    destruct (finished_epilogue E a m0 _ _ Hb Hrun Hf) as (m & pre & _ & Hc & Hbm & Hsec & _ & Hev).
    rewrite Hev, <- Hsec. destruct (Secrets m) as [|x l] eqn:Hl.
    + rewrite (epilogue_none E a m Hbm Hl), last_snoc, Hc. reflexivity.
    + destruct (epilogue_found E a m Hbm) as (es & He & _); [by rewrite Hl|].
      rewrite He, Hl, Hc.
      rewrite !app_comm_cons, app_assoc, last_snoc. reflexivity.
Qed.

(** C8 at concrete inputs: no regions at all, and the scenario. *)
Lemma run_never_aborts_witness :
  (exists sched s,
      run scenario_env scenario_args sched (init (scenario_module [])) = Some s
      /\ finished s /\ Secrets (M s) = [])
  /\ last (events scenario_final)
     = Some (EPrint
               match length (Secrets (M scenario_final)) with
               | O => "[" +:+ cyan scenario_env "secrets"
                      +:+ "] No secrets found, skipping the creation of an output file."
                      +:+ nl
               | S _ => "[" +:+ cyan scenario_env "secrets" +:+ "] "
                        +:+ Itoa (Z.of_nat (length (Secrets (M scenario_final))))
                        +:+ " secrets found." +:+ nl
               end).
Proof.
  split.
  - exact (proj1 (proj2 (run_never_aborts scenario_env scenario_args (scenario_module [])
                           eq_refl eq_refl)) eq_refl).
  - apply (proj2 (proj2 (run_never_aborts scenario_env scenario_args
                           (scenario_module two_regions) eq_refl eq_refl))
             scenario_schedule scenario_final).
    + vm_compute. reflexivity.
    + reflexivity.
Defined.

Lemma all_records_region (E : Env) (F : nat) l (x : kind * string * entry) :
  x ∈ all_records E F l -> x.1.2 ∈ l.
Proof.
  unfold all_records. induction l as [|r l IH]; cbn [map concat]; intros H.
  - by apply not_elem_of_nil in H.
  - apply elem_of_app in H as [H|H]; [|right; by apply IH].
    unfold region_records in H. apply elem_of_app in H as [H|H];
      apply list_elem_of_fmap in H as (e & -> & _); left.
Qed.

(** C9.  The loot file holds one command for each item, in order: for an
    item of Secrets Manager the get-secret-value command, for an item of SSM
    the get-parameter command, each with the region and the name of the item
    as they are; every secret of a finished run is such an item, and the run
    writes the file with the commands of all of them. *)
Theorem loot_commands (E : Env) (a : Args) (F : nat) (m0 : SecretsModule) :
  Secrets m0 = [] ->
  utils.Body (output m0) = [] ->
  all_finite E F (AWSRegions m0) = true ->
  (forall k r e,
      loot_line (item k r e)
      = match k with
        | SecretsManager =>
            "aws --profile $profile --region " +:+ r
            +:+ " secretsmanager get-secret-value --secret-id "
            +:+ aws.ToString (eName e) +:+ nl
        | SSM =>
            "aws --profile $profile --region " +:+ r
            +:+ " ssm get-parameter --with-decryption --name "
            +:+ aws.ToString (eName e) +:+ nl
        end)
  /\ (forall l, loot_out l = loot_header +:+ String.concat EmptyString (map loot_line l))
  /\ forall sched s,
       run E a sched (init m0) = Some s -> finished s -> Secrets (M s) <> [] ->
       (forall x, x ∈ Secrets (M s) -> exists k r e, x = item k r e /\ r ∈ AWSRegions m0)
       /\ EWriteFile
            (Join E [Join E [outputDirectory a; "cloudfox-output"; "aws"; profile_of m0; "loot"]%string;
                     "pull-secrets-commands.txt"]%string)
            (loot_out (Secrets (M s))) ∈ events s.
Proof.
  intros Hs0 Hb Hfin. split; [|split].
  - intros k r e. unfold loot_line, item. cbn [AWSService Region Name].
    destruct k; cbn [kind_name].
    + change (String.eqb "SecretsManager" "SecretsManager") with true.
      change (String.eqb "SecretsManager" "SSM") with false.
      cbv iota. by rewrite append_nil_r.
    + reflexivity.
  - apply loot_out_concat.
  - intros sched s Hrun Hf Hne. split.
    + intros x Hx.
      pose proof (stopped_items E F m0 s (reach_Inv E a m0 F _ _ Hfin Hrun)) as Hp.
      rewrite Hs0, all_items_records in Hp. cbn [app] in Hp.
      rewrite Hp in Hx by (right; right; exact Hf).
      apply list_elem_of_fmap in Hx as ([[k r] e] & -> & Hin).
      exists k, r, e. split; [reflexivity|].
      apply (all_records_region E F _ _ Hin).
    + destruct (finished_epilogue E a m0 _ _ Hb Hrun Hf) as (m & pre & Hp & _ & Hbm & Hsec & _ & Hev).
      destruct (epilogue_found E a m Hbm) as (es & He & Hin & _); [by rewrite Hsec|].
      rewrite Hev, He, <- Hsec, <- Hp.
      apply elem_of_app. right. do 2 apply list_elem_of_further.
      apply elem_of_app. left. exact Hin.
Qed.

(** C9 at the scenario. *)
Lemma loot_commands_witness :
  (forall x, x ∈ Secrets (M scenario_final) ->
             exists k r e, x = item k r e /\ r ∈ two_regions)
  /\ EWriteFile
       (Join scenario_env
          [Join scenario_env ["out"; "cloudfox-output"; "aws";
                              profile_of (scenario_module two_regions); "loot"]%string;
           "pull-secrets-commands.txt"]%string)
       (loot_out (Secrets (M scenario_final))) ∈ events scenario_final.
Proof.
  apply (proj2 (proj2 (loot_commands scenario_env scenario_args 1 (scenario_module two_regions)
                         eq_refl eq_refl eq_refl))
           scenario_schedule scenario_final).
  - vm_compute. reflexivity.
  - reflexivity.
  - vm_compute. discriminate.
Defined.

Section ProfilePaths.
Context (E : Env) (a : Args).

(** When the epilogue leaves a table that is not empty, it has computed the
    output path and the loot directory from the profile. *)
Lemma epilogue_paths m :
  utils.Body (output (epilogue E a m).2) <> [] ->
  utils.FilePath (output (epilogue E a m).2)
  = Join E [outputDirectory a; "cloudfox-output"; "aws"; AWSProfile m]%string
  /\ EMkdirAll (Join E [outputDirectory a; "cloudfox-output"; "aws"; AWSProfile m; "loot"]%string)
     ∈ (epilogue E a m).1.
Proof.
  unfold epilogue.
  destruct (length (utils.Body (output m) ++ map row (Secrets m))) as [|n] eqn:Hl.
  - cbn. intros H. exfalso. apply H. by apply length_zero_iff_nil.
  - intros _.
    match goal with |- context [writeLoot E ?d ?v ?m'] =>
      destruct (writeLoot_events E d v m') as (es & He & _);
      pose proof (writeLoot_keeps E d v m') as (_ & _ & Ko);
      destruct (writeLoot E d v m') as [es' m3] end.
    cbn [fst snd] in *. subst es'. rewrite Ko. split; [reflexivity|].
    apply list_elem_of_further. cbn [AWSProfile with_output]. apply list_elem_of_here.
Qed.

Lemma first_step m0 t s1 :
  step E a t (init m0) = Some s1 -> t = TMain /\ main s1 <> MStart.
Proof.
  destruct t as [| |i]; intros H; try discriminate.
  split; [reflexivity|]. eapply PrintSecrets_leaves_start. exact H.
Qed.

End ProfilePaths.

(** C10.  The first step of [PrintSecrets] fixes the profile: when
    [AWSProfile] is the empty string it becomes the account and the user id
    of the caller joined by a dash, otherwise it stays as it is; no step
    changes it afterwards, and the output path and the loot directory, which
    only the last step computes, are built from it. *)
Theorem default_profile (E : Env) (a : Args) (m0 : SecretsModule) :
  forall sched s,
    run E a sched (init m0) = Some s -> main s <> MStart ->
    AWSProfile (M s)
    = (if String.eqb (AWSProfile m0) EmptyString
       then aws.ToString (sts.Account (Caller m0)) +:+ "-"
            +:+ aws.ToString (sts.UserId (Caller m0))
       else AWSProfile m0)
    /\ (forall t s1, step E a t (init m0) = Some s1 -> t = TMain /\ main s1 <> MStart)
    /\ (finished s -> utils.Body (output (M s)) <> [] ->
        utils.FilePath (output (M s))
        = Join E [outputDirectory a; "cloudfox-output"; "aws"; AWSProfile (M s)]%string
        /\ EMkdirAll (Join E [outputDirectory a; "cloudfox-output"; "aws";
                              AWSProfile (M s); "loot"]%string) ∈ events s).
Proof.
  intros sched s Hrun Hns.
  pose proof (reach_SInv E a m0 _ _ Hrun) as HS.
  pose proof (s_profile _ _ _ _ HS Hns) as Hp. split; [exact Hp|].
  split; [apply first_step|].
  intros Hf Hb.
  destruct (s_end _ _ _ _ HS Hf) as (m & pre & H1 & _ & _ & H4 & H5).
  rewrite H4 in Hb. destruct (epilogue_paths E a m Hb) as [K1 K2].
  rewrite Hp, <- H1, H4, H5. split; [exact K1|].
  apply elem_of_app. right. exact K2.
Qed.

(** C10 at the scenario: the module comes without a profile. *)
Lemma default_profile_witness :
  AWSProfile (M scenario_final) = "123456789012-AIDAEXAMPLE"%string
  /\ (forall t s1, step scenario_env scenario_args t (init (scenario_module two_regions)) = Some s1 ->
                   t = TMain /\ main s1 <> MStart)
  /\ (finished scenario_final -> utils.Body (output (M scenario_final)) <> [] ->
      utils.FilePath (output (M scenario_final))
      = Join scenario_env ["out"; "cloudfox-output"; "aws"; AWSProfile (M scenario_final)]%string
      /\ EMkdirAll (Join scenario_env ["out"; "cloudfox-output"; "aws";
                                       AWSProfile (M scenario_final); "loot"]%string)
         ∈ events scenario_final).
Proof.
  apply (default_profile scenario_env scenario_args (scenario_module two_regions)
           scenario_schedule scenario_final).
  - vm_compute. reflexivity.
  - discriminate.
Defined.

(** ** The progress counters *)

Section Convergence.
Context (E : Env) (a : Args) (m0 : SecretsModule).

Lemma exited_counts (ws : list worker) :
  sum_list_with live ws = O ->
  sum_list_with pending_of ws = O /\ sum_list_with executing_of ws = O
  /\ sum_list_with complete_of ws = length ws /\ sum_list_with total_of ws = length ws.
Proof.
  induction ws as [|[r p] ws IH]; [auto|].
  cbn [sum_list_with length]. intros H.
  assert (live (mkWorker r p) = O /\ sum_list_with live ws = O) as [H1 H2] by lia.
  destruct (IH H2) as (K1 & K2 & K3 & K4). rewrite K1, K2, K3, K4.
  destruct p; try discriminate. auto.
Qed.

Lemma reach_CInv sched s :
  CommandCounter m0 = zero_counter ->
  Z.of_nat (length (AWSRegions m0)) <= int_max ->
  atomic_run E a sched (init m0) = Some s -> Shape m0 s /\ CInv s.
Proof.
  intros Hc Hb H.
  eapply CInv_run; [exact Hb|apply Shape_init|by apply CInv_init|exact H].
Qed.

End Convergence.

(** C3, on the code as it is.  The counter statements are not atomic: in the
    scenario of two regions there is a run in which both workers load
    [Complete] before either stores it, and which ends with [Complete] at 1
    for 2 regions. *)
Theorem counters_lost_update :
  run scenario_env scenario_args racing_schedule (init (scenario_module two_regions))
  <> None
  /\ forall s,
       run scenario_env scenario_args racing_schedule (init (scenario_module two_regions))
       = Some s ->
       finished s
       /\ length (AWSRegions (M s)) = 2%nat
       /\ console.Pending (CommandCounter (M s)) = 0
       /\ console.Executing (CommandCounter (M s)) = 0
       /\ console.Complete (CommandCounter (M s)) = 1.
Proof.
  split; [vm_compute; discriminate|].
  intros s. vm_compute. intros H. injection H as <-. repeat split.
Qed.

(** X1.  Counter convergence, for runs whose counter statements are not
    interrupted: at the end of the run, from zeroed counters, [Pending] and
    [Executing] are 0 and [Complete] and [Total] are the number of regions,
    however many sources failed. *)
Theorem atomic_convergence (E : Env) (a : Args) (m0 : SecretsModule) :
  CommandCounter m0 = zero_counter ->
  Z.of_nat (length (AWSRegions m0)) <= int_max ->
  forall sched s,
    atomic_run E a sched (init m0) = Some s -> finished s ->
    console.Pending (CommandCounter (M s)) = 0
    /\ console.Executing (CommandCounter (M s)) = 0
    /\ console.Complete (CommandCounter (M s)) = Z.of_nat (length (AWSRegions m0))
    /\ console.Total (CommandCounter (M s)) = Z.of_nat (length (AWSRegions m0)).
Proof.
  intros Hc Hb sched s Hrun Hf.
  destruct (reach_CInv E a m0 _ _ Hc Hb Hrun) as [HS [_ Ht Hp He Hcm]].
  pose proof (sh_joined _ _ HS) as Hj. pose proof (workers_le m0 _ HS) as Hlen.
  unfold finished in Hf. rewrite Hf in *. specialize (Hj eq_refl).
  destruct (exited_counts _ Hj) as (K1 & K2 & K3 & K4).
  cbn [to_launch going length] in *.
  rewrite Hp, He, Hcm, Ht, K1, K2, K3, K4.
  repeat split; f_equal; lia.
Qed.

(** X1 at the scenario. *)
Lemma atomic_convergence_witness :
  console.Pending (CommandCounter (M scenario_atomic_final)) = 0
  /\ console.Executing (CommandCounter (M scenario_atomic_final)) = 0
  /\ console.Complete (CommandCounter (M scenario_atomic_final)) = Z.of_nat (length two_regions)
  /\ console.Total (CommandCounter (M scenario_atomic_final)) = Z.of_nat (length two_regions).
Proof.
  apply (atomic_convergence scenario_env scenario_args (scenario_module two_regions)
           eq_refl ltac:(vm_compute; discriminate) scenario_atomic_schedule).
  - vm_compute. reflexivity.
  - reflexivity.
Defined.

(** C4 as stated fails: in the scenario of two regions, when main is about
    to start the first worker and no worker runs yet, [Pending] is 1 and not
    the number of regions, and so is the sum of the three counters. *)
Lemma pending_not_preset :
  exists s,
    atomic_run scenario_env scenario_args [TMain; TMain; TMain]
      (init (scenario_module two_regions)) = Some s
    /\ workers s = []
    /\ main s = MGo "us-east-1" ["us-west-2"]
    /\ console.Pending (CommandCounter (M s)) = 1
    /\ console.Pending (CommandCounter (M s)) + console.Executing (CommandCounter (M s))
       + console.Complete (CommandCounter (M s)) = 1
    /\ Z.of_nat (length (AWSRegions (M s))) = 2
    /\ console.Pending (CommandCounter (M s)) <> Z.of_nat (length (AWSRegions (M s))).
Proof.
  eexists. split; [reflexivity|]. repeat split. discriminate.
Qed.

(** C4, amended.  [PrintSecrets] does not preset [Pending]: from zeroed
    counters, each turn of its loop increments [Pending] and then starts the
    worker.  In runs whose counter statements are not interrupted, at every
    moment [Pending] counts the regions scheduled and not yet past
    [Pending--], [Executing] the workers between [Executing++] and
    [Executing--], [Complete] the workers past [Complete++]; so their sum is
    the number of regions scheduled so far less the workers that stand
    between two of these statements, and never more than the number of
    regions. *)
Theorem counters_accounting (E : Env) (a : Args) (m0 : SecretsModule) :
  CommandCounter m0 = zero_counter ->
  Z.of_nat (length (AWSRegions m0)) <= int_max ->
  forall sched s,
    atomic_run E a sched (init m0) = Some s ->
    console.Pending (CommandCounter (M s))
    = Z.of_nat (sum_list_with pending_of (workers s) + going (main s))
    /\ console.Executing (CommandCounter (M s))
       = Z.of_nat (sum_list_with executing_of (workers s))
    /\ console.Complete (CommandCounter (M s))
       = Z.of_nat (sum_list_with complete_of (workers s))
    /\ console.Pending (CommandCounter (M s)) + console.Executing (CommandCounter (M s))
       + console.Complete (CommandCounter (M s))
       = Z.of_nat (scheduled s) - Z.of_nat (sum_list_with in_transit (workers s))
    /\ (scheduled s <= length (AWSRegions m0))%nat.
Proof.
  intros Hc Hb sched s Hrun.
  destruct (reach_CInv E a m0 _ _ Hc Hb Hrun) as [HS [_ Ht Hp He Hcm]].
  pose proof (workers_le m0 _ HS) as Hlen.
  pose proof (going_le (main s) (M s)) as Hgo.
  pose proof (counts_sum (workers s)) as Hsum.
  unfold scheduled. repeat split; try assumption; lia.
Qed.

(** C4, amended, at a concrete state: one worker started, between
    [Pending--] and [Executing++]. *)
Lemma counters_accounting_witness :
  console.Pending (CommandCounter (M transit_state))
  = Z.of_nat (sum_list_with pending_of (workers transit_state) + going (main transit_state))
  /\ console.Executing (CommandCounter (M transit_state))
     = Z.of_nat (sum_list_with executing_of (workers transit_state))
  /\ console.Complete (CommandCounter (M transit_state))
     = Z.of_nat (sum_list_with complete_of (workers transit_state))
  /\ console.Pending (CommandCounter (M transit_state))
     + console.Executing (CommandCounter (M transit_state))
     + console.Complete (CommandCounter (M transit_state))
     = Z.of_nat (scheduled transit_state)
       - Z.of_nat (sum_list_with in_transit (workers transit_state))
  /\ (scheduled transit_state <= length (AWSRegions (scenario_module two_regions)))%nat.
Proof.
  apply (counters_accounting scenario_env scenario_args (scenario_module two_regions)
           eq_refl ltac:(vm_compute; discriminate) transit_schedule).
  vm_compute. reflexivity.
Defined.

(** C6 at a concrete input: the source of three pages. *)
Lemma pagination_terminates_witness :
  exists acts toks,
    worker_run paged_env (3 + length (source_records paged_env 3 SecretsManager "us-east-1" None))
      zero_counter (mkWorker "us-east-1" (WCall SecretsManager None))
    = (acts, zero_counter, mkWorker "us-east-1" (after_loop SecretsManager))
    /\ calls_of acts = map (fun t => (SecretsManager, "us-east-1"%string, t)) toks
    /\ length toks = 3%nat
    /\ toks !! O = Some None
    /\ (forall i next, toks !! S i = Some next ->
          exists prev recs,
            toks !! i = Some prev
            /\ fetchPage paged_env SecretsManager "us-east-1" prev = Page recs next)
    /\ sends_of acts
       = map (item SecretsManager "us-east-1")
           (source_records paged_env 3 SecretsManager "us-east-1" None).
Proof.
  apply (pagination_terminates paged_env 3 SecretsManager "us-east-1" zero_counter eq_refl).
Defined.

(** C7 at a concrete input: the first page of the paged source. *)
Lemma item_per_record_witness :
  worker_run paged_env 3 zero_counter (mkWorker "us-east-1" (WCall SecretsManager None))
  = ([ACall SecretsManager "us-east-1" None;
      ASend (mkSecret "SecretsManager" "us-east-1" "s1" EmptyString);
      ASend (mkSecret "SecretsManager" "us-east-1" "s2" EmptyString)],
     zero_counter,
     mkWorker "us-east-1" (WCall SecretsManager (Some "t1"%string))).
Proof.
  apply (item_per_record paged_env SecretsManager "us-east-1" None
           [mkEntry (Some "s1"%string) None; mkEntry (Some "s2"%string) None]
           (Some "t1"%string) zero_counter eq_refl).
Defined.

(** X2.  No deadlock and no endless run: with sources that are finite within
    [F] calls, a run never takes more steps than the measure of its first
    state, and as long as [PrintSecrets] has not returned some goroutine can
    take a step. *)
Theorem every_run_ends (E : Env) (a : Args) (F : nat) (m0 : SecretsModule) :
  all_finite E F (AWSRegions m0) = true ->
  forall sched s,
    run E a sched (init m0) = Some s ->
    (length sched <= measure E F (init m0))%nat
    /\ (finished s \/ exists t s', step E a t s = Some s').
Proof.
  intros Hfin sched s Hrun.
  pose proof (reach_Inv E a m0 F _ _ Hfin Hrun) as HI.
  rewrite (measure_run E a F m0 _ _ _ (Inv_init E F m0 Hfin) Hrun).
  split; [lia|].
  destruct (at_end_or_not (main s)) as [He|Hne]; [left; exact He|right].
  by apply (progress E a F m0).
Qed.

(** X2 at the scenario, at the moment the receiver has taken the stop
    signal in the run of the paged sources. *)
Lemma every_run_ends_witness :
  (length paged_schedule <= measure paged_env 3 (init (scenario_module two_regions)))%nat
  /\ (finished paged_stopped
      \/ exists t s', step paged_env scenario_args t paged_stopped = Some s').
Proof.
  apply (every_run_ends paged_env scenario_args 3 (scenario_module two_regions) eq_refl
           paged_schedule paged_stopped).
  vm_compute. reflexivity.
Defined.

(** * More of [secrets.go] *)

(** ** The order of arrival *)

Section Order.
Context (E : Env) (a : Args) (F : nat) (m0 : SecretsModule).

Lemma of_region_app r l1 l2 : of_region r (l1 ++ l2) = of_region r l1 ++ of_region r l2.
Proof. apply filter_app. Qed.

Lemma of_region_in r x : Region x = r -> of_region r [x] = [x].
Proof. intros H. unfold of_region. rewrite filter_cons_True by exact H. reflexivity. Qed.

Lemma of_region_out r x : Region x <> r -> of_region r [x] = [].
Proof. intros H. unfold of_region. rewrite filter_cons_False by exact H. reflexivity. Qed.

(** Every item of a region carries the region. *)
Lemma of_region_items r : of_region r (region_items E F r) = region_items E F r.
Proof.
  unfold of_region, region_items, source_items. rewrite filter_app.
  f_equal; induction (source_records E F _ r None) as [|e l IH]; cbn [map];
    try reflexivity; rewrite filter_cons_True by reflexivity; by rewrite IH.
Qed.

(** A worker sends items of its own region only. *)
Lemma worker_step_send c w x w' :
  worker_step E c w = Some (ASend x, w') -> Region x = region w.
Proof.
  destruct w as [r p]. unfold worker_step. cbn [pc region].
  destruct p as [u [v0|]|k tok|k err|k e rest next| |]; intros H; simplify_eq.
  - destruct (fetchPage E k r tok); simplify_eq.
  - reflexivity.
Qed.

(** With regions that are pairwise distinct, no two workers share a region,
    and no worker has a region that is still to be launched. *)
Lemma regions_apart s i j wi wj :
  NoDup (AWSRegions m0) -> Inv E F m0 s ->
  workers s !! i = Some wi -> workers s !! j = Some wj -> i <> j ->
  region wi <> region wj.
Proof.
  intros Hnd HI Hi Hj Hne Heq.
  rewrite <- (inv_regions _ _ _ _ HI) in Hnd. apply NoDup_app in Hnd as (Hnd & _ & _).
  apply Hne. eapply NoDup_lookup; [exact Hnd| |].
  - rewrite list_lookup_fmap, Hi. reflexivity.
  - rewrite list_lookup_fmap, Hj. cbn. by rewrite Heq.
Qed.

Lemma launch_apart s i w :
  NoDup (AWSRegions m0) -> Inv E F m0 s ->
  workers s !! i = Some w -> region w ∉ to_launch (main s) (M s).
Proof.
  intros Hnd HI Hi.
  rewrite <- (inv_regions _ _ _ _ HI) in Hnd. apply NoDup_app in Hnd as (_ & Hnd & _).
  apply Hnd. apply list_elem_of_fmap. exists w. split; [reflexivity|].
  apply list_elem_of_lookup. eauto.
Qed.

Lemma OInv_init : Secrets m0 = [] -> OInv E F (init m0).
Proof.
  intros Hs. constructor; unfold received; cbn; rewrite ?Hs.
  - intros i w H. destruct i; discriminate.
  - reflexivity.
Qed.

Lemma OInv_worker i s s' :
  NoDup (AWSRegions m0) -> Inv E F m0 s -> OInv E F s ->
  step E a (TWorker i) s = Some s' -> OInv E F s'.
Proof.
  intros Hnd HI [Hw Hl] Hstep.
  destruct (step_worker_inv _ _ _ _ _ Hstep) as (w & act & w' & s1 & Hwi & Hws & Hap & ->).
  pose proof (forallb_lookup _ _ _ _ (inv_track _ _ _ _ HI) Hwi) as Hon.
  destruct (worker_step_facts E F _ _ _ _ Hws Hon) as (R1 & _ & R3 & _).
  destruct (apply_action_facts _ _ _ Hap) as (A1 & A2 & _ & A4 & A5 & A6 & _).
  assert (received s1 = received s ++ match act with ASend x => [x] | _ => [] end) as Hrec.
  { unfold received. rewrite A4.
    destruct act; try (rewrite A6, app_nil_r; reflexivity).
    destruct A6 as [-> ->]. cbn [held]. by rewrite app_nil_r. }
  constructor; unfold received in *; cbn [workers main M receiver with_workers];
    rewrite ?A1, ?A2, ?(to_launch_ext _ _ _ A5).
  - intros j wj Hj. rewrite Hrec, of_region_app.
    apply list_lookup_insert_Some in Hj as [(-> & <- & _)|[Hne Hj]].
    + rewrite R1, <- (Hw _ _ Hwi), R3, <- !app_assoc. f_equal. f_equal.
      destruct act; try reflexivity.
      rewrite of_region_in; [reflexivity|]. eapply worker_step_send. exact Hws.
    + rewrite <- (Hw _ _ Hj). f_equal.
      destruct act; try (cbn; by rewrite app_nil_r).
      rewrite of_region_out; [by rewrite app_nil_r|].
      rewrite (worker_step_send _ _ _ _ Hws).
      eapply regions_apart; eauto.
  - intros r Hr. rewrite Hrec, of_region_app, (Hl _ Hr).
    destruct act; try reflexivity.
    rewrite of_region_out; [reflexivity|].
    rewrite (worker_step_send _ _ _ _ Hws). intros <-.
    by eapply (launch_apart s i w).
Qed.

Lemma OInv_receiver s s' :
  OInv E F s -> step E a TReceiver s = Some s' -> OInv E F s'.
Proof.
  intros [Hw Hl] Hstep. cbn in Hstep. unfold Receiver in Hstep.
  destruct (receiver s) as [|x| |] eqn:Hr; simplify_eq.
  unfold received in *. rewrite Hr in *. cbn [held] in *.
  constructor; unfold received; cbn; rewrite app_nil_r; assumption.
Qed.

Lemma OInv_main s s' :
  OInv E F s -> step E a TMain s = Some s' -> OInv E F s'.
Proof.
  intros [Hw Hl] Hstep. cbn in Hstep. unfold PrintSecrets in Hstep.
  unfold received in *.
  destruct (main s) as [|r rest|[v|] r rest|r rest| | | | | | |] eqn:Hm.
  - pose proof (prologue_keeps E a (M s)) as (K1 & K2 & _).
    destruct (prologue E a (M s)) as [es m]. cbn [snd] in *. simplify_eq.
    constructor; unfold received; cbn [workers main M receiver with_main with_M emit];
      rewrite ?to_launch_loop_head, ?K1, ?K2; assumption.
  - simplify_eq. constructor; assumption.
  - simplify_eq. constructor; assumption.
  - simplify_eq. constructor; assumption.
  - simplify_eq.
    constructor; unfold received; cbn [workers main M receiver with_main with_workers];
      rewrite ?to_launch_loop_head.
    + intros j wj Hj. apply lookup_app_Some in Hj as [Hj|[_ Hj]]; [exact (Hw _ _ Hj)|].
      apply list_lookup_singleton_Some in Hj as [_ <-]. cbn [region executeChecks].
      rewrite (Hl r) by (cbn; left). by rewrite remaining_start.
    + intros r' Hr'. apply Hl. cbn. by right.
  - destruct (wg s); simplify_eq. constructor; assumption.
  - destruct (spinner s); simplify_eq. constructor; assumption.
  - destruct (spinner s); simplify_eq. constructor; assumption.
  - destruct (receiver s) eqn:Hr; simplify_eq.
    constructor; unfold received; cbn [workers main M receiver with_main with_receiver held];
      [intros j wj Hj; specialize (Hw _ _ Hj)|intros r' Hr'; specialize (Hl _ Hr')];
      cbn [held] in *; assumption.
  - destruct (receiver s) eqn:Hr; simplify_eq.
    constructor; unfold received; cbn [workers main M receiver with_main with_receiver held];
      [intros j wj Hj; specialize (Hw _ _ Hj)|intros r' Hr'; specialize (Hl _ Hr')];
      cbn [held] in *; assumption.
  - pose proof (epilogue_keeps E a (M s)) as (K1 & K2).
    destruct (epilogue E a (M s)) as [es m]. cbn [snd] in *. simplify_eq.
    constructor; unfold received; cbn [workers main M receiver with_main with_M emit];
      rewrite ?K1; [exact Hw|intros r' Hr'; inversion Hr'].
  - discriminate.
Qed.

Lemma OInv_run sched s s' :
  NoDup (AWSRegions m0) -> Inv E F m0 s -> OInv E F s ->
  run E a sched s = Some s' -> OInv E F s'.
Proof.
  intros Hnd. revert s. induction sched as [|t sched IH]; intros s HI HO H; cbn in H.
  - by simplify_eq.
  - destruct (step E a t s) as [s1|] eqn:Hs; [|discriminate].
    eapply IH; [eapply Inv_step; eauto| |exact H].
    destruct t; [eapply OInv_main|eapply OInv_receiver|eapply OInv_worker]; eauto.
Qed.

End Order.

Section OrderReach.
Context (E : Env) (a : Args) (F : nat) (m0 : SecretsModule).

Lemma reach_OInv sched s :
  Secrets m0 = [] -> NoDup (AWSRegions m0) -> all_finite E F (AWSRegions m0) = true ->
  run E a sched (init m0) = Some s -> OInv E F s.
Proof.
  intros Hs Hnd Hfin Hrun.
  eapply OInv_run; [exact Hnd|by apply Inv_init|by apply OInv_init|exact Hrun].
Qed.

Lemma exited_remaining (ws : list worker) i w :
  sum_list_with live ws = O -> ws !! i = Some w -> remaining E F w = [].
Proof.
  intros Hsum Hw. pose proof (sum_lookup_le live _ _ _ Hw) as Hle.
  rewrite Hsum in Hle. destruct w as [r p].
  destruct p; cbn in Hle; try lia. reflexivity.
Qed.

Lemma stopped_held s : Inv E F m0 s -> stopped s -> held (receiver s) = [].
Proof.
  intros HI Hs. pose proof (inv_receiver _ _ _ _ HI) as Hr.
  destruct Hs as [H|[H|H]]; rewrite H in Hr; cbn in Hr; by rewrite Hr.
Qed.

Lemma stopped_launched s : stopped s -> to_launch (main s) (M s) = [].
Proof. intros [H|[H|H]]; rewrite H; reflexivity. Qed.

End OrderReach.

Section OneRegion.
Context (E : Env) (F : nat).

Lemma region_items_region r x : x ∈ region_items E F r -> Region x = r.
Proof.
  unfold region_items, source_items. intros H.
  apply elem_of_app in H as [H|H]; apply list_elem_of_fmap in H as (e & -> & _); reflexivity.
Qed.

Lemma of_region_all r l : (forall x, x ∈ l -> Region x = r) -> of_region r l = l.
Proof.
  unfold of_region. induction l as [|x l IH]; intros H; [reflexivity|].
  rewrite filter_cons_True by (apply H; left). rewrite IH; [reflexivity|].
  intros y Hy. apply H. by right.
Qed.

End OneRegion.

(** X3.  Order of arrival.  When the regions are pairwise distinct (and the
    sources finite), the items of each region stand in [m.Secrets] in the
    order their worker sends them, the pages of Secrets Manager before those
    of SSM, each page in the order of its records: at every moment of every
    run they are a prefix of that sequence, and from the moment the receiver
    has taken the stop signal they are the whole of it.  Only the items of
    different regions interleave; with one region [m.Secrets] is the
    same list in every run. *)
Theorem region_order (E : Env) (a : Args) (F : nat) (m0 : SecretsModule) :
  Secrets m0 = [] ->
  NoDup (AWSRegions m0) ->
  all_finite E F (AWSRegions m0) = true ->
  forall sched s,
    run E a sched (init m0) = Some s ->
    (forall r,
        r ∈ AWSRegions m0 ->
        of_region r (Secrets (M s)) `prefix_of` region_items E F r
        /\ (stopped s -> of_region r (Secrets (M s)) = region_items E F r))
    /\ (forall r, AWSRegions m0 = [r] -> stopped s -> Secrets (M s) = region_items E F r).
Proof.
  intros Hs0 Hnd Hfin sched s Hrun.
  pose proof (reach_Inv E a m0 F _ _ Hfin Hrun) as HI.
  pose proof (reach_OInv E a F m0 _ _ Hs0 Hnd Hfin Hrun) as [Hw Hl].
  assert (forall r,
             r ∈ AWSRegions m0 ->
             of_region r (Secrets (M s)) `prefix_of` region_items E F r
             /\ (stopped s -> of_region r (Secrets (M s)) = region_items E F r)) as Hall.
  { intros r Hr.
    rewrite <- (inv_regions _ _ _ _ HI) in Hr. apply elem_of_app in Hr as [Hr|Hr].
    - apply list_elem_of_fmap in Hr as (w & -> & Hin).
      apply list_elem_of_lookup in Hin as [i Hi].
      specialize (Hw _ _ Hi). unfold received in Hw.
      rewrite of_region_app, <- app_assoc in Hw. split.
      + eexists. symmetry. exact Hw.
      + intros Hst. rewrite (stopped_held E F m0 _ HI Hst) in Hw.
        rewrite (exited_remaining E F _ _ _ (inv_joined _ _ _ _ HI (stopped_joined _ Hst)) Hi)
          in Hw.
        cbn in Hw. by rewrite app_nil_r in Hw.
    - specialize (Hl _ Hr). unfold received in Hl. rewrite of_region_app in Hl.
      apply app_eq_nil in Hl as [Hl _]. rewrite Hl. split.
      + apply prefix_nil.
      + intros Hst. rewrite (stopped_launched _ Hst) in Hr. inversion Hr. }
  split; [exact Hall|].
  intros r Hr Hst.
  destruct (Hall r ltac:(rewrite Hr; left)) as [_ Heq]. rewrite <- (Heq Hst).
  symmetry. apply of_region_all. intros x Hx.
  pose proof (stopped_items E F m0 s HI Hst) as Hp.
  rewrite Hs0, Hr in Hp. unfold all_items in Hp. cbn in Hp. rewrite app_nil_r in Hp.
  rewrite Hp in Hx. by eapply region_items_region.
Qed.

(** X3 at the scenario: the two items of ["us-east-1"] at the end of the
    run. *)
Lemma region_order_witness :
  of_region "us-east-1" (Secrets (M scenario_final))
    `prefix_of` region_items scenario_env 1 "us-east-1"
  /\ of_region "us-east-1" (Secrets (M scenario_final))
     = region_items scenario_env 1 "us-east-1".
Proof.
  pose proof (proj1 (region_order scenario_env scenario_args 1 (scenario_module two_regions)
                       eq_refl ltac:(apply (bool_decide_unpack _); vm_compute; exact I) eq_refl
                       scenario_schedule scenario_final ltac:(vm_compute; reflexivity))
                "us-east-1"%string ltac:(apply list_elem_of_here)) as [H1 H2].
  split; [exact H1|]. apply H2. right. right. reflexivity.
Defined.

(** ** The join point and the shutdown *)

Section Join.
Context (E : Env) (a : Args) (m0 : SecretsModule).

Lemma joined_launched p m : joined p = true -> to_launch p m = [] /\ added p = O.
Proof. destruct p; try discriminate; auto. Qed.

Lemma exited_all (ws : list worker) w :
  sum_list_with live ws = O -> w ∈ ws -> pc w = WExit.
Proof.
  intros Hsum Hin. apply list_elem_of_lookup in Hin as [i Hi].
  pose proof (sum_lookup_le live _ _ _ Hi) as Hle. rewrite Hsum in Hle.
  unfold live, exited in Hle. destruct (pc w); cbn in Hle; try lia. reflexivity.
Qed.


End Join.



(** ** The last step of a run *)

Section LastStep.
Context (E : Env) (a : Args) (m0 : SecretsModule).

Lemma run_snoc sched t s s' :
  run E a (sched ++ [t]) s = Some s' ->
  exists s1, run E a sched s = Some s1 /\ step E a t s1 = Some s'.
Proof.
  revert s. induction sched as [|t0 sched IH]; intros s H; cbn in H.
  - destruct (step E a t s) as [s1|] eqn:Hs; [|discriminate]. simplify_eq.
    exists s. split; [reflexivity|exact Hs].
  - destruct (step E a t0 s) as [s0|] eqn:Hs; [|discriminate].
    destruct (IH _ H) as (s1 & H1 & H2). exists s1. cbn. rewrite Hs. auto.
Qed.

Lemma step_main_kept t s s' :
  step E a t s = Some s' -> t <> TMain -> main s' = main s.
Proof.
  intros H Ht. destruct t as [| |i]; [done| |].
  - cbn in H. unfold Receiver in H. destruct (receiver s); simplify_eq. reflexivity.
  - destruct (step_worker_inv _ _ _ _ _ H) as (w & act & w' & s1 & _ & _ & Hap & ->).
    destruct (apply_action_facts _ _ _ Hap) as (_ & A2 & _). exact A2.
Qed.

(** A finished run is a run up to line 87 followed by one step, the
    epilogue. *)
Lemma finished_last_step sched s :
  run E a sched (init m0) = Some s -> finished s ->
  exists sched1 s1,
    sched = sched1 ++ [TMain]
    /\ run E a sched1 (init m0) = Some s1
    /\ main s1 = MOutput
    /\ s = with_main MEnd (emit (epilogue E a (M s1)).1 (with_M (epilogue E a (M s1)).2 s1)).
Proof.
  destruct sched as [|t sched _] using rev_ind; intros Hrun Hf.
  - cbn in Hrun. simplify_eq. discriminate.
  - destruct (run_snoc _ _ _ _ Hrun) as (s1 & H1 & H2).
    pose proof (reach_Shape E a m0 _ _ H1) as HS.
    destruct (at_end_or_not (main s1)) as [He|Hne].
    { rewrite (no_step_at_end E a m0 _ _ HS He) in H2. discriminate. }
    assert (t = TMain \/ t <> TMain) as [->|Ht] by (destruct t; auto).
    + exists sched, s1. split; [reflexivity|]. split; [exact H1|].
      cbn in H2. unfold PrintSecrets in H2. unfold finished in Hf.
      destruct (main s1) as [|r rest|[v|] r rest|r rest| | | | | | |] eqn:Hm.
      * destruct (prologue E a (M s1)) as [es m]. simplify_eq. cbn in Hf.
        destruct (AWSRegions m); discriminate.
      * simplify_eq.
      * simplify_eq.
      * simplify_eq.
      * simplify_eq. cbn in Hf. destruct rest; discriminate.
      * destruct (wg s1); simplify_eq.
      * destruct (spinner s1); simplify_eq.
      * destruct (spinner s1); simplify_eq.
      * destruct (receiver s1); simplify_eq.
      * destruct (receiver s1); simplify_eq.
      * destruct (epilogue E a (M s1)) as [es m]. simplify_eq. auto.
      * done.
    + exfalso. apply Hne. rewrite <- (step_main_kept _ _ _ H2 Ht). exact Hf.
Qed.

End LastStep.

(** ** The log *)

Section ErrorChains.
Context (E : Env).

Lemma source_errors_eq f k r tok :
  source_errors E (S f) k r tok =
  match fetchPage E k r tok with
  | Failure err => [err]
  | Page _ None => []
  | Page _ (Some t) => source_errors E f k r (Some t)
  end.
Proof. reflexivity. Qed.

Lemma source_errors_S f k r tok :
  source_finite E f k r tok = true ->
  source_errors E (S f) k r tok = source_errors E f k r tok.
Proof.
  revert tok. induction f as [|f IH]; intros tok H; [discriminate|].
  rewrite (source_errors_eq (S f)), (source_errors_eq f).
  rewrite (source_finite_eq E f) in H.
  destruct (fetchPage E k r tok) as [err|recs [t|]]; auto.
Qed.

Lemma source_errors_page F k r tok recs t :
  source_finite E F k r tok = true ->
  fetchPage E k r tok = Page recs (Some t) ->
  source_errors E F k r tok = source_errors E F k r (Some t).
Proof.
  destruct F as [|f]; [discriminate|]. intros H Hf.
  cbn [source_finite] in H. rewrite Hf in H.
  rewrite (source_errors_S _ _ _ _ H). cbn [source_errors]. by rewrite Hf.
Qed.

Lemma source_errors_last F k r tok recs :
  source_finite E F k r tok = true ->
  fetchPage E k r tok = Page recs None ->
  source_errors E F k r tok = [].
Proof.
  destruct F as [|f]; [discriminate|]. intros _ Hf. cbn [source_errors]. by rewrite Hf.
Qed.

Lemma source_errors_fail F k r tok err :
  source_finite E F k r tok = true ->
  fetchPage E k r tok = Failure err ->
  source_errors E F k r tok = [err].
Proof.
  destruct F as [|f]; [discriminate|]. intros _ Hf. cbn [source_errors]. by rewrite Hf.
Qed.

(** As many errors as failed calls. *)
Lemma length_source_errors F k r tok :
  length (source_errors E F k r tok) = source_failures E F k r tok.
Proof.
  revert tok. induction F as [|f IH]; intros tok; [reflexivity|].
  cbn [source_errors source_failures].
  destruct (fetchPage E k r tok) as [err|recs [t|]]; auto.
Qed.

Lemma length_all_errors F l : length (all_errors E F l) = total_failures E F l.
Proof.
  unfold all_errors, total_failures. induction l as [|r l IH]; [reflexivity|].
  cbn [map concat sum_list_with]. rewrite length_app, IH. f_equal.
  unfold region_errors, region_failures. by rewrite length_app, !length_source_errors.
Qed.

End ErrorChains.

Section Logs.
Context (E : Env) (a : Args) (F : nat) (m0 : SecretsModule).

Lemma logs_of_app es1 es2 : logs_of (es1 ++ es2) = logs_of es1 ++ logs_of es2.
Proof. apply omap_app. Qed.

Lemma logs_of_logs l : logs_of (map ELog l) = l.
Proof. induction l as [|x l IH]; [reflexivity|]. cbn. unfold logs_of in IH. by rewrite IH. Qed.

Lemma logs_of_prologue m : logs_of (prologue E a m).1 = [].
Proof. reflexivity. Qed.

Lemma errors_left_start r : errors_left E F (executeChecks r) = region_errors E F r.
Proof. unfold errors_left, region_errors. cbn. by rewrite app_nil_r. Qed.

(** What a step of a worker logs is what it no longer has to log. *)
Lemma worker_step_errors c w act w' :
  worker_step E c w = Some (act, w') ->
  on_track E F w = true ->
  errors_left E F w = match act with ALog err => [err] | _ => [] end ++ errors_left E F w'.
Proof.
  destruct w as [r p]. unfold worker_step, on_track, errors_left. cbn [region pc].
  destruct p as [u [v|]|k tok|k err|k e rest next| |]; intros H Ht; simplify_eq.
  - destruct u as [| | |k| |]; try destruct k; reflexivity.
  - destruct u as [| | |k| |]; try destruct k; reflexivity.
  - cbn [chains forallb fst snd map concat] in *.
    apply andb_true_iff in Ht as [Hfin Hl].
    destruct (fetchPage E k r tok) as [err|recs next] eqn:Hf; simplify_eq; cbn [region pc].
    + rewrite (source_errors_fail E _ _ _ _ _ Hfin Hf). reflexivity.
    + rewrite chains_after_page.
      assert (match after_page k recs next with WLog _ err => [err] | _ => [] end = [])
        as -> by (destruct recs, next, k; reflexivity).
      destruct next as [t|].
      * rewrite (source_errors_page E _ _ _ _ _ _ Hfin Hf). reflexivity.
      * rewrite (source_errors_last E _ _ _ _ _ Hfin Hf). reflexivity.
  - reflexivity.
  - cbn [region pc]. rewrite chains_after_page.
    assert (match after_page k rest next with WLog _ err => [err] | _ => [] end = [])
      as -> by (destruct rest, next, k; reflexivity).
    destruct next; reflexivity.
  - reflexivity.
Qed.

Lemma apply_action_events act s s1 :
  apply_action act s = Some s1 ->
  events s1 = events s ++ match act with ALog err => [ELog err] | _ => [] end.
Proof.
  destruct act; cbn; intros H; simplify_eq; cbn; rewrite ?app_nil_r; auto.
  - destruct (receiver s); simplify_eq. reflexivity.
  - destruct (wg s); simplify_eq. reflexivity.
Qed.

Lemma events_ok_init : events_ok E a m0 (init m0).
Proof. intros H. done. Qed.

Lemma events_ok_step t s s' :
  Shape m0 s -> events_ok E a m0 s -> step E a t s = Some s' -> events_ok E a m0 s'.
Proof.
  intros HS Hev Hstep. unfold events_ok in *. destruct t as [| |i].
  - cbn in Hstep. unfold PrintSecrets in Hstep.
    destruct (main s) as [|r rest|[v|] r rest|r rest| | | | | | |] eqn:Hm;
      try specialize (Hev ltac:(discriminate) ltac:(discriminate)).
    + pose proof (sh_start _ _ HS Hm) as ->. cbn [M init] in Hstep.
      pose proof (logs_of_prologue m0) as Hl.
      destruct (prologue E a m0) as [es m]. cbn [fst] in Hl. simplify_eq.
      cbn [events emit with_M with_main init app fst]. intros _ _.
      rewrite Hl. by rewrite app_nil_r.
    + simplify_eq. intros _ _. exact Hev.
    + simplify_eq. intros _ _. exact Hev.
    + simplify_eq. intros _ _. exact Hev.
    + simplify_eq. intros _ _. exact Hev.
    + destruct (wg s); simplify_eq. intros _ _. exact Hev.
    + destruct (spinner s); simplify_eq. intros _ _. exact Hev.
    + destruct (spinner s); simplify_eq. intros _ _. exact Hev.
    + destruct (receiver s); simplify_eq. intros _ _. exact Hev.
    + destruct (receiver s); simplify_eq. intros _ _. exact Hev.
    + destruct (epilogue E a (M s)) as [es m]. simplify_eq. intros _ H. done.
    + discriminate.
  - cbn in Hstep. unfold Receiver in Hstep. destruct (receiver s); simplify_eq. exact Hev.
  - destruct (step_worker_inv _ _ _ _ _ Hstep) as (w & act & w' & s1 & Hw & Hws & Hap & ->).
    destruct (apply_action_facts _ _ _ Hap) as (_ & A2 & _).
    pose proof (apply_action_events _ _ _ Hap) as Hes.
    cbn [main events with_workers]. rewrite A2, Hes. intros H1 H2.
    specialize (Hev H1 H2). rewrite logs_of_app, map_app, app_assoc, <- Hev.
    f_equal. destruct act; reflexivity.
Qed.

Lemma events_ok_run sched s s' :
  Shape m0 s -> events_ok E a m0 s -> run E a sched s = Some s' -> events_ok E a m0 s'.
Proof.
  revert s. induction sched as [|t sched IH]; intros s HS Hev H; cbn in H.
  - by simplify_eq.
  - destruct (step E a t s) as [s1|] eqn:Hs; [|discriminate].
    eapply IH; [eapply Shape_step; eauto|eapply events_ok_step; eauto|exact H].
Qed.

Lemma logs_ok_init : logs_ok E F m0 (init m0).
Proof. intros _. cbn. reflexivity. Qed.

Lemma logs_ok_step t s s' :
  Inv E F m0 s -> logs_ok E F m0 s -> step E a t s = Some s' -> logs_ok E F m0 s'.
Proof.
  intros HI Hl Hstep. unfold logs_ok in *. destruct t as [| |i].
  - cbn in Hstep. unfold PrintSecrets in Hstep.
    destruct (main s) as [|r rest|[v|] r rest|r rest| | | | | | |] eqn:Hm;
      try specialize (Hl ltac:(discriminate)).
    + pose proof (prologue_keeps E a (M s)) as (_ & K2 & _).
      pose proof (logs_of_prologue (M s)) as K3.
      destruct (prologue E a (M s)) as [es m]. cbn [fst snd] in *. simplify_eq.
      cbn [events workers main M emit with_M with_main]. intros _.
      rewrite to_launch_loop_head, logs_of_app, K3, app_nil_r, K2. exact Hl.
    + simplify_eq. intros _. exact Hl.
    + simplify_eq. intros _. exact Hl.
    + simplify_eq. intros _. exact Hl.
    + simplify_eq. intros _.
      cbn [events workers main M with_main with_workers to_launch] in *.
      rewrite to_launch_loop_head, map_app, concat_app. cbn [map concat all_errors] in *.
      rewrite errors_left_start, app_nil_r, <- !app_assoc. exact Hl.
    + destruct (wg s); simplify_eq. intros _. exact Hl.
    + destruct (spinner s); simplify_eq. intros _. exact Hl.
    + destruct (spinner s); simplify_eq. intros _. exact Hl.
    + destruct (receiver s); simplify_eq. intros _. exact Hl.
    + destruct (receiver s); simplify_eq. intros _. exact Hl.
    + destruct (epilogue E a (M s)) as [es m]. simplify_eq. intros H. done.
    + discriminate.
  - cbn in Hstep. unfold Receiver in Hstep. destruct (receiver s); simplify_eq. exact Hl.
  - destruct (step_worker_inv _ _ _ _ _ Hstep) as (w & act & w' & s1 & Hw & Hws & Hap & ->).
    pose proof (forallb_lookup _ _ _ _ (inv_track _ _ _ _ HI) Hw) as Hon.
    pose proof (worker_step_errors _ _ _ _ Hws Hon) as R.
    destruct (apply_action_facts _ _ _ Hap) as (A1 & A2 & _ & _ & A5 & _).
    pose proof (apply_action_events _ _ _ Hap) as Hes.
    pose proof (concat_insert (errors_left E F) _ i w w' _ Hw R) as Hcat.
    cbn [main events workers M with_workers].
    rewrite A1, A2, Hes, (to_launch_ext _ _ _ A5). intros H1. specialize (Hl H1).
    rewrite <- Hl, Hcat, logs_of_app, <- !app_assoc.
    apply Permutation_app_head. destruct act; reflexivity.
Qed.

Lemma logs_ok_run sched s s' :
  Inv E F m0 s -> logs_ok E F m0 s -> run E a sched s = Some s' -> logs_ok E F m0 s'.
Proof.
  revert s. induction sched as [|t sched IH]; intros s HI Hl H; cbn in H.
  - by simplify_eq.
  - destruct (step E a t s) as [s1|] eqn:Hs; [|discriminate].
    eapply IH; [eapply Inv_step; eauto|eapply logs_ok_step; eauto|exact H].
Qed.

Lemma errors_left_exited ws :
  sum_list_with live ws = O -> concat (map (errors_left E F) ws) = [].
Proof.
  induction ws as [|[r p] ws IH]; [reflexivity|].
  cbn [sum_list_with map concat]. intros H.
  assert (live (mkWorker r p) = O /\ sum_list_with live ws = O) as [H1 H2] by lia.
  rewrite (IH H2), app_nil_r.
  destruct p; try discriminate. reflexivity.
Qed.

(** Once the workers are joined, the log holds the errors of the sources. *)
Lemma joined_logs sched s :
  all_finite E F (AWSRegions m0) = true ->
  run E a sched (init m0) = Some s ->
  joined (main s) = true -> main s <> MEnd ->
  logs_of (events s) ≡ₚ all_errors E F (AWSRegions m0).
Proof.
  intros Hfin Hrun Hj Hne.
  pose proof (reach_Inv E a m0 F _ _ Hfin Hrun) as HI.
  pose proof (logs_ok_run _ _ _ (Inv_init E F m0 Hfin) logs_ok_init Hrun Hne) as Hl.
  rewrite (errors_left_exited _ (inv_joined _ _ _ _ HI Hj)) in Hl.
  destruct (joined_launched _ (M s) Hj) as [K _]. rewrite K in Hl. cbn in Hl.
  by rewrite app_nil_r in Hl.
Qed.

End Logs.

(** ** What the epilogue leaves *)

Section EpilogueOutput.
Context (E : Env) (a : Args).

Lemma on_error_events err es m :
  (on_error err es m).1 = es ++ map ELog (option_list err).
Proof. destruct err; cbn; by rewrite ?app_nil_r. Qed.

(** The events of [writeLoot]: the two file-system calls, each followed by
    the log of its error if it fails, then the prints. *)
Lemma writeLoot_trace d v m :
  exists prints,
    (writeLoot E d v m).1
    = EMkdirAll (loot_path E d m)
      :: map ELog (option_list (MkdirAll E (loot_path E d m)))
      ++ EWriteFile (pullFile E d m) (loot_out (Secrets m))
      :: map ELog (option_list (WriteFile E (pullFile E d m) (loot_out (Secrets m))))
      ++ prints
      ++ [EPrint ("[" +:+ cyan E (utils.CallingModule (output m)) +:+ "] Loot written to ["
                  +:+ pullFile E d m +:+ "]" +:+ nl)]
    /\ logs_of prints = []
    /\ (2 < v -> EPrint (loot_out (Secrets m)) ∈ prints)
    /\ (v <= 2 -> prints = [])
    /\ List.filter is_io prints = [].
Proof.
  unfold writeLoot, pullFile, loot_path.
  set (path := Join E [d; "cloudfox-output"; "aws"; AWSProfile m; "loot"]%string).
  pose proof (on_error_events (MkdirAll E path) [EMkdirAll path] m) as K1.
  pose proof (on_error_keeps (MkdirAll E path) [EMkdirAll path] m) as (K2 & _).
  destruct (on_error (MkdirAll E path) [EMkdirAll path] m) as [es1 m1].
  cbn [fst snd] in K1, K2. rewrite K2.
  match goal with |- context [on_error ?e ?es m1] =>
    pose proof (on_error_events e es m1) as K3;
    destruct (on_error e es m1) as [es2 m2] end.
  cbn [fst snd] in *. subst es1 es2.
  destruct (2 <? v) eqn:Hv.
  - exists [EPrint nl;
            EPrint ("[" +:+ cyan E (utils.CallingModule (output m)) +:+ "] "
                    +:+ green E "Use the commands below to retrieve the secrets that look interesting"
                    +:+ " " +:+ nl +:+ nl);
            EPrint (loot_out (Secrets m));
            EPrint ("[" +:+ cyan E (utils.CallingModule (output m)) +:+ "] "
                    +:+ green E "End of loot file." +:+ " " +:+ nl +:+ nl)].
    split; [|split; [|split; [|split]]].
    + rewrite <- !app_assoc. reflexivity.
    + reflexivity.
    + intros _. right. right. left.
    + intros Hle. apply Z.ltb_lt in Hv. lia.
    + reflexivity.
  - exists []. split; [|split; [|split; [|split]]].
    + rewrite <- !app_assoc. reflexivity.
    + reflexivity.
    + intros Hlt. apply Z.ltb_ge in Hv. lia.
    + reflexivity.
    + reflexivity.
Qed.

Lemma writeLoot_logs d v m : logs_of (writeLoot E d v m).1 = writeLoot_errors E d m.
Proof.
  destruct (writeLoot_trace d v m) as (prints & -> & Hp & _).
  unfold writeLoot_errors.
  change (EMkdirAll ?p :: ?l) with ([EMkdirAll p] ++ l).
  change (EWriteFile ?p ?c :: ?l) with ([EWriteFile p c] ++ l).
  rewrite !logs_of_app, !logs_of_logs, Hp. cbn. by rewrite app_nil_r.
Qed.

(** The table after the epilogue: the headers, the rows that were there and
    one row for each secret; the path is set only when there is a row. *)
Lemma epilogue_output m :
  output (epilogue E a m).2
  = utils.mkOutput (utils.Verbosity (output m)) (utils.Directory (output m))
      (utils.CallingModule (output m))
      ["Service"; "Region"; "Name"; "Description"]%string
      (utils.Body (output m) ++ map row (Secrets m))
      match (utils.Body (output m) ++ map row (Secrets m))%list with
      | [] => utils.FilePath (output m)
      | _ :: _ => Join E [outputDirectory a; "cloudfox-output"; "aws"; AWSProfile m]%string
      end.
Proof.
  unfold epilogue.
  destruct (utils.Body (output m) ++ map row (Secrets m))%list as [|x l] eqn:Hb; [reflexivity|].
  cbn [length].
  match goal with |- context [writeLoot E ?d ?v ?m'] =>
    pose proof (writeLoot_keeps E d v m') as (_ & _ & K);
    destruct (writeLoot E d v m') as [es m3] end.
  cbn [snd] in *. rewrite K. reflexivity.
Qed.

Lemma epilogue_logs m :
  logs_of (epilogue E a m).1
  = match (utils.Body (output m) ++ map row (Secrets m))%list with
    | [] => []
    | _ :: _ => writeLoot_errors E (outputDirectory a) m
    end.
Proof.
  unfold epilogue.
  destruct (utils.Body (output m) ++ map row (Secrets m))%list as [|x l] eqn:Hb; [reflexivity|].
  cbn [length].
  match goal with |- context [writeLoot E ?d ?v ?m'] =>
    pose proof (writeLoot_logs d v m') as K;
    destruct (writeLoot E d v m') as [es m3] end.
  cbn [fst] in *.
  change (EOutputSelector ?x1 ?x2 ?x3 ?x4 ?x5 ?x6 ?x7 :: ?l)
    with ([EOutputSelector x1 x2 x3 x4 x5 x6 x7] ++ l).
  rewrite !logs_of_app, K. cbn. by rewrite app_nil_r.
Qed.

End EpilogueOutput.

Section FinishedLogs.
Context (E : Env) (a : Args) (F : nat) (m0 : SecretsModule).

(** At the end of a run the log holds the errors of the sources, followed by
    those of [writeLoot]. *)
Lemma finished_logs sched s :
  all_finite E F (AWSRegions m0) = true ->
  run E a sched (init m0) = Some s -> finished s ->
  exists lg,
    lg ≡ₚ all_errors E F (AWSRegions m0)
    /\ logs_of (events s)
       = lg ++ match utils.Body (output (M s)) with
               | [] => []
               | _ :: _ => writeLoot_errors E (outputDirectory a) (M s)
               end.
Proof.
  intros Hfin Hrun Hf.
  destruct (finished_last_step E a m0 _ _ Hrun Hf) as (sched1 & s1 & _ & H1 & Hm & ->).
  exists (logs_of (events s1)). split.
  - eapply joined_logs; eauto; rewrite Hm; [reflexivity|discriminate].
  - cbn [events M emit with_M with_main]. rewrite logs_of_app, epilogue_logs, epilogue_output.
    cbn [utils.Body]. f_equal.
    destruct (utils.Body (output (M s1)) ++ map row (Secrets (M s1)))%list; [reflexivity|].
    unfold writeLoot_errors, pullFile, loot_path.
    pose proof (epilogue_keeps E a (M s1)) as (K1 & _).
    by rewrite (epilogue_profile E a (M s1)), K1.
Qed.

End FinishedLogs.

(** X5.  Every failed listing call is logged, once, and nothing else is:
    while the run lasts the messages logged are among the errors of the
    sources; once the workers are joined they are exactly these errors, one
    for each failed call, in the order the failures happened to be logged;
    at the end of the run they are followed by the errors of the two
    file-system calls of [writeLoot], when there was a table to write. *)
Theorem errors_logged (E : Env) (a : Args) (F : nat) (m0 : SecretsModule) :
  all_finite E F (AWSRegions m0) = true ->
  forall sched s,
    run E a sched (init m0) = Some s ->
    (main s <> MEnd -> logs_of (events s) ⊆+ all_errors E F (AWSRegions m0))
    /\ (joined (main s) = true -> main s <> MEnd ->
        logs_of (events s) ≡ₚ all_errors E F (AWSRegions m0))
    /\ (finished s ->
        exists lg,
          lg ≡ₚ all_errors E F (AWSRegions m0)
          /\ logs_of (events s)
             = lg ++ match utils.Body (output (M s)) with
                     | [] => []
                     | _ :: _ => writeLoot_errors E (outputDirectory a) (M s)
                     end)
    /\ length (all_errors E F (AWSRegions m0)) = total_failures E F (AWSRegions m0).
Proof.
  intros Hfin sched s Hrun. split; [|split; [|split]].
  - intros Hne.
    pose proof (logs_ok_run E a F m0 _ _ _ (Inv_init E F m0 Hfin) (logs_ok_init E F m0) Hrun Hne)
      as Hl.
    rewrite <- Hl. apply submseteq_inserts_r. reflexivity.
  - intros Hj Hne. by eapply joined_logs.
  - intros Hf. by eapply finished_logs.
  - apply length_all_errors.
Qed.

(** X5 at the end of the scenario: one failed call, one message. *)
Lemma errors_logged_witness :
  exists lg,
    lg ≡ₚ all_errors scenario_env 1 two_regions
    /\ logs_of (events scenario_final)
       = lg ++ match utils.Body (output (M scenario_final)) with
               | [] => []
               | _ :: _ => writeLoot_errors scenario_env (outputDirectory scenario_args)
                             (M scenario_final)
               end.
Proof.
  apply (proj1 (proj2 (proj2 (errors_logged scenario_env scenario_args 1
                                (scenario_module two_regions) eq_refl
                                scenario_schedule scenario_final
                                ltac:(vm_compute; reflexivity))))).
  reflexivity.
Defined.

(** ** The count of errors *)

Section Quiet.
Context (E : Env) (a : Args).

(** Between uninterrupted steps no goroutine holds a loaded counter. *)
Lemma quiet_atomic_step t s s' :
  quiet s -> atomic_step E a t s = Some s' -> quiet s'.
Proof.
  intros Hq Hstep. destruct t as [| |i].
  - destruct (atomic_main E a _ _ Hq Hstep) as [(r & rest & Hm & ->)|(Hn & Hs & Hq')].
    + destruct Hq as [_ Hq]. split; [discriminate|exact Hq].
    + split; [exact Hq'|]. destruct Hq as [_ Hq].
      unfold PrintSecrets in Hs.
      destruct (main s) as [|r rest|[v|] r rest|r rest| | | | | | |] eqn:Hm;
        try (simplify_eq; exact Hq).
      * destruct (prologue E a (M s)). simplify_eq. exact Hq.
      * simplify_eq. cbn. intros i w Hi.
        apply lookup_app_Some in Hi as [Hi|[_ Hi]]; [eauto|].
        apply list_lookup_singleton_Some in Hi as [_ <-]. discriminate.
      * destruct (wg s); simplify_eq. exact Hq.
      * destruct (spinner s); simplify_eq. exact Hq.
      * destruct (spinner s); simplify_eq. exact Hq.
      * destruct (receiver s); simplify_eq. exact Hq.
      * destruct (receiver s); simplify_eq. exact Hq.
      * destruct (epilogue E a (M s)). simplify_eq. exact Hq.
  - unfold atomic_step in Hstep. cbn in Hstep. unfold Receiver in Hstep.
    destruct (receiver s); simplify_eq. exact Hq.
  - destruct (atomic_worker E a _ _ _ Hq Hstep)
      as (w & Hw & [(u & Hpc & ->)|(act & w' & Hws & Hnl & Hns & Hs)]).
    + eapply (quiet_insert s i (mkWorker (region w) (site_next u)));
        [exact Hq|reflexivity|reflexivity|apply site_next_quiet].
    + destruct (step_worker_inv _ _ _ _ _ Hs) as (w0 & act0 & w0' & s1 & Hw0 & Hws0 & Hap & ->).
      rewrite Hw in Hw0. injection Hw0 as <-.
      rewrite Hws in Hws0. injection Hws0 as <- <-.
      destruct (apply_action_facts _ _ _ Hap) as (A1 & A2 & _).
      eapply (quiet_insert s i w'); [exact Hq|exact A2|cbn; by rewrite ?A1|].
      eapply worker_step_quiet; eauto.
Qed.

Lemma quiet_init m0 : quiet (init m0).
Proof. split; [discriminate|]. intros i w H. destruct i; discriminate. Qed.

End Quiet.

Section SequentialErrors.
Context (E : Env) (a : Args).

Lemma writeLoot_error_count d v m :
  int_min <= console.Error (CommandCounter m) <= int_max - 2 ->
  console.Error (CommandCounter (writeLoot E d v m).2)
  = console.Error (CommandCounter m) + Z.of_nat (length (writeLoot_errors E d m)).
Proof.
  intros Hb. unfold writeLoot, writeLoot_errors, pullFile, loot_path.
  assert (incr (console.Error (CommandCounter m)) = console.Error (CommandCounter m) + 1) as H1
    by (apply incr_id; unfold int_min, int_max in *; lia).
  assert (incr (console.Error (CommandCounter m) + 1) = console.Error (CommandCounter m) + 2) as H2
    by (rewrite incr_id; unfold int_min, int_max in *; lia).
  destruct (MkdirAll E _) as [e1|]; cbn [on_error Secrets with_Counter];
    destruct (WriteFile E _ _) as [e2|]; cbn -[incr]; rewrite ?H1, ?H2; lia.
Qed.

Lemma epilogue_error_count m :
  int_min <= console.Error (CommandCounter m) <= int_max - 2 ->
  console.Error (CommandCounter (epilogue E a m).2)
  = console.Error (CommandCounter m) + Z.of_nat (length (logs_of (epilogue E a m).1)).
Proof.
  intros Hb. rewrite epilogue_logs. unfold epilogue.
  destruct (utils.Body (output m) ++ map row (Secrets m)) as [|x l] eqn:Hl; [cbn; lia|].
  cbn [length].
  match goal with |- context [writeLoot E ?d ?v ?m'] =>
    pose proof (writeLoot_error_count d v m' Hb) as K;
    destruct (writeLoot E d v m') as [es m3] end.
  cbn [snd] in *. exact K.
Qed.

(** A step that is neither a load nor a store: the worker owes its
    [Error++] from the moment it has logged. *)
Lemma worker_step_due c w act w' :
  worker_step E c w = Some (act, w') ->
  (forall f, act <> ALoad f) -> (forall f v, act <> AStore f v) ->
  error_due w = O
  /\ error_due w' = match act with ALog _ => 1%nat | _ => O end.
Proof.
  destruct w as [r p]. unfold worker_step, error_due. cbn [pc region].
  destruct p as [u [v0|]|k tok|k err|k e rest next| |]; intros H Hnl Hns; simplify_eq; cbn [pc].
  - exfalso. eapply Hns. reflexivity.
  - exfalso. eapply Hnl. reflexivity.
  - destruct (fetchPage E k r tok) as [err|recs next]; simplify_eq; cbn [pc]; auto.
    destruct recs, next, k; auto.
  - auto.
  - destruct rest, next, k; auto.
  - auto.
Qed.

End SequentialErrors.

Section CountBasics.
Context (E : Env) (a : Args) (F : nat) (m0 : SecretsModule).

Lemma logs_bound s :
  logs_ok E F m0 s -> main s <> MEnd ->
  (length (logs_of (events s)) <= 2 * length (AWSRegions m0))%nat.
Proof.
  intros Hl Hne. specialize (Hl Hne). apply Permutation_length in Hl.
  rewrite !length_app, !length_all_errors in Hl.
  pose proof (total_failures_le E F (AWSRegions m0)). lia.
Qed.

Lemma step_not_at_end t s s' : Shape m0 s -> step E a t s = Some s' -> main s <> MEnd.
Proof.
  intros HS Hstep He. rewrite (no_step_at_end E a m0 _ _ HS He) in Hstep. discriminate.
Qed.

Lemma AInv_receiver s s' :
  AInv m0 s -> atomic_step E a TReceiver s = Some s' -> AInv m0 s'.
Proof.
  intros [Hlo Hc] H. unfold atomic_step in H. cbn in H.
  unfold Receiver in H. destruct (receiver s); simplify_eq.
  constructor; assumption.
Qed.

Lemma Inv_atomic_step t s s' :
  Inv E F m0 s -> atomic_step E a t s = Some s' -> Inv E F m0 s'.
Proof.
  intros HI H. destruct (atomic_step_steps _ _ _ _ _ H) as [H1|(s1 & H1 & H2)].
  - eapply Inv_step; eauto.
  - eapply Inv_step; [|exact H2]. eapply Inv_step; eauto.
Qed.

Lemma logs_ok_atomic_step t s s' :
  Inv E F m0 s -> logs_ok E F m0 s -> atomic_step E a t s = Some s' -> logs_ok E F m0 s'.
Proof.
  intros HI Hl H. destruct (atomic_step_steps _ _ _ _ _ H) as [H1|(s1 & H1 & H2)].
  - eapply logs_ok_step; eauto.
  - eapply logs_ok_step; [|eapply logs_ok_step; eauto|exact H2]. eapply Inv_step; eauto.
Qed.

Lemma AInv_init : AInv m0 (init m0).
Proof. constructor; cbn; lia. Qed.

End CountBasics.

Section CountSteps.
Context (E : Env) (a : Args) (F : nat) (m0 : SecretsModule).
Hypothesis Hlow : int_min <= console.Error (CommandCounter m0).
Hypothesis Hhigh :
  console.Error (CommandCounter m0) + 2 * Z.of_nat (length (AWSRegions m0)) + 2 <= int_max.

Lemma AInv_worker i s s' :
  Shape m0 s -> quiet s -> logs_ok E F m0 s -> AInv m0 s ->
  atomic_step E a (TWorker i) s = Some s' -> AInv m0 s'.
Proof.
  intros HS Hq Hl [Hlo Hc] Hstep.
  assert (main s <> MEnd) as Hne.
  { destruct (atomic_step_steps E a _ _ _ Hstep) as [H|(s1 & H & _)];
      eapply step_not_at_end; eauto. }
  pose proof (logs_bound E F m0 _ Hl Hne) as Hlb.
  destruct (atomic_worker E a _ _ _ Hq Hstep)
    as (w & Hw & [(u & Hpc & ->)|(act & w' & Hws & Hnl & Hns & Hs)]).
  - set (w' := mkWorker (region w) (site_next u)).
    pose proof (sum_insert error_due _ i w w' Hw) as S1.
    assert (error_due w = match u with SError _ => 1%nat | _ => O end) as D1
      by (unfold error_due; rewrite Hpc; reflexivity).
    assert (error_due w' = O) as D2
      by (unfold error_due; subst w'; destruct u as [| | |k| |]; try destruct k; reflexivity).
    rewrite D1, D2 in S1. clearbody w'.
    destruct u as [| | |k| |]; cbn [site_field site_op get] in *;
      (constructor; cbn -[incr decr logs_of error_due]; rewrite ?incr_id;
       unfold int_min, int_max in *; lia).
  - destruct (step_worker_inv _ _ _ _ _ Hs) as (w0 & act0 & w0' & s1 & Hw0 & Hws0 & Hap & ->).
    rewrite Hw in Hw0. injection Hw0 as <-.
    rewrite Hws in Hws0. injection Hws0 as <- <-.
    destruct (apply_action_facts _ _ _ Hap) as (A1 & _).
    pose proof (apply_action_counter _ _ _ Hap) as Hcc.
    pose proof (apply_action_events _ _ _ Hap) as Hes.
    destruct (worker_step_due E _ _ _ _ Hws Hnl Hns) as [D1 D2].
    pose proof (sum_insert error_due _ i _ w' Hw) as S1.
    assert (CommandCounter (M s1) = CommandCounter (M s)) as Hcc'.
    { rewrite Hcc. destruct act; try reflexivity. exfalso. eapply Hns. reflexivity. }
    constructor; cbn [workers events M with_workers]; rewrite ?A1, ?Hcc', ?Hes; [exact Hlo|].
    rewrite logs_of_app, length_app.
    destruct act; cbn [logs_of omap list_omap length] in *; lia.
Qed.

Lemma AInv_main s s' :
  Shape m0 s -> quiet s -> logs_ok E F m0 s -> AInv m0 s ->
  atomic_step E a TMain s = Some s' -> AInv m0 s'.
Proof.
  intros HS Hq Hl [Hlo Hc] Hstep.
  assert (main s <> MEnd) as Hne.
  { destruct (atomic_step_steps E a _ _ _ Hstep) as [H|(s1 & H & _)];
      eapply step_not_at_end; eauto. }
  pose proof (logs_bound E F m0 _ Hl Hne) as Hlb.
  destruct (atomic_main E a _ _ Hq Hstep) as [(r & rest & Hm & ->)|(Hn & Hs & _)].
  - constructor; cbn; assumption.
  - unfold PrintSecrets in Hs.
    destruct (main s) as [|r rest|[v|] r rest|r rest| | | | | | |] eqn:Hm;
      try (exfalso; eapply Hn; reflexivity).
    + pose proof (prologue_keeps E a (M s)) as (_ & _ & K3 & _).
      pose proof (logs_of_prologue E a (M s)) as K4.
      destruct (prologue E a (M s)) as [es m]. cbn [fst snd] in *. simplify_eq.
      constructor; cbn [workers events M with_main with_M emit];
        rewrite ?logs_of_app, ?K3, ?K4, ?app_nil_r; assumption.
    + simplify_eq. constructor; assumption.
    + simplify_eq.
      constructor; cbn [workers events M with_main with_workers]; [exact Hlo|].
      rewrite sum_list_with_app. cbn. lia.
    + destruct (wg s); simplify_eq. constructor; assumption.
    + destruct (spinner s); simplify_eq. constructor; assumption.
    + destruct (spinner s); simplify_eq. constructor; assumption.
    + destruct (receiver s); simplify_eq. constructor; assumption.
    + destruct (receiver s); simplify_eq. constructor; assumption.
    + assert (int_min <= console.Error (CommandCounter (M s)) <= int_max - 2) as Hb
        by (unfold int_min, int_max in *; lia).
      pose proof (epilogue_error_count E a (M s) Hb) as K.
      destruct (epilogue E a (M s)) as [es m]. cbn [fst snd] in *. simplify_eq.
      constructor; cbn [workers events M with_main with_M emit];
        rewrite ?logs_of_app, ?length_app; lia.
    + discriminate.
Qed.

Lemma AInv_run sched s s' :
  Shape m0 s -> Inv E F m0 s -> quiet s -> logs_ok E F m0 s -> AInv m0 s ->
  atomic_run E a sched s = Some s' -> AInv m0 s'.
Proof.
  revert s. induction sched as [|t sched IH]; intros s HS HI Hq Hl HA H; cbn in H.
  - by simplify_eq.
  - destruct (atomic_step E a t s) as [s1|] eqn:Hs; [|discriminate].
    eapply IH; [eapply Shape_atomic_step; eauto|eapply Inv_atomic_step; eauto
               |eapply quiet_atomic_step; eauto|eapply logs_ok_atomic_step; eauto| |exact H].
    destruct t; [eapply AInv_main|eapply AInv_receiver|eapply AInv_worker]; eauto.
Qed.

End CountSteps.

Section CountReach.
Context (E : Env) (a : Args) (F : nat) (m0 : SecretsModule).

Lemma due_exited ws : sum_list_with live ws = O -> sum_list_with error_due ws = O.
Proof.
  induction ws as [|[r p] ws IH]; [reflexivity|].
  cbn [sum_list_with]. intros H.
  assert (live (mkWorker r p) = O /\ sum_list_with live ws = O) as [H1 H2] by lia.
  rewrite (IH H2). destruct p; try discriminate. reflexivity.
Qed.

Lemma reach_AInv sched s :
  int_min <= console.Error (CommandCounter m0) ->
  console.Error (CommandCounter m0) + 2 * Z.of_nat (length (AWSRegions m0)) + 2 <= int_max ->
  all_finite E F (AWSRegions m0) = true ->
  atomic_run E a sched (init m0) = Some s -> AInv m0 s.
Proof.
  intros Hlo Hhi Hfin Hrun.
  eapply (AInv_run E a F m0 Hlo Hhi); [apply Shape_init|by apply Inv_init|apply quiet_init
                                      |apply logs_ok_init|apply AInv_init|exact Hrun].
Qed.

End CountReach.

(** X6.  The count of errors, for runs whose counter statements are not
    interrupted.  [Error] counts the messages logged: at every moment it is
    what it was on entry plus the number of messages logged, less the workers
    that have logged and not yet incremented; once the workers are joined it
    has grown by the number of failed listing calls, and at the end of the
    run by these and the failed file-system calls of [writeLoot]. *)
Theorem errors_counted (E : Env) (a : Args) (F : nat) (m0 : SecretsModule) :
  int_min <= console.Error (CommandCounter m0) ->
  console.Error (CommandCounter m0) + 2 * Z.of_nat (length (AWSRegions m0)) + 2 <= int_max ->
  all_finite E F (AWSRegions m0) = true ->
  forall sched s,
    atomic_run E a sched (init m0) = Some s ->
    console.Error (CommandCounter (M s)) + Z.of_nat (sum_list_with error_due (workers s))
    = console.Error (CommandCounter m0) + Z.of_nat (length (logs_of (events s)))
    /\ (joined (main s) = true -> main s <> MEnd ->
        console.Error (CommandCounter (M s))
        = console.Error (CommandCounter m0)
          + Z.of_nat (total_failures E F (AWSRegions m0)))
    /\ (finished s ->
        console.Error (CommandCounter (M s))
        = console.Error (CommandCounter m0)
          + Z.of_nat (total_failures E F (AWSRegions m0))
          + Z.of_nat (length match utils.Body (output (M s)) with
                             | [] => []
                             | _ :: _ => writeLoot_errors E (outputDirectory a) (M s)
                             end)).
Proof.
  intros Hlo Hhi Hfin sched s Hrun.
  pose proof (reach_AInv E a F m0 _ _ Hlo Hhi Hfin Hrun) as [_ Hc].
  destruct (atomic_run_run E a _ _ _ Hrun) as (sched' & Hrun').
  pose proof (reach_Shape E a m0 _ _ Hrun') as HS.
  split; [exact Hc|]. split.
  - intros Hj Hne.
    rewrite (due_exited _ (sh_joined _ _ HS Hj)) in Hc.
    pose proof (joined_logs E a F m0 _ _ Hfin Hrun' Hj Hne) as Hp.
    apply Permutation_length in Hp. rewrite length_all_errors in Hp. lia.
  - intros Hf.
    rewrite (due_exited _ (sh_joined _ _ HS ltac:(by rewrite Hf))) in Hc.
    destruct (finished_logs E a F m0 _ _ Hfin Hrun' Hf) as (lg & Hp & Hlg).
    apply Permutation_length in Hp. rewrite length_all_errors in Hp.
    rewrite Hlg, length_app in Hc. lia.
Qed.

(** X6 at the end of the scenario on a file system that refuses both calls:
    one failed listing call and two failed file-system calls. *)
Lemma errors_counted_witness :
  console.Error (CommandCounter (M readonly_atomic_final))
  = console.Error (CommandCounter (scenario_module two_regions))
    + Z.of_nat (total_failures readonly_env 1 two_regions)
    + Z.of_nat (length match utils.Body (output (M readonly_atomic_final)) with
                       | [] => []
                       | _ :: _ => writeLoot_errors readonly_env (outputDirectory verbose_args)
                                     (M readonly_atomic_final)
                       end).
Proof.
  apply (proj2 (proj2 (errors_counted readonly_env verbose_args 1
                         (scenario_module two_regions)
                         ltac:(vm_compute; discriminate) ltac:(vm_compute; discriminate)
                         eq_refl scenario_atomic_schedule readonly_atomic_final
                         ltac:(vm_compute; reflexivity)))).
  reflexivity.
Defined.

(** ** What a run leaves in the module *)

Section Accumulate.
Context (E : Env) (a : Args) (m0 : SecretsModule).

(** A step appends to [m.Secrets] or leaves it alone. *)
Lemma step_secrets t s s' :
  step E a t s = Some s' -> Secrets (M s) `prefix_of` Secrets (M s').
Proof.
  intros Hstep. destruct t as [| |i].
  - cbn in Hstep. unfold PrintSecrets in Hstep.
    destruct (main s) as [|r rest|[v|] r rest|r rest| | | | | | |] eqn:Hm;
      try (simplify_eq; reflexivity).
    + pose proof (prologue_keeps E a (M s)) as (K1 & _).
      destruct (prologue E a (M s)) as [es m]. cbn [snd] in *. simplify_eq.
      cbn. by rewrite K1.
    + destruct (wg s); simplify_eq. reflexivity.
    + destruct (spinner s); simplify_eq. reflexivity.
    + destruct (spinner s); simplify_eq. reflexivity.
    + destruct (receiver s); simplify_eq. reflexivity.
    + destruct (receiver s); simplify_eq. reflexivity.
    + pose proof (epilogue_keeps E a (M s)) as (K1 & _).
      destruct (epilogue E a (M s)) as [es m]. cbn [snd] in *. simplify_eq.
      cbn. by rewrite K1.
  - cbn in Hstep. unfold Receiver in Hstep. destruct (receiver s); simplify_eq.
    cbn. by apply prefix_app_r.
  - destruct (step_worker_inv _ _ _ _ _ Hstep) as (w & act & w' & s1 & _ & _ & Hap & ->).
    destruct (apply_action_facts _ _ _ Hap) as (_ & _ & _ & A4 & _).
    cbn. by rewrite A4.
Qed.

Lemma run_secrets sched s s' :
  run E a sched s = Some s' -> Secrets (M s) `prefix_of` Secrets (M s').
Proof.
  revert s. induction sched as [|t sched IH]; intros s H; cbn in H.
  - by simplify_eq.
  - destruct (step E a t s) as [s1|] eqn:Hs; [|discriminate].
    etrans; [eapply step_secrets; eauto|by apply IH].
Qed.

End Accumulate.

(** X7.  What [PrintSecrets] leaves in the module.  [m.Secrets] is only ever
    appended to: whatever it holds at one moment of a run is a prefix of what
    it holds later.  At the end of the run it is what it was on entry followed
    by the items of all the sources, and [m.output] holds the arguments, the
    module name, the four headers, and as its body the rows that were there on
    entry followed by one row for each secret of [m.Secrets], those that were
    there on entry included; the path is set when there is a row. *)
Theorem output_table (E : Env) (a : Args) (F : nat) (m0 : SecretsModule) :
  all_finite E F (AWSRegions m0) = true ->
  forall sched s,
    run E a sched (init m0) = Some s ->
    (forall sched' s', run E a sched' s = Some s' ->
                       Secrets (M s) `prefix_of` Secrets (M s'))
    /\ (finished s ->
        (exists l, Secrets (M s) = Secrets m0 ++ l /\ l ≡ₚ all_items E F (AWSRegions m0))
        /\ output (M s)
           = utils.mkOutput (verbosity a) (outputDirectory a) "secrets"
               ["Service"; "Region"; "Name"; "Description"]%string
               (utils.Body (output m0) ++ map row (Secrets (M s)))
               match (utils.Body (output m0) ++ map row (Secrets (M s)))%list with
               | [] => utils.FilePath (output m0)
               | _ :: _ =>
                   Join E [outputDirectory a; "cloudfox-output"; "aws"; profile_of m0]%string
               end).
Proof.
  intros Hfin sched s Hrun. split.
  - intros sched' s'. apply run_secrets.
  - intros Hf.
    destruct (finished_last_step E a m0 _ _ Hrun Hf) as (sched1 & s1 & _ & H1 & Hm & ->).
    pose proof (reach_Inv E a m0 F _ _ Hfin H1) as HI.
    pose proof (reach_SInv E a m0 _ _ H1) as HSI.
    pose proof (epilogue_keeps E a (M s1)) as (K1 & _).
    cbn [M with_M with_main emit]. rewrite K1. split.
    + destruct (run_secrets E a _ _ _ H1) as [l Hl]. cbn [M init] in Hl.
      exists l. split; [exact Hl|].
      pose proof (stopped_items E F m0 s1 HI ltac:(right; left; exact Hm)) as Hp.
      rewrite Hl in Hp. by apply Permutation_app_inv_l in Hp.
    + rewrite epilogue_output.
      rewrite (s_output _ _ _ _ HSI) by (rewrite Hm; discriminate).
      rewrite (s_profile _ _ _ _ HSI) by (rewrite Hm; discriminate).
      rewrite prologue_output. reflexivity.
Qed.

(** X7 at a second call of [PrintSecrets] on the module the scenario left:
    the four secrets and the four rows of the first call are kept, and the
    table gets eight more rows. *)
Lemma output_table_witness :
  (exists l, Secrets (M second_final) = Secrets (M scenario_final) ++ l
             /\ l ≡ₚ all_items scenario_env 1 two_regions)
  /\ output (M second_final)
     = utils.mkOutput (verbosity scenario_args) (outputDirectory scenario_args) "secrets"
         ["Service"; "Region"; "Name"; "Description"]%string
         (utils.Body (output (M scenario_final)) ++ map row (Secrets (M second_final)))
         match (utils.Body (output (M scenario_final))
                ++ map row (Secrets (M second_final)))%list with
         | [] => utils.FilePath (output (M scenario_final))
         | _ :: _ =>
             Join scenario_env [outputDirectory scenario_args; "cloudfox-output"; "aws";
                                profile_of (M scenario_final)]%string
         end.
Proof.
  apply (proj2 (output_table scenario_env scenario_args 1 (M scenario_final)
                  eq_refl second_schedule second_final ltac:(vm_compute; reflexivity))).
  reflexivity.
Defined.

(** ** What the run does outside the process *)

Section Outside.
Context (E : Env) (a : Args).

Lemma filter_io_logs l : List.filter is_io (map ELog l) = [].
Proof. induction l as [|x l IH]; [reflexivity|exact IH]. Qed.

Lemma filter_io_prologue m : List.filter is_io (prologue E a m).1 = [].
Proof. reflexivity. Qed.

(** The epilogue with a table: the output stage, the directory, the file,
    in this order, whatever the file system answers; then the prints. *)
Lemma epilogue_io m :
  List.filter is_io (epilogue E a m).1
  = match (utils.Body (output m) ++ map row (Secrets m))%list with
    | [] => []
    | _ :: _ =>
        [EOutputSelector (utils.Verbosity (output m)) (outputFormat a)
           ["Service"; "Region"; "Name"; "Description"]%string
           (utils.Body (output m) ++ map row (Secrets m))
           (Join E [outputDirectory a; "cloudfox-output"; "aws"; AWSProfile m]%string)
           (utils.CallingModule (output m)) (utils.CallingModule (output m));
         EMkdirAll (loot_path E (outputDirectory a) m);
         EWriteFile (pullFile E (outputDirectory a) m) (loot_out (Secrets m))]
    end.
Proof.
  unfold epilogue.
  destruct (utils.Body (output m) ++ map row (Secrets m))%list as [|x l] eqn:Hb; [reflexivity|].
  cbn [length].
  match goal with |- context [writeLoot E ?d ?v ?m'] =>
    destruct (writeLoot_trace E d v m') as (prints & Hev & _ & _ & _ & Hio);
    destruct (writeLoot E d v m') as [es m3] end.
  cbn [fst] in *. subst es.
  cbn [List.filter is_io].
  rewrite ?List.filter_app, ?filter_io_logs. cbn [List.filter is_io app].
  rewrite ?List.filter_app, ?filter_io_logs. cbn [List.filter is_io app].
  rewrite ?List.filter_app, ?filter_io_logs, ?Hio. reflexivity.
Qed.

Lemma epilogue_prints m :
  (utils.Body (output m) ++ map row (Secrets m))%list <> [] ->
  EPrint ("[" +:+ cyan E (utils.CallingModule (output m)) +:+ "] Loot written to ["
          +:+ pullFile E (outputDirectory a) m +:+ "]" +:+ nl) ∈ (epilogue E a m).1
  /\ (2 < verbosity a -> EPrint (loot_out (Secrets m)) ∈ (epilogue E a m).1).
Proof.
  intros Hne. unfold epilogue.
  destruct (utils.Body (output m) ++ map row (Secrets m))%list as [|x l] eqn:Hb; [done|].
  cbn [length].
  match goal with |- context [writeLoot E ?d ?v ?m'] =>
    destruct (writeLoot_trace E d v m') as (prints & Hev & _ & Hp & _);
    destruct (writeLoot E d v m') as [es m3] end.
  cbn [fst] in *. subst es. split.
  - right. apply elem_of_app. left. right. apply elem_of_app. right. right.
    apply elem_of_app. right. apply elem_of_app. right. left.
  - intros Hv. specialize (Hp Hv).
    right. apply elem_of_app. left. right. apply elem_of_app. right. right.
    apply elem_of_app. right. apply elem_of_app. left. exact Hp.
Qed.

End Outside.

Lemma mpc_start_or_not (p : mpc) : p = MStart \/ p <> MStart.
Proof. destruct p; auto; right; discriminate. Qed.

Section OutsideReach.
Context (E : Env) (a : Args) (m0 : SecretsModule).

Lemma reach_events_ok sched s :
  run E a sched (init m0) = Some s -> events_ok E a m0 s.
Proof.
  intros H. eapply events_ok_run; [apply Shape_init|apply events_ok_init|exact H].
Qed.

(** Until the epilogue nothing leaves the console and the log. *)
Lemma no_io_before sched s :
  run E a sched (init m0) = Some s -> main s <> MEnd ->
  List.filter is_io (events s) = [].
Proof.
  intros Hrun Hne. pose proof (reach_Shape E a m0 _ _ Hrun) as HS.
  destruct (mpc_start_or_not (main s)) as [Hs|Hns].
  - rewrite (sh_start _ _ HS Hs). reflexivity.
  - rewrite (reach_events_ok _ _ Hrun Hns Hne).
    rewrite List.filter_app, filter_io_prologue, filter_io_logs. reflexivity.
Qed.

End OutsideReach.

(** X8.  What the run does outside the process.  Until its last step a run
    only prints and logs.  At its end, when the table is empty it has called
    neither the output stage nor the file system; when the table has a row it
    has called, once each and in this order, the output stage with the whole
    table, [os.MkdirAll] on the loot directory and [os.WriteFile] on the loot
    file with the commands of all the secrets: a failure of [os.MkdirAll]
    does not keep [os.WriteFile] from being called, and a failure of either
    does not keep the line that says the loot was written from being
    printed; the commands themselves are printed when the verbosity is above
    2. *)
Theorem io_events (E : Env) (a : Args) (m0 : SecretsModule) :
  forall sched s,
    run E a sched (init m0) = Some s ->
    (main s <> MEnd -> List.filter is_io (events s) = [])
    /\ (finished s ->
        List.filter is_io (events s)
        = match utils.Body (output (M s)) with
          | [] => []
          | _ :: _ =>
              [EOutputSelector (verbosity a) (outputFormat a)
                 ["Service"; "Region"; "Name"; "Description"]%string
                 (utils.Body (output (M s)))
                 (Join E [outputDirectory a; "cloudfox-output"; "aws"; AWSProfile (M s)]%string)
                 "secrets" "secrets";
               EMkdirAll (loot_path E (outputDirectory a) (M s));
               EWriteFile (pullFile E (outputDirectory a) (M s)) (loot_out (Secrets (M s)))]
          end)
    /\ (finished s -> utils.Body (output (M s)) <> [] ->
        EPrint ("[" +:+ cyan E "secrets" +:+ "] Loot written to ["
                +:+ pullFile E (outputDirectory a) (M s) +:+ "]" +:+ nl) ∈ events s
        /\ (2 < verbosity a -> EPrint (loot_out (Secrets (M s))) ∈ events s)).
Proof.
  intros sched s Hrun. split; [by apply (no_io_before E a m0 sched)|].
  assert (finished s ->
          exists s1,
            main s1 = MOutput
            /\ List.filter is_io (events s1) = []
            /\ utils.Verbosity (output (M s1)) = verbosity a
            /\ utils.CallingModule (output (M s1)) = "secrets"%string
            /\ s = with_main MEnd (emit (epilogue E a (M s1)).1
                                     (with_M (epilogue E a (M s1)).2 s1))) as Hlast.
  { intros Hf.
    destruct (finished_last_step E a m0 _ _ Hrun Hf) as (sched1 & s1 & _ & H1 & Hm & ->).
    pose proof (reach_SInv E a m0 _ _ H1) as HSI.
    pose proof (s_output _ _ _ _ HSI ltac:(rewrite Hm; discriminate)
                  ltac:(rewrite Hm; discriminate)) as Ho.
    rewrite prologue_output in Ho.
    exists s1. split; [exact Hm|]. split.
    - apply (no_io_before E a m0 _ _ H1). rewrite Hm. discriminate.
    - rewrite Ho. auto. }
  split.
  - intros Hf. destruct (Hlast Hf) as (s1 & Hm & Hio & Hv & Hc & ->).
    pose proof (epilogue_keeps E a (M s1)) as (K1 & _).
    cbn [events M emit with_M with_main].
    rewrite List.filter_app, Hio, epilogue_io, epilogue_output. cbn [utils.Body app].
    destruct (utils.Body (output (M s1)) ++ map row (Secrets (M s1)))%list; [reflexivity|].
    unfold pullFile, loot_path.
    by rewrite (epilogue_profile E a (M s1)), K1, Hv, Hc.
  - intros Hf Hb. destruct (Hlast Hf) as (s1 & Hm & Hio & Hv & Hc & ->).
    pose proof (epilogue_keeps E a (M s1)) as (K1 & _).
    cbn [events M emit with_M with_main] in *.
    rewrite epilogue_output in Hb. cbn [utils.Body] in Hb.
    destruct (epilogue_prints E a (M s1) Hb) as [P1 P2].
    unfold pullFile, loot_path in *.
    rewrite (epilogue_profile E a (M s1)), K1, <- Hc. split.
    + apply elem_of_app. right. exact P1.
    + intros H2. apply elem_of_app. right. by apply P2.
Qed.

(** X8 at the end of the scenario on a file system that refuses both
    calls, with the loot printed. *)
Lemma io_events_witness :
  List.filter is_io (events readonly_final)
  = match utils.Body (output (M readonly_final)) with
    | [] => []
    | _ :: _ =>
        [EOutputSelector (verbosity verbose_args) (outputFormat verbose_args)
           ["Service"; "Region"; "Name"; "Description"]%string
           (utils.Body (output (M readonly_final)))
           (Join readonly_env [outputDirectory verbose_args; "cloudfox-output"; "aws";
                               AWSProfile (M readonly_final)]%string)
           "secrets" "secrets";
         EMkdirAll (loot_path readonly_env (outputDirectory verbose_args) (M readonly_final));
         EWriteFile (pullFile readonly_env (outputDirectory verbose_args) (M readonly_final))
           (loot_out (Secrets (M readonly_final)))]
    end.
Proof.
  apply (proj1 (proj2 (io_events readonly_env verbose_args (scenario_module two_regions)
                         scenario_schedule readonly_final ltac:(vm_compute; reflexivity)))).
  reflexivity.
Defined.

(** ** [executeChecks] on its own *)

Lemma decr_incr z : int_min <= z <= int_max -> decr (incr z) = z.
Proof.
  intros H. destruct (Z.eq_dec z int_max) as [->|Hne]; [reflexivity|].
  rewrite incr_id by lia. rewrite decr_id by lia. lia.
Qed.

Section Alone.
Context (E : Env) (F : nat).

Lemma after_failures_fields n c :
  (n <= 1)%nat ->
  after_failures n c
  = console.mkCounter (console.Total c) (console.Pending c) (console.Complete c)
      (Nat.iter n incr (console.Error c)) (console.Executing c).
Proof. intros Hn. destruct c. destruct n as [|[|n]]; [reflexivity|reflexivity|lia]. Qed.

End Alone.

(** X9.  [executeChecks] on its own, for a region whose sources are finite:
    it runs to its end; its calls are those of the chain of Secrets Manager,
    token after token, followed by those of the chain of SSM, all for its own
    region, a failed call being the last of its chain (there is no retry) and
    a failure of the first source not keeping the second from being called;
    it sends the items of the region in that order; and it leaves [Total] and
    [Complete] incremented, [Pending] decremented, [Executing] as it found
    it, and [Error] incremented once for each source that failed. *)
Theorem executeChecks_alone (E : Env) (F : nat) (r : string) (c : console.CommandCounter) :
  region_finite E F r = true ->
  int_min <= console.Executing c <= int_max ->
  exists n acts,
    worker_run E n c (executeChecks r)
    = (acts,
       console.mkCounter (incr (console.Total c)) (decr (console.Pending c))
         (incr (console.Complete c))
         (Nat.iter (region_failures E F r) incr (console.Error c))
         (console.Executing c),
       mkWorker r WExit)
    /\ calls_of acts
       = map (fun t => (SecretsManager, r, t)) (source_tokens E F SecretsManager r None)
         ++ map (fun t => (SSM, r, t)) (source_tokens E F SSM r None)
    /\ sends_of acts = region_items E F r.
Proof.
  intros Hf Hex. apply andb_true_iff in Hf as [H1 H2].
  set (c1 := console.mkCounter (incr (console.Total c)) (decr (console.Pending c))
               (console.Complete c) (console.Error c) (incr (console.Executing c))).
  assert (worker_run E 6 c (executeChecks r)
          = ([ALoad FTotal; AStore FTotal (incr (console.Total c));
              ALoad FPending; AStore FPending (decr (console.Pending c));
              ALoad FExecuting; AStore FExecuting (incr (console.Executing c))],
             c1, mkWorker r (WCall SecretsManager None))) as HA
    by (destruct c; reflexivity).
  destruct (run_loop E F SecretsManager r None c1 H1) as (n1 & a1 & HB & Hs1 & Hc1 & _).
  pose proof (source_failures_le E F SecretsManager r None) as L1.
  pose proof (source_failures_le E F SSM r None) as L2.
  rewrite (after_failures_fields _ _ L1) in HB.
  set (c2 := console.mkCounter _ _ _ _ _) in HB.
  destruct (run_loop E F SSM r None c2 H2) as (n2 & a2 & HC & Hs2 & Hc2 & _).
  rewrite (after_failures_fields _ _ L2) in HC.
  set (c3 := console.mkCounter _ _ _ _ _) in HC.
  assert (worker_run E 5 c3 (mkWorker r (after_loop SSM))
          = ([ALoad FExecuting; AStore FExecuting (decr (console.Executing c3));
              ALoad FComplete; AStore FComplete (incr (console.Complete c3)); AWgDone],
             console.mkCounter (console.Total c3) (console.Pending c3)
               (incr (console.Complete c3)) (console.Error c3) (decr (console.Executing c3)),
             mkWorker r WExit)) as HD by reflexivity.
  pose proof (worker_run_trans E _ _ _ _ _ _ _ _ _ _ HC HD) as HCD.
  pose proof (worker_run_trans E _ _ _ _ _ _ _ _ _ _ HB HCD) as HBCD.
  pose proof (worker_run_trans E _ _ _ _ _ _ _ _ _ _ HA HBCD) as HALL.
  eexists _, _. split; [|split].
  - rewrite HALL. f_equal. f_equal. subst c3 c2 c1. cbn [console.Total console.Pending
      console.Complete console.Error console.Executing].
    rewrite (decr_incr _ Hex). unfold region_failures.
    rewrite Nat.add_comm, Nat.iter_add. reflexivity.
  - rewrite !calls_of_app, Hc1, Hc2. cbn. by rewrite app_nil_r.
  - rewrite !sends_of_app, Hs1, Hs2. cbn. by rewrite app_nil_r.
Qed.

(** X9 at the scenario: the worker of ["us-east-1"], whose second source
    fails on its first call. *)
Lemma executeChecks_alone_witness :
  exists n acts,
    worker_run scenario_env n zero_counter (executeChecks "us-east-1")
    = (acts,
       console.mkCounter (incr (console.Total zero_counter))
         (decr (console.Pending zero_counter)) (incr (console.Complete zero_counter))
         (Nat.iter (region_failures scenario_env 1 "us-east-1") incr
            (console.Error zero_counter))
         (console.Executing zero_counter),
       mkWorker "us-east-1" WExit)
    /\ calls_of acts
       = map (fun t => (SecretsManager, "us-east-1"%string, t))
           (source_tokens scenario_env 1 SecretsManager "us-east-1" None)
         ++ map (fun t => (SSM, "us-east-1"%string, t))
              (source_tokens scenario_env 1 SSM "us-east-1" None)
    /\ sends_of acts = region_items scenario_env 1 "us-east-1".
Proof.
  apply (executeChecks_alone scenario_env 1 "us-east-1" zero_counter eq_refl).
  vm_compute. split; discriminate.
Defined.

(** ** A source that never ends *)

Section Endless.
Context (E : Env) (a : Args) (k : kind) (r : string).
Hypothesis Hend : endless E k r None.

Lemma endless_page tok recs t :
  endless E k r tok -> fetchPage E k r tok = Page recs (Some t) -> endless E k r (Some t).
Proof.
  intros H Hf n. specialize (H (S n)). cbn [source_finite] in H. by rewrite Hf in H.
Qed.

Lemma endless_not_failure tok err : endless E k r tok -> fetchPage E k r tok <> Failure err.
Proof. intros H Hf. specialize (H 1%nat). cbn [source_finite] in H. by rewrite Hf in H. Qed.

Lemma endless_not_last tok recs : endless E k r tok -> fetchPage E k r tok <> Page recs None.
Proof. intros H Hf. specialize (H 1%nat). cbn [source_finite] in H. by rewrite Hf in H. Qed.

Lemma held_up_after_page k' recs next :
  (k' = k /\ exists t, next = Some t /\ endless E k r (Some t))
  \/ (k' = SecretsManager /\ k = SSM) ->
  held_up E k r (after_page k' recs next).
Proof.
  intros [(-> & t & -> & He)|(-> & Hk)].
  - destruct recs; cbn; eauto 10.
  - destruct recs as [|e rest]; cbn; [|auto].
    destruct next as [t|]; cbn; [auto|]. left. split; [by symmetry|exact Hend].
Qed.

(** A step of a worker of region [r] leaves it held up. *)
Lemma held_up_step c w act w' :
  region w = r ->
  worker_step E c w = Some (act, w') ->
  held_up E k r (pc w) -> held_up E k r (pc w').
Proof.
  destruct w as [r0 p]. cbn [region pc]. intros ->. unfold worker_step. cbn [pc region].
  destruct p as [u [v|]|k' tok|k' err|k' e rest next| |]; intros H Hh; simplify_eq; cbn [pc].
  - destruct u as [| | |k'| |]; cbn in Hh |- *; try done.
    + destruct k; [left; auto|right; auto].
    + destruct Hh as [-> ->]. cbn. left. auto.
  - exact Hh.
  - cbn in Hh. destruct (fetchPage E k' r tok) as [err|recs next] eqn:Hf; simplify_eq; cbn [pc].
    + destruct Hh as [(-> & He)|Hh]; [|exact Hh].
      exfalso. by eapply endless_not_failure.
    + apply held_up_after_page. destruct Hh as [(-> & He)|Hh]; [|by right].
      left. split; [reflexivity|]. destruct next as [t|].
      * exists t. split; [reflexivity|]. by eapply endless_page.
      * exfalso. by eapply endless_not_last.
  - exact Hh.
  - apply held_up_after_page. exact Hh.
  - done.
Qed.

(** In every state of a run the workers of region [r] are held up. *)
Lemma held_up_run sched s s' :
  (forall i w, workers s !! i = Some w -> region w = r -> held_up E k r (pc w)) ->
  run E a sched s = Some s' ->
  forall i w, workers s' !! i = Some w -> region w = r -> held_up E k r (pc w).
Proof.
  revert s. induction sched as [|t sched IH]; intros s Hs H; cbn in H.
  - by simplify_eq.
  - destruct (step E a t s) as [s1|] eqn:Hstep; [|discriminate].
    apply (IH s1); [|exact H]. clear IH H.
    destruct t as [| |j].
    + cbn in Hstep. unfold PrintSecrets in Hstep.
      destruct (main s) as [|r' rest|[v|] r' rest|r' rest| | | | | | |] eqn:Hm;
        try (simplify_eq; exact Hs).
      * destruct (prologue E a (M s)). simplify_eq. exact Hs.
      * simplify_eq. cbn. intros i w Hi.
        apply lookup_app_Some in Hi as [Hi|[_ Hi]]; [exact (Hs _ _ Hi)|].
        apply list_lookup_singleton_Some in Hi as [_ <-]. intros _. exact I.
      * destruct (wg s); simplify_eq. exact Hs.
      * destruct (spinner s); simplify_eq. exact Hs.
      * destruct (spinner s); simplify_eq. exact Hs.
      * destruct (receiver s); simplify_eq. exact Hs.
      * destruct (receiver s); simplify_eq. exact Hs.
      * destruct (epilogue E a (M s)). simplify_eq. exact Hs.
    + cbn in Hstep. unfold Receiver in Hstep. destruct (receiver s); simplify_eq. exact Hs.
    + destruct (step_worker_inv _ _ _ _ _ Hstep) as (w & act & w' & s0 & Hw & Hws & Hap & ->).
      destruct (apply_action_facts _ _ _ Hap) as (A1 & _).
      destruct (worker_step_shape E _ _ _ _ Hws) as (R1 & _).
      cbn [workers with_workers]. rewrite A1. intros i wi Hi Hr.
      apply list_lookup_insert_Some in Hi as [(-> & <- & _)|[Hne Hi]]; [|exact (Hs _ _ Hi Hr)].
      rewrite R1 in Hr. eapply held_up_step; eauto.
Qed.

End Endless.

(** X10.  A source that never ends.  The loops put no bound on the number of
    pages: when the chain of a source of one of the regions goes on for
    ever (every call returns a page with a token), the worker of that region
    never returns, [wg.Wait()] never returns, and [PrintSecrets] never
    ends, however the run is scheduled. *)
Theorem endless_source (E : Env) (a : Args) (m0 : SecretsModule) (k : kind) (r : string) :
  r ∈ AWSRegions m0 ->
  endless E k r None ->
  forall sched s,
    run E a sched (init m0) = Some s ->
    main s <> MEnd
    /\ joined (main s) = false
    /\ forall w, w ∈ workers s -> region w = r -> pc w <> WExit.
Proof.
  intros Hr Hend sched s Hrun.
  pose proof (reach_Shape E a m0 _ _ Hrun) as HS.
  assert (forall i w, workers s !! i = Some w -> region w = r -> held_up E k r (pc w)) as Hh.
  { eapply (held_up_run E a k r Hend _ (init m0)); [|exact Hrun].
    intros i w Hi. destruct i; discriminate. }
  assert (forall w, w ∈ workers s -> region w = r -> pc w <> WExit) as Hne.
  { intros w Hin Hw He. apply list_elem_of_lookup in Hin as [i Hi].
    specialize (Hh _ _ Hi Hw). rewrite He in Hh. exact Hh. }
  assert (joined (main s) = false) as Hj.
  { destruct (joined (main s)) eqn:Hj; [exfalso|reflexivity].
    destruct (joined_launched _ (M s) Hj) as [Hl _].
    pose proof (sh_regions _ _ HS) as Hreg. rewrite Hl, app_nil_r in Hreg.
    rewrite <- Hreg in Hr. apply list_elem_of_fmap in Hr as (w & -> & Hin).
    apply (Hne w Hin eq_refl). eapply exited_all; [|exact Hin]. by apply (sh_joined _ _ HS). }
  split; [|split; [exact Hj|exact Hne]].
  intros He. rewrite He in Hj. discriminate.
Qed.

(** The first source of [looping_env] is endless, in every region. *)
Lemma looping_endless r tok : endless looping_env SecretsManager r tok.
Proof. intros n. revert tok. induction n as [|n IH]; intros tok; [reflexivity|apply IH]. Qed.

(** X10 at the scenario with the looping source, forty steps into a run. *)
Lemma endless_source_witness :
  main looping_state <> MEnd
  /\ joined (main looping_state) = false
  /\ forall w, w ∈ workers looping_state -> region w = "us-east-1"%string -> pc w <> WExit.
Proof.
  apply (endless_source looping_env scenario_args (scenario_module two_regions)
           SecretsManager "us-east-1" ltac:(apply list_elem_of_here)
           (looping_endless "us-east-1" None) looping_schedule).
  vm_compute. reflexivity.
Defined.
